(** * A maze and a pursuit: [ai.py] embedded and verified

    The development follows the source file [ai.py] function by function.
    Python values are modelled as follows:

    - a one-character [str] held in a grid cell is an [ascii]; a text (the
      rendering of a grid) is a [string];
    - a grid (a list of rows, each a list of cells) is a [list (list ascii)];
    - [int] is [Z]; list indexing follows Python (negative indices count from
      the end, anything else out of range raises [IndexError]);
    - a raised exception is the [Raise] outcome of the [result] monad.  Loops
      and recursions that Rocq cannot see terminate take a fuel argument; the
      outcome [OutOfFuel] marks an exhausted bound, and the theorems show
      that it never arises, or which draws make a loop run on;
    - the calls of [random] draw from an explicit stream of naturals;
    - the module's global [grid] and what [print] wrote are the two fields of
      a [world] that [play] and [smart_play] take and return;
    - the interpreter's recursion limit is not modelled: [carve_passages]
      may recurse as deep as the grid has lattice cells. *)

From Stdlib Require Import ZArith Ascii String Lia.
From stdpp Require Import base option list sorting gmap strings.

Local Open Scope Z_scope.
#[local] Set Warnings "-clear-no-such-hyp".

(** ** Outcomes of a call *)

Inductive exn : Type :=
| ValueError (msg : string)
| IndexError
| TypeError.

Inductive result (A : Type) : Type :=
| Ok (a : A)
| Raise (e : exn)
| OutOfFuel.

Arguments Ok {A} a.
Arguments Raise {A} e.
Arguments OutOfFuel {A}.

#[global] Instance result_ret : MRet result := fun A a => Ok a.
#[global] Instance result_bind : MBind result := fun A B f r =>
  match r with
  | Ok a => f a
  | Raise e => Raise e
  | OutOfFuel => OutOfFuel
  end.


(** ** Python lists *)

Module Py.

(** [l[i]] *)
Definition index {A} (l : list A) (i : Z) : result A :=
  let n := Z.of_nat (length l) in
  let j := if i <? 0 then i + n else i in
  if (0 <=? j) && (j <? n)
  then match l !! Z.to_nat j with Some a => Ok a | None => Raise IndexError end
  else Raise IndexError.

(** [l[i] = v] *)
Definition setitem {A} (l : list A) (i : Z) (v : A) : result (list A) :=
  let n := Z.of_nat (length l) in
  let j := if i <? 0 then i + n else i in
  if (0 <=? j) && (j <? n) then Ok (<[Z.to_nat j := v]> l) else Raise IndexError.

(** [len(l)] *)
Definition len {A} (l : list A) : Z := Z.of_nat (length l).

(** [row.index(c)], for a [c] known to be [in row] *)
Fixpoint find_index (c : ascii) (row : list ascii) : option nat :=
  match row with
  | [] => None
  | c' :: row' => if decide (c' = c) then Some O else S <$> find_index c row'
  end.

(** The characters [str.isspace] accepts, among the first 256 code points. *)
Definition isspace (c : ascii) : bool :=
  let n := nat_of_ascii c in
  ((9 <=? n) && (n <=? 13) || (28 <=? n) && (n <=? 32)
   || (n =? 133) || (n =? 160))%nat.

Fixpoint lstrip (s : string) : string :=
  match s with
  | EmptyString => EmptyString
  | String c s' => if isspace c then lstrip s' else s
  end.

Fixpoint rstrip (s : string) : string :=
  match s with
  | EmptyString => EmptyString
  | String c s' =>
      match rstrip s' with
      | EmptyString => if isspace c then EmptyString else String c EmptyString
      | r => String c r
      end
  end.

(** [s.strip()] *)
Definition strip (s : string) : string := rstrip (lstrip s).

(** [s.split(sep)] for a one-character separator: never the empty list. *)
Fixpoint split (sep : ascii) (s : string) : list string :=
  match s with
  | EmptyString => [EmptyString]
  | String c s' =>
      if decide (c = sep) then EmptyString :: split sep s'
      else match split sep s' with
           | [] => [String c EmptyString]
           | w :: ws => String c w :: ws
           end
  end.

(** [sep.join(parts)] *)
Fixpoint join (sep : string) (parts : list string) : string :=
  match parts with
  | [] => EmptyString
  | [p] => p
  | p :: ps => (p ++ sep ++ join sep ps)%string
  end.

(** A [map] object: the function and the list it will be applied to, one
    element at a time, when the object is iterated.  Like every iterator it
    is true in a boolean context, whatever it would yield. *)
Record map_object (A B : Type) : Type :=
  Map { map_fn : A -> result B; map_src : list A }.
Arguments Map {A B} _ _.
Arguments map_fn {A B} _.
Arguments map_src {A B} _.

Definition truthy {A B} (m : map_object A B) : bool := true.

(** The loop of [min(it, key=k)] once a first element is at hand: a later
    element replaces the best one only when its key is strictly smaller. *)
Fixpoint min_loop {A B} (f : A -> result B) (key : B -> Z)
    (best : B) (rest : list A) : result B :=
  match rest with
  | [] => Ok best
  | a :: rest' =>
      b ← f a;
      min_loop f key (if key b <? key best then b else best) rest'
  end.

(** [min(m, key=k)] on a map object *)
Definition min_key {A B} (key : B -> Z) (m : map_object A B) : result B :=
  match map_src m with
  | [] => Raise (ValueError "min() arg is an empty sequence")
  | a :: rest => b ← map_fn m a; min_loop (map_fn m) key b rest
  end.

End Py.

(** ** Grids *)

Abbreviation grid := (list (list ascii)) (only parsing).
Abbreviation pos := (Z * Z)%type (only parsing).

Definition WALL : ascii := "#"%char.
Definition OPEN : ascii := " "%char.
Definition NEWLINE : ascii := "010"%char.

(** [grid[y][x]] *)
Definition get_cell (g : grid) (x y : Z) : result ascii :=
  row ← Py.index g y; Py.index row x.

(** [grid[y][x] = c]; the row object is updated in place, so the grid sees it. *)
Definition set_cell (g : grid) (x y : Z) (c : ascii) : result grid :=
  row ← Py.index g y;
  row' ← Py.setitem row x c;
  Py.setitem g y row'.

(** [parse_grid]: [[list(line) for line in grid.strip().split('\n')]] *)
Definition parse_grid (s : string) : grid :=
  list_ascii_of_string <$> Py.split NEWLINE (Py.strip s).

(** [grid_to_string]: ['\n'.join(''.join(line) for line in grid)] *)
Definition grid_to_string (g : grid) : string :=
  Py.join (String NEWLINE EmptyString) (string_of_list_ascii <$> g).

(** [get_character_coordinates]: rows are scanned in order, [y] counts them. *)
Fixpoint scan_rows (y : nat) (g : grid) (char : ascii) : option pos :=
  match g with
  | [] => None
  | row :: rest =>
      match Py.find_index char row with
      | Some x => Some (Z.of_nat x, Z.of_nat y)
      | None => scan_rows (S y) rest char
      end
  end.

Definition get_character_coordinates (g : grid) (char : ascii) : option pos :=
  scan_rows O g char.

Definition not_found : exn := ValueError "character not found in the grid".

(** [calculate_distance] *)
Definition calculate_distance (g : grid) (char1 char2 : ascii) : result Z :=
  match get_character_coordinates g char1, get_character_coordinates g char2 with
  | Some (x1, y1), Some (x2, y2) => Ok (Z.abs (x1 - x2) + Z.abs (y1 - y2))
  | _, _ => Raise not_found
  end.

(** ** Move enumeration *)

(** List comprehensions and [for] loops whose body may raise: elements are
    handled in order and the first exception ends the loop. *)
Fixpoint filter_r {A} (f : A -> result bool) (l : list A) : result (list A) :=
  match l with
  | [] => Ok []
  | a :: l' => b ← f a; rest ← filter_r f l'; Ok (if b : bool then a :: rest else rest)
  end.

Fixpoint map_r {A B} (f : A -> result B) (l : list A) : result (list B) :=
  match l with
  | [] => Ok []
  | a :: l' => b ← f a; rest ← map_r f l'; Ok (b :: rest)
  end.

(** Up, down, left, right. *)
Definition possible_moves (x y : Z) : list pos :=
  [(x, y - 1); (x, y + 1); (x - 1, y); (x + 1, y)].

(** [0 <= new_y < len(grid) and 0 <= new_x < len(grid[0]) and
    grid[new_y][new_x] == ' '], evaluated left to right. *)
Definition is_valid_move (g : grid) (p : pos) : result bool :=
  let '(new_x, new_y) := p in
  if (0 <=? new_y) && (new_y <? Py.len g) then
    row0 ← Py.index g 0;
    if (0 <=? new_x) && (new_x <? Py.len row0) then
      c ← get_cell g new_x new_y; Ok (bool_decide (c = OPEN))
    else Ok false
  else Ok false.

Definition valid_moves (g : grid) (x y : Z) : result (list pos) :=
  filter_r (is_valid_move g) (possible_moves x y).

(** The body of the loop over [valid_moves]: copy, clear, place. *)
Definition moved_grid (g : grid) (char : ascii) (x y : Z) (p : pos) : result grid :=
  let new_grid := g in
  new_grid ← set_cell new_grid x y OPEN;
  set_cell new_grid p.1 p.2 char.

(** [generate_possible_moves], on grid values.  (The same function on a store
    of row objects is [Store.generate_possible_moves] below.) *)
Definition generate_possible_moves (g : grid) (char : ascii) : result (list grid) :=
  match get_character_coordinates g char with
  | None => Raise not_found
  | Some (x, y) =>
      moves ← valid_moves g x y;
      map_r (moved_grid g char x y) moves
  end.

(** ** Move selection *)

Abbreviation scored := (grid * Z)%type (only parsing).

(** [find_best_move]; its argument is the map object that
    [calculate_distances] or [calculate_path_distances] returns. *)
Definition find_best_move (distances : Py.map_object grid scored) : result (option grid) :=
  if negb (Py.truthy distances) then Ok None
  else best ← Py.min_key snd distances; Ok (Some best.1).

Definition calculate_distances (grids : list grid) (char1 char2 : ascii)
  : Py.map_object grid scored :=
  Py.Map (fun g => d ← calculate_distance g char1 char2; Ok (g, d)) grids.

(** [grid_to_string(best_move)]: iterating [None] raises [TypeError]. *)
Definition grid_to_string_of (best_move : option grid) : result string :=
  match best_move with
  | Some g => Ok (grid_to_string g)
  | None => Raise TypeError
  end.

(** [make_move] *)
Definition make_move (grid_string : string) (char1 char2 : ascii) : result string :=
  let g := parse_grid grid_string in
  possible ← generate_possible_moves g char1;
  let distances := calculate_distances possible char1 char2 in
  best_move ← find_best_move distances;
  grid_to_string_of best_move.

(** ** Path distance *)

Definition directions : list pos := [(-1, 0); (1, 0); (0, -1); (0, 1)].

Abbreviation queue := (list (pos * Z)) (only parsing).

(** The [for dx, dy in directions] loop of one popped cell [(x, y)]. *)
Fixpoint explore (g : grid) (target : pos) (x y path_length : Z)
    (dirs : list pos) (q : queue) (visited : gset pos) : result (queue * gset pos) :=
  match dirs with
  | [] => Ok (q, visited)
  | (dx, dy) :: dirs' =>
      let nx := x + dx in
      let ny := y + dy in
      if (0 <=? ny) && (ny <? Py.len g) then
        row0 ← Py.index g 0;
        if (0 <=? nx) && (nx <? Py.len row0) && negb (bool_decide ((nx, ny) ∈ visited)) then
          c ← get_cell g nx ny;
          if bool_decide (c = OPEN) || bool_decide ((nx, ny) = target) then
            explore g target x y path_length dirs'
              (q ++ [((nx, ny), path_length + 1)]) ({[ (nx, ny) ]} ∪ visited)
          else explore g target x y path_length dirs' q visited
        else explore g target x y path_length dirs' q visited
      else explore g target x y path_length dirs' q visited
  end.

(** The [while queue] loop; every iteration pops one entry. *)
Fixpoint bfs (fuel : nat) (g : grid) (target : pos) (q : queue) (visited : gset pos)
  : result Z :=
  match fuel with
  | O => OutOfFuel
  | S fuel' =>
      match q with
      | [] => Ok (-1)
      | ((x, y), path_length) :: q' =>
          if bool_decide ((x, y) = target) then Ok path_length
          else
            '(q'', visited') ← explore g target x y path_length directions q' visited;
            bfs fuel' g target q'' visited'
      end
  end.

(** Every cell but the start enters the queue from inside the
    [len(grid)] by [len(grid[0])] box, at most once: that many iterations,
    one for the start and one to see the queue empty are enough. *)
Definition bfs_fuel (g : grid) : nat :=
  S (S (length g * length (default [] (head g)))).

(** [calculate_path_distance] *)
Definition calculate_path_distance (g : grid) (char1 char2 : ascii) : result Z :=
  match get_character_coordinates g char1, get_character_coordinates g char2 with
  | Some start, Some target => bfs (bfs_fuel g) g target [(start, 0)] {[ start ]}
  | _, _ => Raise not_found
  end.

Definition calculate_path_distances (grids : list grid) (char1 char2 : ascii)
  : Py.map_object grid scored :=
  Py.Map (fun g => d ← calculate_path_distance g char1 char2; Ok (g, d)) grids.

(** [make_smart_move] *)
Definition make_smart_move (grid_string : string) (char1 char2 : ascii) : result string :=
  let g := parse_grid grid_string in
  possible ← generate_possible_moves g char1;
  let distances := calculate_path_distances possible char1 char2 in
  best_move ← find_best_move distances;
  grid_to_string_of best_move.

(** ** The random source

    [random] is an explicit stream: the [i]-th call of [randbelow] reads the
    [i]-th draw.  [shuffle] and [choice] consume it the way CPython's
    [random.shuffle] and [random.choice] do, so every sequence of outcomes is
    the image of some stream. *)

Record rng : Type := Rng { draws : nat -> nat; cursor : nat }.

Definition randbelow (k : nat) (r : rng) : nat * rng :=
  ((draws r (cursor r) mod k)%nat, Rng (draws r) (S (cursor r))).

(** [x[i], x[j] = x[j], x[i]] *)
Definition swap {A} (x : list A) (i j : nat) : list A :=
  match x !! i, x !! j with
  | Some xi, Some xj => <[j := xi]> (<[i := xj]> x)
  | _, _ => x
  end.

(** [for i in reversed(range(1, len(x))): j = randbelow(i + 1); swap] *)
Fixpoint shuffle_from {A} (i : nat) (x : list A) (r : rng) : list A * rng :=
  match i with
  | O => (x, r)
  | S i' => let '(j, r') := randbelow (S i) r in shuffle_from i' (swap x i j) r'
  end.

Definition shuffle {A} (x : list A) (r : rng) : list A * rng :=
  shuffle_from (pred (length x)) x r.

(** [range(start, stop, step)] for a positive step *)
Definition range (start stop step : Z) : list Z :=
  (fun i => start + step * Z.of_nat i) <$> seq 0 (Z.to_nat ((stop - start + step - 1) / step)).

(** [random.choice(seq)] *)
Definition choice (s : list Z) (r : rng) : result (Z * rng) :=
  match s with
  | [] => Raise IndexError
  | _ => let '(i, r') := randbelow (length s) r in
         v ← Py.index s (Z.of_nat i); Ok (v, r')
  end.

(** ** Maze generation *)

(** What [carve_passages] threads through its calls: the grid it carves in
    place and the random source.  [calls] is a log, not in the source: the
    cell of every call of [carve_passages], in call order. *)
Record carver : Type := Carver { maze : grid; gen : rng; calls : list pos }.

Definition carve_directions : list pos := [(0, 2); (0, -2); (2, 0); (-2, 0)].

(** The [for dx, dy in directions] loop of [carve_passages(x, y, grid)];
    [recurse] is the recursive call. *)
Fixpoint carve_loop (recurse : Z -> Z -> carver -> result carver)
    (n m x y : Z) (dirs : list pos) (st : carver) : result carver :=
  match dirs with
  | [] => Ok st
  | (dx, dy) :: dirs' =>
      let nx := x + dx in
      let ny := y + dy in
      if (0 <? ny) && (ny <? n - 1) && (0 <? nx) && (nx <? m - 1) then
        c ← get_cell (maze st) nx ny;
        if bool_decide (c = WALL) then
          g1 ← set_cell (maze st) nx ny OPEN;
          g2 ← set_cell g1 (x + dx / 2) (y + dy / 2) OPEN;
          st' ← recurse nx ny (Carver g2 (gen st) (calls st));
          carve_loop recurse n m x y dirs' st'
        else carve_loop recurse n m x y dirs' st
      else carve_loop recurse n m x y dirs' st
  end.

Fixpoint carve_passages (fuel : nat) (n m x y : Z) (st : carver) : result carver :=
  match fuel with
  | O => OutOfFuel
  | S fuel' =>
      let '(dirs, r) := shuffle carve_directions (gen st) in
      carve_loop (carve_passages fuel' n m) n m x y dirs
        (Carver (maze st) r (calls st ++ [(x, y)]))
  end.

(** [[['#' for _ in range(m)] for _ in range(n)]] *)
Definition initialize_grid (n m : Z) : grid :=
  replicate (Z.to_nat n) (replicate (Z.to_nat m) WALL).

(** [generate_maze], with the log of the carving kept.  Every recursive call
    follows the opening of two walls, so [n * m] calls deep is enough. *)
Definition carve_maze (n m : Z) (r : rng) : result carver :=
  let g := initialize_grid n m in
  '(start_x, r) ← choice (range 1 m 2) r;
  '(start_y, r) ← choice (range 1 n 2) r;
  g ← set_cell g start_x start_y OPEN;
  carve_passages (Z.to_nat (n * m)) n m start_x start_y (Carver g r []).

Definition generate_maze (n m : Z) (r : rng) : result grid :=
  st ← carve_maze n m r; Ok (maze st).

(** ** Placing the players *)

(** [random.randint(a, b)] is [randrange(a, b + 1)], which raises
    [ValueError] on an empty range (the text of its message differs between
    versions of Python). *)
Definition empty_range : exn := ValueError "empty range for randrange()".

Definition randint (a b : Z) (r : rng) : result (Z * rng) :=
  let width := b + 1 - a in
  if 0 <? width then
    let '(j, r') := randbelow (Z.to_nat width) r in Ok (a + Z.of_nat j, r')
  else Raise empty_range.

(** The loop [while j in selected: j = randbelow(n)] of [random.sample] when
    one index, [j0], is selected. *)
Fixpoint redraw (fuel : nat) (n j0 j : nat) (r : rng) : result (nat * rng) :=
  if decide (j = j0) then
    match fuel with
    | O => OutOfFuel
    | S fuel' => let '(j', r') := randbelow n r in redraw fuel' n j0 j' r'
    end
  else Ok (j, r).

Definition sample_too_large : exn :=
  ValueError "Sample larger than population or is negative".

(** [random.sample(population, 2)], the way CPython's [Random.sample] runs
    for [k = 2]: a population of at most 21 elements is copied to a pool from
    which the picked element is removed; in a larger one indices are drawn
    until one is new. *)
Definition sample2 {A} (fuel : nat) (population : list A) (r : rng)
  : result (A * A * rng) :=
  let n := length population in
  if (n <? 2)%nat then Raise sample_too_large
  else if (n <=? 21)%nat then
    let pool := population in
    let '(j, r) := randbelow n r in
    a ← Py.index pool (Z.of_nat j);
    v ← Py.index pool (Z.of_nat n - 0 - 1);
    pool ← Py.setitem pool (Z.of_nat j) v;
    let '(j, r) := randbelow (n - 1) r in
    b ← Py.index pool (Z.of_nat j);
    v ← Py.index pool (Z.of_nat n - 1 - 1);
    pool ← Py.setitem pool (Z.of_nat j) v;
    Ok (a, b, r)
  else
    let '(j0, r) := randbelow n r in
    a ← Py.index population (Z.of_nat j0);
    let '(j, r) := randbelow n r in
    '(j, r) ← redraw fuel n j0 j r;
    b ← Py.index population (Z.of_nat j);
    Ok (a, b, r).

(** [[(x, y) for y, row in enumerate(grid) for x, cell in enumerate(row)
    if cell == ' ']] *)
Fixpoint spots_in_row (x y : nat) (row : list ascii) : list pos :=
  match row with
  | [] => []
  | c :: row' =>
      if decide (c = OPEN) then (Z.of_nat x, Z.of_nat y) :: spots_in_row (S x) y row'
      else spots_in_row (S x) y row'
  end.

Fixpoint spots_from (y : nat) (g : grid) : list pos :=
  match g with
  | [] => []
  | row :: rest => spots_in_row O y row ++ spots_from (S y) rest
  end.

Definition open_spots (g : grid) : list pos := spots_from O g.

Definition too_few_spots : exn :=
  ValueError "Maze does not have enough open spots for players.".

(** [place_players]; the grid is updated in place and returned. *)
Definition place_players (fuel : nat) (g : grid) (r : rng) : result (grid * rng) :=
  let spots := open_spots g in
  if Py.len spots <? 2 then Raise too_few_spots
  else
    '(p_spot, o_spot, r) ← sample2 fuel spots r;
    g ← set_cell g p_spot.1 p_spot.2 "P";
    g ← set_cell g o_spot.1 o_spot.2 "O";
    Ok (g, r).

Definition maze_too_small : exn :=
  ValueError "Maze dimensions must be at least 5x5 to accommodate players.".

(** [generate_maze_with_players]; [generate_maze] leaves the random source
    where the carving left it. *)
Definition generate_maze_with_players (fuel : nat) (n m : Z) (r : rng) : result string :=
  if (n <? 5) || (m <? 5) then Raise maze_too_small
  else
    st ← carve_maze n m r;
    '(maze_with_players, _) ← place_players fuel (maze st) (gen st);
    Ok (grid_to_string maze_with_players).

(** ** The open room *)

Definition grid_too_small : exn := ValueError "Grid dimensions must be at least 2x2.".

(** A [for] loop over a range whose body may raise. *)
Fixpoint for_range {S} (body : Z -> S -> result S) (l : list Z) (s : S) : result S :=
  match l with
  | [] => Ok s
  | i :: l' => s' ← body i s; for_range body l' s'
  end.

(** The loop [while opponent_x == player_x and opponent_y == player_y]. *)
Fixpoint place_opponent (fuel : nat) (n m player_x player_y opponent_x opponent_y : Z)
    (r : rng) : result (Z * Z * rng) :=
  if (opponent_x =? player_x) && (opponent_y =? player_y) then
    match fuel with
    | O => OutOfFuel
    | S fuel' =>
        '(x, r) ← randint 1 (m - 2) r;
        '(y, r) ← randint 1 (n - 2) r;
        place_opponent fuel' n m player_x player_y x y r
    end
  else Ok (opponent_x, opponent_y, r).

(** [generate_grid_with_characters] *)
Definition generate_grid_with_characters (fuel : nat) (n m : Z) (r : rng) : result string :=
  if (n <? 2) || (m <? 2) then Raise grid_too_small
  else
    let g := replicate (Z.to_nat n) (replicate (Z.to_nat m) OPEN) in
    g ← for_range (fun i g => g ← set_cell g 0 i WALL; set_cell g (-1) i WALL)
          (range 0 n 1) g;
    g ← for_range (fun j g => g ← set_cell g j 0 WALL; set_cell g j (-1) WALL)
          (range 0 m 1) g;
    '(player_x, r) ← randint 1 (m - 2) r;
    '(player_y, r) ← randint 1 (n - 2) r;
    '(opponent_x, opponent_y, r) ←
      place_opponent fuel n m player_x player_y player_x player_y r;
    g ← set_cell g player_x player_y "P";
    g ← set_cell g opponent_x opponent_y "O";
    Ok (grid_to_string g).

(** ** The module's run

    The module draws a maze with its players, prints it, and calls [play]
    once.  [grid_text] is the global [grid]; [printed] lists what [print]
    wrote, one entry for each call. *)
Record world : Type := World { grid_text : string; printed : list string }.

(** [play] *)
Definition play (w : world) : result world :=
  g ← make_move (grid_text w) "P" "O";
  Ok (World g (printed w ++ [String NEWLINE "Grid After One Move:"; g])).

(** [smart_play] *)
Definition smart_play (w : world) : result world :=
  g ← make_smart_move (grid_text w) "P" "O";
  Ok (World g (printed w ++ [String NEWLINE "Grid After One Move:"; g])).

(** The statements of the module, in order: the maze, its printing, the
    call of [play]. *)
Definition run_module (fuel : nat) (r : rng) : result world :=
  g ← generate_maze_with_players fuel 10 10 r;
  play (World g ["Generated Grid:"%string; g]).

(** [generate_possible_moves] once more, on a store of row objects: here
    [row[:]] allocates and an assignment to a cell updates a row in place, so
    that what the function does to its argument can be stated. *)
Module Store.

Abbreviation addr := nat (only parsing).
Abbreviation store := (list (list ascii)) (only parsing).
Abbreviation gridref := (list nat) (only parsing).

Definition fetch (h : store) (a : addr) : list ascii := default [] (h !! a).

(** The grid value a reference denotes in a store. *)
Definition view (h : store) (g : gridref) : grid := fetch h <$> g.

(** [[row[:] for row in grid]] *)
Fixpoint copy_rows (h : store) (g : gridref) : gridref * store :=
  match g with
  | [] => ([], h)
  | a :: g' =>
      let '(g'', h') := copy_rows (h ++ [fetch h a]) g' in
      (length h :: g'', h')
  end.

(** [grid[y][x] = c] *)
Definition set_cell (h : store) (g : gridref) (x y : Z) (c : ascii) : result store :=
  a ← Py.index g y;
  row' ← Py.setitem (fetch h a) x c;
  Ok (<[a := row']> h).

Definition moved_grid (h : store) (g : gridref) (char : ascii) (x y : Z) (p : pos)
  : result (gridref * store) :=
  let '(new_grid, h) := copy_rows h g in
  h ← set_cell h new_grid x y OPEN;
  h ← set_cell h new_grid p.1 p.2 char;
  Ok (new_grid, h).

Fixpoint each_move (h : store) (g : gridref) (char : ascii) (x y : Z)
    (moves : list pos) : result (list gridref * store) :=
  match moves with
  | [] => Ok ([], h)
  | p :: moves' =>
      '(new_grid, h) ← moved_grid h g char x y p;
      '(new_grids, h) ← each_move h g char x y moves';
      Ok (new_grid :: new_grids, h)
  end.

Definition generate_possible_moves (h : store) (g : gridref) (char : ascii)
  : result (list gridref * store) :=
  match get_character_coordinates (view h g) char with
  | None => Raise not_found
  | Some (x, y) =>
      moves ← valid_moves (view h g) x y;
      each_move h g char x y moves
  end.

End Store.

(** ** Vocabulary of the statements *)

(** The four glyphs of a well-formed grid. *)
Definition glyph (c : ascii) : Prop :=
  c = WALL \/ c = OPEN \/ c = "P"%char \/ c = "O"%char.

(** Every row is as long as the first one. *)
Definition rectangular (g : grid) : Prop :=
  forall row, row ∈ g -> length row = length (default [] (head g)).

(** Inside the [len(grid)] by [len(grid[0])] box the source checks against. *)
Definition in_bounds (g : grid) (p : pos) : Prop :=
  (0 <= p.2 < Py.len g) /\ (0 <= p.1 < Py.len (default [] (head g))).

(** The cell at a position, without Python's wrap-around of negative indices. *)
Definition cell (g : grid) (p : pos) : option ascii :=
  if decide (0 <= p.1 /\ 0 <= p.2)
  then g !! Z.to_nat p.2 ≫= fun row => row !! Z.to_nat p.1
  else None.

Definition first_cell (g : grid) : option ascii := head g ≫= head.
Definition last_cell (g : grid) : option ascii := last g ≫= last.

(** 4-adjacency *)
Definition adjacent (p q : pos) : Prop :=
  Z.abs (p.1 - q.1) + Z.abs (p.2 - q.2) = 1.

(** A line of text: no newline in it. *)
Definition no_newline (s : string) : Prop :=
  Forall (fun c => c <> NEWLINE) (list_ascii_of_string s).

#[global] Instance in_bounds_dec (g : grid) (p : pos) : Decision (in_bounds g p).
Proof. unfold in_bounds. apply _. Defined.

(** The grids of the scenarios. *)
Definition open_room : string := "#####
#P  #
#   #
#  O#
#####".

Definition walled_in_room : string := "#####
#P# #
## O#
#####".

Definition side_by_side : string := "#####
#PO #
#   #
#####".

Definition two_regions : string := "#####
# # #
#P# #
# #O#
#####".

Definition min_of_nothing : exn := ValueError "min() arg is an empty sequence".

(** The dimensions of a grid: the lengths of its rows, in order. *)
Definition dims (g : grid) : list nat := length <$> g.

(** [g'] is [g] with [c] written at [p]; nothing else differs. *)
Definition written (g g' : grid) (p : pos) (c : ascii) : Prop :=
  dims g' = dims g /\
  forall q, cell g' q = if decide (q = p) then Some c else cell g q.

(** What one candidate grid looks like: the mover's cell cleared, the mover
    written on [p], nothing else touched. *)
Definition moved (g g' : grid) (char : ascii) (from p : pos) : Prop :=
  dims g' = dims g /\
  forall q, cell g' q =
    if decide (q = p) then Some char
    else if decide (q = from) then Some OPEN else cell g q.

(** *** Paths *)

Definition neighbour (p d : pos) : pos := (p.1 + d.1, p.2 + d.2).

(** An open cell inside the grid. *)
Definition is_open (g : grid) (q : pos) : Prop :=
  in_bounds g q /\ cell g q = Some OPEN.

(** [open_path g s w k]: [k] steps between 4-adjacent cells lead from [s] to
    [w], and every cell entered on the way ([w] too) is open. *)
Inductive open_path (g : grid) (s : pos) : pos -> Z -> Prop :=
| open_here : open_path g s s 0
| open_on w w' k :
    open_path g s w k -> adjacent w w' -> is_open g w' -> open_path g s w' (k + 1).

(** [path_between g s t k]: a 4-directional path of [k] steps from [s] to
    [t] whose intermediate cells are open; [t] is entered whatever it holds. *)
Definition path_between (g : grid) (s t : pos) (k : Z) : Prop :=
  (s = t /\ k = 0) \/
  exists w, open_path g s w (k - 1) /\ adjacent w t /\ in_bounds g t.

(** *** The search, as the proof sees it *)

(** A cell the search may enter. *)
Definition passable (g : grid) (target q : pos) : Prop :=
  in_bounds g q /\ (cell g q = Some OPEN \/ q = target).

Definition step (g : grid) (target p q : pos) : Prop :=
  (exists d, d ∈ directions /\ q = neighbour p d) /\ passable g target q.

Inductive walk (g : grid) (target s : pos) : pos -> Z -> Prop :=
| walk_here : walk g target s s 0
| walk_on w w' k :
    walk g target s w k -> step g target w w' -> walk g target s w' (k + 1).

Definition cells (g : grid) : list pos :=
  cprod (seqZ 0 (Py.len (default [] (head g)))) (seqZ 0 (Py.len g)).

Definition unvisited (g : grid) (visited : gset pos) : nat :=
  length (filter (fun p => p ∉ visited) (cells g)).

(** The state of the search while the neighbours of the popped cell [p], at
    distance [d], are explored; [seen] lists the directions already tried and
    [D] gives every visited cell the distance it was queued with. *)
Record exploring (g : grid) (target start p : pos) (d : Z) (seen : list pos)
    (q : queue) (visited : gset pos) (D : pos -> Z) : Prop := Exploring {
  ex_start : start ∈ visited /\ D start = 0;
  ex_queue : forall p' d', (p', d') ∈ q -> p' ∈ visited /\ D p' = d' /\ (d <= d' <= d + 1);
  ex_sorted : StronglySorted Z.le q.*2;
  ex_nodup : NoDup q.*1;
  ex_current : p ∈ visited /\ (p ∉ q.*1) /\ p <> target /\ D p = d;
  ex_seen : forall dir, dir ∈ seen -> passable g target (neighbour p dir) ->
      neighbour p dir ∈ visited /\ D (neighbour p dir) <= d + 1;
  ex_closed : forall u, u ∈ visited -> u ∉ q.*1 -> u <> p ->
      u <> target /\ D u <= d /\
      forall n, step g target u n -> n ∈ visited /\ D n <= D u + 1;
  ex_sound : forall v, v ∈ visited -> walk g target start v (D v)
}.

(** What [calculate_path_distance] is to return for a start and a target. *)
Definition shortest (g : grid) (s t : pos) (d : Z) : Prop :=
  (d = -1 /\ forall k, ~ path_between g s t k) \/
  (path_between g s t d /\ forall k, path_between g s t k -> d <= k).

(** *** Perfect mazes *)

(** [spath P a b l]: [l] lists the cells of a simple path from [a] to [b]
    (both included) through 4-adjacent cells that satisfy [P]. *)
Inductive spath (P : pos -> Prop) : pos -> pos -> list pos -> Prop :=
| spath_end a : P a -> spath P a a [a]
| spath_step a c b l :
    P a -> adjacent a c -> spath P c b l -> a ∉ l -> spath P a b (a :: l).

(** One connected component. *)
Definition connected (P : pos -> Prop) : Prop :=
  forall a b, P a -> P b -> exists l, spath P a b l.

(** At most one simple path between two cells: no cycle. *)
Definition one_path (P : pos -> Prop) : Prop :=
  forall a b l1 l2, spath P a b l1 -> spath P a b l2 -> l1 = l2.

Definition opens (g : grid) (p : pos) : Prop := cell g p = Some OPEN.

Definition perfect_maze (g : grid) : Prop :=
  connected (opens g) /\ one_path (opens g).

(** How many cells of a grid hold [c]. *)
Definition count_row (c : ascii) (row : list ascii) : nat :=
  length (filter (fun a => a = c) row).

Definition count_cells (c : ascii) (g : grid) : nat :=
  sum_list_with (count_row c) g.

(** A set of cells grown from one cell by attaching leaves: each new cell
    is adjacent to exactly one cell already there. *)
Inductive tree_of : list pos -> Prop :=
| tree_root p : tree_of [p]
| tree_leaf v u S :
    tree_of S -> v ∉ S -> u ∈ S -> adjacent v u ->
    (forall w, w ∈ S -> adjacent v w -> w = u) ->
    tree_of (v :: S).

Definition odd (x : Z) : Prop := x mod 2 = 1.
Definition even (x : Z) : Prop := x mod 2 = 0.

(** What the carving keeps true of the grid: [S] lists its open cells. *)
Record carved (n m : Z) (g : grid) (S : list pos) : Prop := Carved {
  cv_dims : dims g = replicate (Z.to_nat n) (Z.to_nat m);
  cv_open : forall p, opens g p <-> p ∈ S;
  cv_tree : tree_of S;
  cv_count : count_cells OPEN g = length S;
  cv_parity : forall p, p ∈ S -> odd p.1 \/ odd p.2;
  cv_edge : forall x y, (x, y) ∈ S ->
      (even x -> (x - 1, y) ∈ S /\ (x + 1, y) ∈ S) /\
      (even y -> (x, y - 1) ∈ S /\ (x, y + 1) ∈ S);
  cv_cells : forall p c, cell g p = Some c -> c = WALL \/ c = OPEN
}.

(** Strictly inside the outer border of an [n] by [m] grid. *)
Definition interior (n m : Z) (p : pos) : Prop :=
  (0 < p.1 < m - 1) /\ (0 < p.2 < n - 1).

(** The cell [(nx, ny)] two steps from [(x, y)] in one of the four carving
    directions, and the cell [(ix, iy)] between them. *)
Definition two_steps (x y ix iy nx ny : Z) : Prop :=
  (ix = x /\ nx = x /\ ((iy = y + 1 /\ ny = y + 2) \/ (iy = y - 1 /\ ny = y - 2))) \/
  (iy = y /\ ny = y /\ ((ix = x + 1 /\ nx = x + 2) \/ (ix = x - 1 /\ nx = x - 2))).

(** What a call of [carve_passages] on an open lattice cell does; the call
    itself is not yet in the log. *)
Definition carves (n m : Z) (call : Z -> Z -> carver -> result carver) (fuel : nat)
  : Prop :=
  forall x y st S,
    carved n m (maze st) S ->
    (length S + 1 = 2 * (length (calls st) + 1))%nat ->
    (x, y) ∈ S -> odd x -> odd y ->
    (Z.to_nat n * Z.to_nat m < fuel + length S)%nat ->
    exists st' S',
      call x y st = Ok st' /\ carved n m (maze st') S' /\
      (length S' + 1 = 2 * length (calls st'))%nat /\
      (forall p, p ∈ S -> p ∈ S') /\ (length S <= length S')%nat /\
      (forall p, p ∈ S' -> p ∈ S \/ interior n m p).

(** Every lattice neighbour of [p] strictly inside the border is open. *)
Definition closed_at (n m : Z) (g : grid) (p : pos) : Prop :=
  forall d, d ∈ carve_directions ->
    interior n m (p.1 + d.1, p.2 + d.2) -> opens g (p.1 + d.1, p.2 + d.2).

Definition two_glyphs (g : grid) : Prop :=
  forall p c, cell g p = Some c -> c = WALL \/ c = OPEN.

(** What a call of [carve_passages] that returns has done: what was open
    stays open, and the cell of the call and every odd cell opened during the
    call have all their lattice neighbours open. *)
Definition closes (n m : Z) (call : Z -> Z -> carver -> result carver) : Prop :=
  forall x y st st',
    call x y st = Ok st' -> odd x -> odd y -> 0 < x -> 0 < y ->
    two_glyphs (maze st) ->
    two_glyphs (maze st') /\
    (forall p, opens (maze st) p -> opens (maze st') p) /\
    closed_at n m (maze st') (x, y) /\
    (forall p, odd p.1 -> odd p.2 -> opens (maze st') p -> ~ opens (maze st) p ->
       closed_at n m (maze st') p).

(** The draws that keep [random.sample(population, 2)] drawing, [n] being
    the size of the population: more than 21 elements, and each of the next
    [fuel + 1] draws gives the index drawn first. *)
Definition sample_stuck (fuel n : nat) (r : rng) : Prop :=
  (21 < n)%nat /\
  forall i, (i <= fuel)%nat ->
    (draws r (cursor r + 1 + i) mod n = draws r (cursor r) mod n)%nat.

(** [g'] is [g] with the player on [p] and the opponent on [o]. *)
Definition players_placed (g g' : grid) (p o : pos) : Prop :=
  dims g' = dims g /\
  forall q, cell g' q =
    if decide (q = o) then Some "O"%char
    else if decide (q = p) then Some "P"%char else cell g q.

(** The draws that keep [generate_grid_with_characters] drawing a cell for
    the opponent: each of the next [fuel] pairs of draws gives the cell of the
    player. *)
Definition opponent_stuck (fuel : nat) (n m : Z) (r : rng) : Prop :=
  forall i, (i < fuel)%nat ->
    (draws r (cursor r + 2 + 2 * i) mod Z.to_nat (m - 2) =
       draws r (cursor r) mod Z.to_nat (m - 2))%nat /\
    (draws r (cursor r + 3 + 2 * i) mod Z.to_nat (n - 2) =
       draws r (cursor r + 1) mod Z.to_nat (n - 2))%nat.

(** An [n] by [m] room: walls on the border, the player on [p], the opponent
    on [o], every other cell open. *)
Definition room_with_players (n m : Z) (g : grid) (p o : pos) : Prop :=
  dims g = replicate (Z.to_nat n) (Z.to_nat m) /\
  forall q, 0 <= q.1 < m -> 0 <= q.2 < n ->
    cell g q = Some (if decide (q = o) then "O"%char
                     else if decide (q = p) then "P"%char
                     else if decide ((0 < q.1 < m - 1) /\ (0 < q.2 < n - 1)) then OPEN
                     else WALL).

(** An arena: an [n] by [m] grid of glyphs with walls in its first and last
    cell, the player on [p] and nowhere else, the opponent on [o] and nowhere
    else. *)
Definition arena (n m : Z) (g : grid) (p o : pos) : Prop :=
  0 < n /\ 0 < m /\ dims g = replicate (Z.to_nat n) (Z.to_nat m) /\
  (forall q c, cell g q = Some c -> glyph c) /\
  cell g (0, 0) = Some WALL /\ cell g (m - 1, n - 1) = Some WALL /\
  (forall q, cell g q = Some "P"%char <-> q = p) /\
  (forall q, cell g q = Some "O"%char <-> q = o).

(** [k] calls of [smart_play], one after the other. *)
Fixpoint smart_plays (k : nat) (w : world) : result world :=
  match k with
  | O => Ok w
  | S k' => w' ← smart_play w; smart_plays k' w'
  end.

(** ** The embedding at work *)

Example strip_example : Py.strip "  #P O#
 " = "#P O#"%string.
Proof. reflexivity. Qed.

Example split_example : Py.split NEWLINE "##

#" = ["##"; ""; "#"]%string.
Proof. reflexivity. Qed.

Example parse_empty : parse_grid "" = [[]].
Proof. reflexivity. Qed.

Example negative_index : Py.index [1; 2; 3] (-1) = Ok 3 /\ Py.index [1; 2; 3] 3 = Raise IndexError.
Proof. split; reflexivity. Qed.

Example range_example : range 1 6 2 = [1; 3; 5] /\ range 1 5 2 = [1; 3].
Proof. split; reflexivity. Qed.

Example shuffle_example :
  (shuffle [1; 2; 3; 4] (Rng (fun i => i) O)).1 = [3; 4; 2; 1].
Proof. reflexivity. Qed.

Example floor_division : (-2) / 2 = -1.
Proof. reflexivity. Qed.

Example best_of_nothing :
  find_best_move (calculate_distances [] "P" "O") = Raise min_of_nothing.
Proof. reflexivity. Qed.

Example path_distance_examples :
  calculate_path_distance (parse_grid open_room) "P" "O" = Ok 4 /\
  calculate_path_distance (parse_grid two_regions) "P" "O" = Ok (-1) /\
  calculate_path_distance (parse_grid side_by_side) "P" "P" = Ok 0 /\
  calculate_path_distance (parse_grid side_by_side) "P" "X" = Raise not_found.
Proof. repeat split; vm_compute; reflexivity. Qed.

(** ** Python lists: indexing facts *)

Lemma index_nonneg {A} (l : list A) (i : Z) :
  0 <= i ->
  Py.index l i = match l !! Z.to_nat i with Some a => Ok a | None => Raise IndexError end.
Proof.
  intros Hi. unfold Py.index.
  destruct (Z.ltb_spec i 0) as [?|_]; [lia|].
  destruct (Z.leb_spec 0 i) as [_|?]; [|lia]. simpl.
  destruct (Z.ltb_spec i (Z.of_nat (length l))) as [?|Hge]; [done|].
  rewrite lookup_ge_None_2; [done|lia].
Qed.

Lemma index_lookup {A} (l : list A) (i : nat) (a : A) :
  l !! i = Some a -> Py.index l (Z.of_nat i) = Ok a.
Proof.
  intros H. rewrite index_nonneg by lia. by rewrite Nat2Z.id, H.
Qed.

Lemma index_in_range {A} (l : list A) (i : Z) :
  0 <= i < Py.len l -> exists a, Py.index l i = Ok a /\ l !! Z.to_nat i = Some a.
Proof.
  intros [H0 H1]. unfold Py.len in H1.
  destruct (lookup_lt_is_Some_2 l (Z.to_nat i)) as [a Ha]; [lia|].
  exists a. split; [|done]. rewrite index_nonneg by done. by rewrite Ha.
Qed.

Lemma setitem_nonneg {A} (l : list A) (i : Z) (v : A) :
  0 <= i < Py.len l -> Py.setitem l i v = Ok (<[Z.to_nat i := v]> l).
Proof.
  intros [H0 H1]. unfold Py.len in H1. unfold Py.setitem.
  destruct (Z.ltb_spec i 0) as [?|_]; [lia|].
  destruct (Z.leb_spec 0 i) as [_|?]; [|lia].
  destruct (Z.ltb_spec i (Z.of_nat (length l))) as [_|?]; [done|lia].
Qed.

Lemma get_cell_nonneg (g : grid) (x y : Z) (c : ascii) :
  0 <= x -> 0 <= y -> (get_cell g x y = Ok c <-> cell g (x, y) = Some c).
Proof.
  intros Hx Hy. unfold get_cell, cell. simpl.
  rewrite decide_True by done. rewrite (index_nonneg g) by done.
  destruct (g !! Z.to_nat y) as [row|]; simpl; [|split; discriminate].
  rewrite index_nonneg by done.
  destruct (row !! Z.to_nat x); simpl; split; congruence.
Qed.

Lemma head_lookup_0 {A} (l : list A) : head l = l !! O.
Proof. by destruct l. Qed.

(** ** [get_character_coordinates] finds a cell that holds the character *)

Lemma find_index_lookup (c : ascii) (row : list ascii) (x : nat) :
  Py.find_index c row = Some x -> row !! x = Some c.
Proof.
  revert x. induction row as [|c' row IH]; intros x; simpl; [done|].
  destruct (decide (c' = c)) as [->|_].
  - by intros [= <-].
  - destruct (Py.find_index c row) as [x'|]; simpl; [|done].
    intros [= <-]. by apply IH.
Qed.

Lemma scan_rows_cell (y0 : nat) (g : grid) (c : ascii) (x y : Z) :
  scan_rows y0 g c = Some (x, y) ->
  exists row, 0 <= x /\ Z.of_nat y0 <= y /\
    g !! (Z.to_nat y - y0)%nat = Some row /\ row !! Z.to_nat x = Some c.
Proof.
  revert y0. induction g as [|row g IH]; intros y0; simpl; [done|].
  destruct (Py.find_index c row) as [x'|] eqn:Hx.
  - intros [= <- <-]. exists row. rewrite !Nat2Z.id, Nat.sub_diag.
    repeat split; try lia. by apply find_index_lookup.
  - intros H. destruct (IH _ H) as (row' & ? & ? & Hr & ?).
    exists row'. repeat split; try lia; [|done].
    replace (Z.to_nat y - y0)%nat with (S (Z.to_nat y - S y0)) by lia. done.
Qed.

Lemma coordinates_cell (g : grid) (c : ascii) (p : pos) :
  get_character_coordinates g c = Some p -> cell g p = Some c.
Proof.
  destruct p as [x y]. intros H.
  destruct (scan_rows_cell _ _ _ _ _ H) as (row & ? & ? & Hr & Hc).
  unfold cell. simpl. rewrite decide_True by lia.
  rewrite Nat.sub_0_r in Hr. by rewrite Hr.
Qed.

Lemma coordinates_in_bounds (g : grid) (c : ascii) (p : pos) :
  rectangular g -> get_character_coordinates g c = Some p -> in_bounds g p.
Proof.
  intros Hrect H. apply coordinates_cell in H. unfold cell in H.
  destruct (decide _) as [[? ?]|]; [|done].
  destruct (g !! Z.to_nat p.2) as [row|] eqn:Hrow; [|done]. simpl in H.
  pose proof (lookup_lt_Some _ _ _ Hrow). pose proof (lookup_lt_Some _ _ _ H).
  assert (length row = length (default [] (head g))) as Hlen.
  { apply Hrect, list_elem_of_lookup. eauto. }
  unfold in_bounds, Py.len. lia.
Qed.

(** ** Rendering and parsing *)

Section RoundTrip.

Local Open Scope string_scope.
Local Arguments String.append !_ _ / : simpl nomatch.

Lemma append_assoc (a b c : string) : (a ++ b) ++ c = a ++ (b ++ c).
Proof. induction a as [|x a IH]; simpl; [done|]. by rewrite IH. Qed.

Lemma rstrip_snoc (s : string) (c : ascii) :
  Py.isspace c = false -> Py.rstrip (s ++ String c "") = s ++ String c "".
Proof.
  intros Hc. induction s as [|x s IH]; simpl.
  - by rewrite Hc.
  - rewrite IH. by destruct s.
Qed.

Lemma split_line (p : string) : no_newline p -> Py.split NEWLINE p = [p].
Proof.
  unfold no_newline. induction p as [|c p IH]; simpl; [done|].
  intros H. apply Forall_cons in H as [Hc Hp].
  rewrite decide_False by done. by rewrite IH.
Qed.

Lemma split_line_sep (p rest : string) :
  no_newline p ->
  Py.split NEWLINE (p ++ String NEWLINE rest) = p :: Py.split NEWLINE rest.
Proof.
  unfold no_newline. induction p as [|c p IH]; simpl.
  - done.
  - intros H. apply Forall_cons in H as [Hc Hp].
    rewrite decide_False by done. by rewrite IH.
Qed.

Lemma split_join (parts : list string) :
  parts <> [] -> Forall no_newline parts ->
  Py.split NEWLINE (Py.join (String NEWLINE "") parts) = parts.
Proof.
  induction parts as [|p parts IH]; [done|]. intros _ H.
  apply Forall_cons in H as [Hp Hps].
  destruct parts as [|p2 parts].
  - simpl. by apply split_line.
  - change (Py.join (String NEWLINE "") (p :: p2 :: parts))
      with (p ++ String NEWLINE (Py.join (String NEWLINE "") (p2 :: parts))).
    rewrite split_line_sep by done. by rewrite IH.
Qed.

Lemma join_ends (sep : string) (parts : list string) (p : string) (c : ascii) :
  last parts = Some (p ++ String c "") ->
  exists s, Py.join sep parts = s ++ String c "".
Proof.
  induction parts as [|q parts IH]; [done|].
  destruct parts as [|q2 parts].
  - intros [= ->]. by exists p.
  - intros H. destruct (IH H) as [s Hs].
    exists (q ++ sep ++ s).
    change (Py.join sep (q :: q2 :: parts)) with (q ++ sep ++ Py.join sep (q2 :: parts)).
    by rewrite Hs, !append_assoc.
Qed.

Lemma string_of_list_ascii_snoc (r : list ascii) (c : ascii) :
  string_of_list_ascii (r ++ [c]) = string_of_list_ascii r ++ String c "".
Proof. induction r as [|x r IH]; simpl; [done|]. by rewrite IH. Qed.

Lemma glyph_row_no_newline (row : list ascii) :
  Forall glyph row -> no_newline (string_of_list_ascii row).
Proof.
  unfold no_newline. rewrite list_ascii_of_string_of_list_ascii.
  intros H. eapply Forall_impl; [exact H|].
  intros c [-> | [-> | [-> | ->]]]; discriminate.
Qed.

Lemma glyph_not_space (c : ascii) : glyph c -> c <> OPEN -> Py.isspace c = false.
Proof. intros [-> | [-> | [-> | ->]]] H; done. Qed.

Lemma parse_grid_lines (g : grid) (s : string) :
  Py.strip s = s -> s = grid_to_string g -> g <> [] -> Forall (Forall glyph) g ->
  parse_grid s = g.
Proof.
  intros Hstrip -> Hne Hg. unfold parse_grid. rewrite Hstrip.
  unfold grid_to_string. rewrite split_join.
  - rewrite <- list_fmap_compose. rewrite <- (list_fmap_id g) at 2.
    apply list_fmap_ext. intros _ row _. simpl.
    apply list_ascii_of_string_of_list_ascii.
  - by destruct g.
  - apply Forall_fmap. eapply Forall_impl; [exact Hg|].
    intros row Hrow. by apply glyph_row_no_newline.
Qed.

End RoundTrip.

(** C7, as stated, fails: [strip] eats the open cells a rendering starts or
    ends with.  Here the top-left corner is open. *)
Lemma roundtrip_loses_open_corner :
  let g := [[OPEN; WALL]; [WALL; WALL]] in
  rectangular g /\ Forall (Forall glyph) g /\ parse_grid (grid_to_string g) <> g.
Proof.
  simpl. split; [|split].
  - intros row H. repeat (apply elem_of_cons in H as [->|H]); try done.
    by apply elem_of_nil in H.
  - repeat (apply Forall_cons; split); try apply Forall_nil; unfold glyph; auto.
  - vm_compute. discriminate.
Qed.

(** C7 (amended).  For every grid of glyphs whose first row begins and whose
    last row ends with a cell other than the open one (so for every grid with
    walls on its border), parsing the rendering gives the grid back. *)
Theorem parse_grid_grid_to_string (g : grid) (c1 c2 : ascii) :
  Forall (Forall glyph) g ->
  first_cell g = Some c1 -> c1 <> OPEN ->
  last_cell g = Some c2 -> c2 <> OPEN ->
  parse_grid (grid_to_string g) = g.
Proof.
  intros Hg H1 Hc1 H2 Hc2.
  apply parse_grid_lines; [| done | by destruct g | done].
  unfold Py.strip.
  assert (Py.lstrip (grid_to_string g) = grid_to_string g) as ->.
  { destruct g as [|[|c r] rest]; try done. simpl in H1. injection H1 as ->.
    assert (Py.isspace c1 = false) as Hsp.
    { apply glyph_not_space; [|done].
      apply Forall_cons in Hg as [Hrow _]. by apply Forall_cons in Hrow as [? _]. }
    unfold grid_to_string. destruct rest; simpl; by rewrite Hsp. }
  unfold last_cell in H2. destruct (last g) as [row|] eqn:Hlast; [|done].
  simpl in H2. apply last_Some in H2 as [r ->]. apply last_Some in Hlast as [g' ->].
  destruct (join_ends (String NEWLINE EmptyString)
              (string_of_list_ascii <$> (g' ++ [r ++ [c2]]))
              (string_of_list_ascii r) c2) as [s Hs].
  { rewrite fmap_last, last_snoc. simpl. by rewrite string_of_list_ascii_snoc. }
  unfold grid_to_string. rewrite Hs. apply rstrip_snoc.
  apply glyph_not_space; [|done].
  apply Forall_app in Hg as [_ Hg]. apply Forall_cons in Hg as [Hrow _].
  apply Forall_app in Hrow as [_ Hrow]. by apply Forall_cons in Hrow as [? _].
Qed.

Lemma parse_grid_grid_to_string_witness :
  parse_grid (grid_to_string (parse_grid open_room)) = parse_grid open_room.
Proof.
  apply (parse_grid_grid_to_string (parse_grid open_room) WALL WALL).
  - vm_compute.
    repeat (apply Forall_cons; split); try apply Forall_nil; auto.
  - vm_compute. reflexivity.
  - discriminate.
  - vm_compute. reflexivity.
  - discriminate.
Defined.

(** ** Move enumeration: which neighbours are kept *)

Lemma index_first (g : grid) : g <> [] -> Py.index g 0 = Ok (default [] (head g)).
Proof. intros H. destruct g as [|row g]; [done|]. reflexivity. Qed.

Lemma coordinates_nonempty (g : grid) (c : ascii) (p : pos) :
  get_character_coordinates g c = Some p -> g <> [].
Proof. by destruct g. Qed.

Lemma is_valid_move_unfold (g : grid) (p : pos) :
  g <> [] ->
  is_valid_move g p =
    if bool_decide (in_bounds g p)
    then c ← get_cell g p.1 p.2; Ok (bool_decide (c = OPEN))
    else Ok false.
Proof.
  intros Hg. destruct p as [x y]. unfold is_valid_move, in_bounds. simpl.
  rewrite (index_first g Hg). simpl.
  destruct (Z.leb_spec 0 y), (Z.ltb_spec y (Py.len g)); simpl;
    try (rewrite bool_decide_eq_false_2 by lia; done).
  destruct (Z.leb_spec 0 x), (Z.ltb_spec x (Py.len (default [] (head g)))); simpl;
    try (rewrite bool_decide_eq_false_2 by lia; done).
  by rewrite bool_decide_eq_true_2 by lia.
Qed.

Lemma get_cell_in_bounds (g : grid) (p : pos) :
  rectangular g -> in_bounds g p ->
  exists c, get_cell g p.1 p.2 = Ok c /\ cell g p = Some c.
Proof.
  intros Hrect [Hy Hx].
  destruct (index_in_range g p.2 Hy) as (row & Hrow & Hlook).
  assert (length row = length (default [] (head g))) as Hlen.
  { apply Hrect, list_elem_of_lookup. eauto. }
  destruct (index_in_range row p.1) as (c & Hc & Hlc).
  { unfold Py.len in *. lia. }
  exists c. split.
  - unfold get_cell. rewrite Hrow. simpl. done.
  - unfold cell. rewrite decide_True by lia. rewrite Hlook. simpl. done.
Qed.

Lemma filter_r_none {A} (f : A -> result bool) (l : list A) :
  (forall a, a ∈ l -> f a = Ok false) -> filter_r f l = Ok [].
Proof.
  induction l as [|a l IH]; intros H; simpl; [done|].
  rewrite (H a) by apply list_elem_of_here. simpl.
  rewrite IH; [done|]. intros b Hb. apply H. by apply list_elem_of_further.
Qed.

Lemma filter_r_total {A} (f : A -> result bool) (l : list A) :
  (forall a, a ∈ l -> exists b, f a = Ok b) ->
  exists l', filter_r f l = Ok l' /\ forall a, a ∈ l' <-> a ∈ l /\ f a = Ok true.
Proof.
  induction l as [|a l IH]; intros H; simpl.
  - exists []. split; [done|]. intros a. split; [inversion 1|]. intros [Ha _]. inversion Ha.
  - destruct (H a) as [b Hb]; [apply list_elem_of_here|].
    destruct IH as (l' & Hl' & Hin).
    { intros a' Ha'. apply H. by apply list_elem_of_further. }
    rewrite Hb, Hl'. simpl. destruct b.
    + exists (a :: l'). split; [done|]. intros a'. rewrite !elem_of_cons, Hin.
      split; [intros [->|[? ?]]; auto|]. intros [[->|?] ?]; auto.
    + exists l'. split; [done|]. intros a'. rewrite elem_of_cons, Hin.
      split; [intros [? ?]; auto|]. intros [[->|?] ?]; [congruence|auto].
Qed.

Lemma is_valid_move_open (g : grid) (p : pos) :
  g <> [] -> is_valid_move g p = Ok true ->
  in_bounds g p /\ get_cell g p.1 p.2 = Ok OPEN.
Proof.
  intros Hg. rewrite is_valid_move_unfold by done.
  destruct (bool_decide_reflect (in_bounds g p)) as [Hb|_]; [|done].
  destruct (get_cell g p.1 p.2) as [c| |]; simpl; try done.
  destruct (bool_decide_reflect (c = OPEN)) as [->|_]; done.
Qed.

Lemma is_valid_move_total (g : grid) (p : pos) :
  rectangular g -> g <> [] -> exists b, is_valid_move g p = Ok b.
Proof.
  intros Hrect Hg. rewrite is_valid_move_unfold by done.
  destruct (bool_decide_reflect (in_bounds g p)) as [Hb|_]; [|by eexists].
  destruct (get_cell_in_bounds g p Hrect Hb) as (c & -> & _). simpl. by eexists.
Qed.

Lemma walled_in_no_move (g : grid) (c : ascii) (x y : Z) :
  get_character_coordinates g c = Some (x, y) ->
  (forall p, p ∈ possible_moves x y ->
     ~ in_bounds g p \/ get_cell g p.1 p.2 = Ok WALL) ->
  generate_possible_moves g c = Ok [].
Proof.
  intros Hc Hwall. unfold generate_possible_moves, valid_moves. rewrite Hc.
  rewrite filter_r_none; [done|]. intros p Hp.
  rewrite is_valid_move_unfold by (by eapply coordinates_nonempty).
  destruct (bool_decide_reflect (in_bounds g p)) as [Hb|_]; [|done].
  destruct (Hwall p Hp) as [?| ->]; done.
Qed.

(** C5.  When each of the mover's four neighbour cells is a wall or out of
    bounds, [make_move] and [make_smart_move] raise ([ValueError], from [min]
    of an empty iteration) and return no grid. *)
Theorem walled_in_mover_raises (s : string) (char1 char2 : ascii) (x y : Z) :
  get_character_coordinates (parse_grid s) char1 = Some (x, y) ->
  (forall p, p ∈ possible_moves x y ->
     ~ in_bounds (parse_grid s) p \/ get_cell (parse_grid s) p.1 p.2 = Ok WALL) ->
  make_move s char1 char2 = Raise min_of_nothing /\
  make_smart_move s char1 char2 = Raise min_of_nothing.
Proof.
  intros Hc Hwall. unfold make_move, make_smart_move.
  rewrite (walled_in_no_move _ _ _ _ Hc Hwall). split; reflexivity.
Qed.

Lemma walled_in_mover_raises_witness :
  make_move walled_in_room "P" "O" = Raise min_of_nothing /\
  make_smart_move walled_in_room "P" "O" = Raise min_of_nothing.
Proof.
  apply (walled_in_mover_raises walled_in_room "P" "O" 1 1).
  - vm_compute. reflexivity.
  - intros p Hp. unfold possible_moves in Hp.
    repeat (apply elem_of_cons in Hp as [->|Hp]);
      [right|right|right|right|by apply elem_of_nil in Hp]; vm_compute; reflexivity.
Defined.

(** ** The open room: P at (1,1), O at (3,3) *)

(** C6, as stated, fails: positions are (x, y) pairs with x the column, and
    the step does not take P to (2,1), the cell on the right. *)
Lemma open_room_tie_not_right :
  ~ exists s', make_move open_room "P" "O" = Ok s' /\
               get_character_coordinates (parse_grid s') "P" = Some (2, 1).
Proof.
  intros (s' & Hs & Hp). vm_compute in Hs. injection Hs as <-.
  vm_compute in Hp. discriminate.
Qed.

(** C6 (amended).  In the open room the legal candidates are (1,2), below P,
    and (2,1), on its right, in this order; both are at Manhattan distance 3
    from O, and [make_move] takes the first, (1,2). *)
Theorem open_room_tie_goes_down :
  valid_moves (parse_grid open_room) 1 1 = Ok [(1, 2); (2, 1)] /\
  (generate_possible_moves (parse_grid open_room) "P" ≫=
     map_r (fun g => calculate_distance g "P" "O")) = Ok [3; 3] /\
  exists s', make_move open_room "P" "O" = Ok s' /\
             get_character_coordinates (parse_grid s') "P" = Some (1, 2) /\
             get_character_coordinates (parse_grid s') "O" = Some (3, 3).
Proof.
  split; [|split].
  - vm_compute. reflexivity.
  - vm_compute. reflexivity.
  - eexists. split; [vm_compute; reflexivity|]. split; vm_compute; reflexivity.
Qed.

(** ** Agents block moves *)

(** C8, as stated, fails: with O on the right of P, O's cell is not among
    the candidates of P; the only one is the open cell below. *)
Lemma target_cell_is_no_candidate :
  let g := parse_grid side_by_side in
  get_character_coordinates g "P" = Some (1, 1) /\
  get_character_coordinates g "O" = Some (2, 1) /\
  adjacent (1, 1) (2, 1) /\
  valid_moves g 1 1 = Ok [(1, 2)] /\
  (2, 1) ∉ [(1, 2)].
Proof.
  simpl. repeat split; try (vm_compute; reflexivity).
  intros H. apply elem_of_cons in H as [H|H]; [discriminate|]. by apply elem_of_nil in H.
Qed.

(** C8 (amended).  Move enumeration never takes an occupied cell for open,
    pursuit target or not: every candidate cell holds [' '] in the input grid,
    so the cell of a target (a tag other than [' ']) is not a candidate. *)
Theorem agent_cell_is_no_candidate (g : grid) (mover target : ascii) (x y : Z) (t : pos) :
  rectangular g ->
  get_character_coordinates g mover = Some (x, y) ->
  get_character_coordinates g target = Some t ->
  target <> OPEN ->
  exists moves, valid_moves g x y = Ok moves /\
    (forall p, p ∈ moves -> cell g p = Some OPEN) /\ t ∉ moves.
Proof.
  intros Hrect Hm Ht Hne.
  pose proof (coordinates_nonempty _ _ _ Hm) as Hg.
  destruct (filter_r_total (is_valid_move g) (possible_moves x y)) as (moves & Hmoves & Hin).
  { intros p _. by apply is_valid_move_total. }
  assert (forall p, p ∈ moves -> cell g p = Some OPEN) as Hopen.
  { intros p Hp. apply Hin in Hp as [_ Hp].
    apply is_valid_move_open in Hp as [Hb Hp]; [|done].
    destruct p as [px py]. destruct Hb as [? ?]. simpl in *.
    by apply get_cell_nonneg; [lia|lia|]. }
  exists moves. split; [done|]. split; [done|].
  intros Hin'. apply Hopen in Hin'. apply coordinates_cell in Ht. congruence.
Qed.

Lemma agent_cell_is_no_candidate_witness :
  exists moves, valid_moves (parse_grid side_by_side) 1 1 = Ok moves /\
    (forall p, p ∈ moves -> cell (parse_grid side_by_side) p = Some OPEN) /\
    (2, 1) ∉ moves.
Proof.
  apply (agent_cell_is_no_candidate (parse_grid side_by_side) "P" "O" 1 1 (2, 1)).
  - intros row H. vm_compute in H.
    repeat (apply elem_of_cons in H as [->|H]); try reflexivity.
    by apply elem_of_nil in H.
  - vm_compute. reflexivity.
  - vm_compute. reflexivity.
  - discriminate.
Defined.

(** ** Writing a cell *)

Lemma setitem_inv {A} (l l' : list A) (i : Z) (v : A) :
  0 <= i -> Py.setitem l i v = Ok l' ->
  (Z.to_nat i < length l)%nat /\ l' = <[Z.to_nat i := v]> l.
Proof.
  intros Hi. unfold Py.setitem.
  destruct (Z.ltb_spec i 0) as [?|_]; [lia|].
  destruct (Z.leb_spec 0 i) as [_|?]; [|lia].
  destruct (Z.ltb_spec i (Z.of_nat (length l))) as [Hlt|_]; simpl; [|done].
  intros [= <-]. split; [lia|done].
Qed.

Lemma set_cell_inv (g g' : grid) (x y : Z) (c : ascii) :
  0 <= x -> 0 <= y -> set_cell g x y c = Ok g' ->
  exists row, g !! Z.to_nat y = Some row /\ (Z.to_nat x < length row)%nat /\
    g' = <[Z.to_nat y := <[Z.to_nat x := c]> row]> g.
Proof.
  intros Hx Hy. unfold set_cell. rewrite index_nonneg by done.
  destruct (g !! Z.to_nat y) as [row|]; simpl; [|done].
  destruct (Py.setitem row x c) as [row'| |] eqn:Hset; simpl; try done.
  apply setitem_inv in Hset as [Hlt ->]; [|done].
  intros Hg. apply setitem_inv in Hg as [_ ->]; [|done].
  exists row. done.
Qed.

Lemma set_cell_written (g g' : grid) (x y : Z) (c : ascii) :
  0 <= x -> 0 <= y -> set_cell g x y c = Ok g' -> written g g' (x, y) c.
Proof.
  intros Hx Hy H. destruct (set_cell_inv _ _ _ _ _ Hx Hy H) as (row & Hrow & Hlt & ->).
  pose proof (lookup_lt_Some _ _ _ Hrow) as Hylt. split.
  - unfold dims. rewrite list_fmap_insert, length_insert.
    apply list_insert_id. by rewrite list_lookup_fmap, Hrow.
  - intros [qx qy]. unfold cell. simpl.
    destruct (decide (0 <= qx /\ 0 <= qy)) as [[? ?]|Hneg].
    + destruct (decide (Z.to_nat qy = Z.to_nat y)) as [Heqy|Hney].
      * rewrite Heqy, list_lookup_insert_eq by done. rewrite Hrow. simpl.
        destruct (decide (Z.to_nat qx = Z.to_nat x)) as [Heqx|Hnex].
        -- rewrite Heqx, list_lookup_insert_eq by done.
           rewrite decide_True; [done|]. f_equal; lia.
        -- rewrite list_lookup_insert_ne by done.
           rewrite decide_False; [done|]. intros [= ? ?]. lia.
      * rewrite list_lookup_insert_ne by done.
        rewrite decide_False; [done|]. intros [= ? ?]. lia.
    + rewrite decide_False; [done|]. intros [= -> ->]. lia.
Qed.

Lemma set_cell_total (g : grid) (x y : Z) (c0 c : ascii) :
  cell g (x, y) = Some c0 -> exists g', set_cell g x y c = Ok g'.
Proof.
  unfold cell. simpl. destruct (decide _) as [[Hx Hy]|]; [|done].
  destruct (g !! Z.to_nat y) as [row|] eqn:Hrow; [|done]. simpl. intros Hc.
  pose proof (lookup_lt_Some _ _ _ Hrow). pose proof (lookup_lt_Some _ _ _ Hc).
  unfold set_cell. rewrite index_nonneg by done. rewrite Hrow. simpl.
  rewrite setitem_nonneg by (unfold Py.len; lia). simpl.
  rewrite setitem_nonneg by (unfold Py.len; lia). by eexists.
Qed.

Lemma written_cell_some (g g' : grid) (p q : pos) (c : ascii) :
  written g g' p c -> is_Some (cell g q) -> is_Some (cell g' q).
Proof.
  intros [_ H] Hq. rewrite H. by destruct (decide (q = p)).
Qed.

(** ** The candidate grids *)

Lemma map_r_total {A B} (f : A -> result B) (l : list A) :
  (forall a, a ∈ l -> exists b, f a = Ok b) ->
  exists l', map_r f l = Ok l' /\ Forall2 (fun a b => f a = Ok b) l l'.
Proof.
  induction l as [|a l IH]; intros H; simpl.
  - exists []. by split.
  - destruct (H a) as [b Hb]; [apply list_elem_of_here|].
    destruct IH as (l' & Hl' & Hall).
    { intros a' Ha'. apply H. by apply list_elem_of_further. }
    rewrite Hb, Hl'. simpl. exists (b :: l'). split; [done|]. by constructor.
Qed.

Lemma map_r_Forall2 {A B} (f : A -> result B) (l : list A) (l' : list B) :
  map_r f l = Ok l' -> Forall2 (fun a b => f a = Ok b) l l'.
Proof.
  revert l'. induction l as [|a l IH]; intros l'; simpl.
  - intros [= <-]. constructor.
  - destruct (f a) as [b| |] eqn:Hb; simpl; try done.
    destruct (map_r f l) as [bs| |]; simpl; try done.
    intros [= <-]. constructor; [done|]. by apply IH.
Qed.

Lemma possible_moves_adjacent (x y : Z) (p : pos) :
  p ∈ possible_moves x y -> adjacent (x, y) p /\ p <> (x, y).
Proof.
  unfold possible_moves, adjacent. intros H.
  repeat (apply elem_of_cons in H as [->|H]); simpl;
    try (split; [lia|intros Heq; inversion Heq; lia]).
  by apply elem_of_nil in H.
Qed.

Lemma moved_grid_moved (g g' : grid) (char : ascii) (x y : Z) (p : pos) :
  0 <= x -> 0 <= y -> 0 <= p.1 -> 0 <= p.2 ->
  moved_grid g char x y p = Ok g' -> moved g g' char (x, y) p.
Proof.
  intros Hx Hy Hp1 Hp2. unfold moved_grid.
  destruct (set_cell g x y OPEN) as [g1| |] eqn:H1; simpl; try done.
  intros H2. destruct p as [px py]. simpl in *.
  apply set_cell_written in H1 as [Hd1 Hc1]; [|done..].
  apply set_cell_written in H2 as [Hd2 Hc2]; [|done..].
  split; [congruence|]. intros q. rewrite Hc2, Hc1. done.
Qed.

Lemma moved_grid_total (g : grid) (char c0 : ascii) (x y : Z) (p : pos) :
  cell g (x, y) = Some c0 -> is_Some (cell g p) -> 0 <= x -> 0 <= y ->
  exists g', moved_grid g char x y p = Ok g'.
Proof.
  intros Hxy Hp Hx Hy. unfold moved_grid.
  destruct (set_cell_total g x y c0 OPEN Hxy) as [g1 H1]. rewrite H1. simpl.
  apply set_cell_written in H1; [|done..].
  destruct (written_cell_some _ _ _ p _ H1 Hp) as [c1 Hc1].
  destruct p as [px py]. by apply (set_cell_total g1 px py c1 char).
Qed.

(** ** [generate_possible_moves] on the store *)

Section StoreFrame.

Implicit Types (h : list (list ascii)) (g : list nat).

Lemma fetch_app_l h extra (a : nat) :
  (a < length h)%nat -> Store.fetch (h ++ extra) a = Store.fetch h a.
Proof. intros H. unfold Store.fetch. by rewrite lookup_app_l. Qed.

Lemma view_app_l h extra g :
  Forall (fun a => a < length h)%nat g -> Store.view (h ++ extra) g = Store.view h g.
Proof.
  intros H. unfold Store.view. apply Forall_fmap_ext_1.
  eapply Forall_impl; [exact H|]. intros a Ha. by apply fetch_app_l.
Qed.

Lemma view_fresh h (rows : list (list ascii)) :
  Store.view (h ++ rows) (seq (length h) (length rows)) = rows.
Proof.
  apply list_eq. intros i. unfold Store.view. rewrite list_lookup_fmap.
  destruct (decide (i < length rows)%nat) as [Hlt|Hge].
  - rewrite lookup_seq_lt by done. simpl. unfold Store.fetch.
    rewrite lookup_app_r by lia. replace (length h + i - length h)%nat with i by lia.
    destruct (lookup_lt_is_Some_2 rows i Hlt) as [row Hrow]. by rewrite Hrow.
  - rewrite lookup_seq_ge by lia. simpl. symmetry. apply lookup_ge_None. lia.
Qed.

Lemma copy_rows_spec h g :
  Forall (fun a => a < length h)%nat g ->
  Store.copy_rows h g = (seq (length h) (length g), h ++ Store.view h g).
Proof.
  revert h. induction g as [|a g IH]; intros h Hv; simpl.
  - by rewrite app_nil_r.
  - apply Forall_cons in Hv as [Ha Hg].
    rewrite IH.
    + rewrite length_app. simpl. rewrite Nat.add_1_r.
      rewrite view_app_l by done. by rewrite <- app_assoc.
    + eapply Forall_impl; [exact Hg|]. intros a' Ha'. simpl in Ha'. rewrite length_app. simpl. lia.
Qed.

Lemma set_cell_length (rows rows' : list (list ascii)) (x y : Z) (c : ascii) :
  0 <= x -> 0 <= y -> set_cell rows x y c = Ok rows' -> length rows' = length rows.
Proof.
  intros Hx Hy H. destruct (set_cell_inv _ _ _ _ _ Hx Hy H) as (row & _ & _ & ->).
  apply length_insert.
Qed.

Lemma store_set_cell_fresh h (rows : list (list ascii)) (x y : Z) (c : ascii) :
  0 <= y ->
  Store.set_cell (h ++ rows) (seq (length h) (length rows)) x y c =
  (rows' ← set_cell rows x y c; Ok (h ++ rows')).
Proof.
  intros Hy. unfold Store.set_cell, set_cell. rewrite !index_nonneg by done.
  destruct (decide (Z.to_nat y < length rows)%nat) as [Hlt|Hge].
  - rewrite lookup_seq_lt by done.
    destruct (lookup_lt_is_Some_2 rows _ Hlt) as [row Hrow]. rewrite Hrow. simpl.
    assert (Store.fetch (h ++ rows) (length h + Z.to_nat y) = row) as ->.
    { unfold Store.fetch. rewrite lookup_app_r by lia.
      replace (length h + Z.to_nat y - length h)%nat with (Z.to_nat y) by lia.
      by rewrite Hrow. }
    destruct (Py.setitem row x c) as [row'| |]; simpl; try done.
    rewrite setitem_nonneg by (unfold Py.len; lia). simpl.
    by rewrite insert_app_r.
  - rewrite lookup_seq_ge by lia. rewrite lookup_ge_None_2 by lia. done.
Qed.

Lemma store_moved_grid h g (char : ascii) (x y : Z) (p : Z * Z) :
  Forall (fun a => a < length h)%nat g ->
  0 <= x -> 0 <= y -> 0 <= p.1 -> 0 <= p.2 ->
  Store.moved_grid h g char x y p =
  (g' ← moved_grid (Store.view h g) char x y p; Ok (seq (length h) (length g), h ++ g')).
Proof.
  intros Hv Hx Hy Hp1 Hp2. unfold Store.moved_grid, moved_grid.
  rewrite copy_rows_spec by done.
  assert (length g = length (Store.view h g)) as Hlen.
  { unfold Store.view. by rewrite length_fmap. }
  rewrite Hlen at 1. rewrite store_set_cell_fresh by done.
  destruct (set_cell (Store.view h g) x y OPEN) as [g1| |] eqn:H1; simpl; try done.
  rewrite Hlen, <- (set_cell_length _ _ _ _ _ Hx Hy H1).
  rewrite store_set_cell_fresh by done.
  destruct (set_cell g1 p.1 p.2 char) as [g2| |] eqn:H2; simpl; done.
Qed.

Lemma moved_grid_length (v v' : list (list ascii)) (char : ascii) (x y : Z) (p : Z * Z) :
  0 <= x -> 0 <= y -> 0 <= p.1 -> 0 <= p.2 ->
  moved_grid v char x y p = Ok v' -> length v' = length v.
Proof.
  intros Hx Hy Hp1 Hp2 H. apply moved_grid_moved in H as [Hd _]; [|done..].
  unfold dims in Hd. apply (f_equal length) in Hd. by rewrite !length_fmap in Hd.
Qed.

Lemma store_each_move h g (char : ascii) (x y : Z) (moves : list (Z * Z))
    (l : list (list (list ascii))) :
  Forall (fun a => a < length h)%nat g ->
  0 <= x -> 0 <= y -> Forall (fun p => 0 <= p.1 /\ 0 <= p.2) moves ->
  map_r (moved_grid (Store.view h g) char x y) moves = Ok l ->
  exists new_grids extra,
    Store.each_move h g char x y moves = Ok (new_grids, h ++ extra) /\
    Store.view (h ++ extra) <$> new_grids = l.
Proof.
  intros Hv Hx Hy. revert h l Hv.
  induction moves as [|p moves IH]; intros h l Hv Hpos; simpl.
  - intros [= <-]. exists [], []. by rewrite app_nil_r.
  - apply Forall_cons in Hpos as [[Hp1 Hp2] Hpos].
    rewrite store_moved_grid by done.
    destruct (moved_grid (Store.view h g) char x y p) as [g1| |] eqn:H1; simpl; try done.
    destruct (map_r (moved_grid (Store.view h g) char x y) moves) as [l'| |] eqn:Hl';
      simpl; try done.
    intros [= <-].
    destruct (IH (h ++ g1) l') as (gs & extra & Hrun & Hview).
    + eapply Forall_impl; [exact Hv|]. intros a Ha. simpl in Ha. rewrite length_app. lia.
    + done.
    + by rewrite view_app_l.
    + assert (length g1 = length g) as Hlen.
      { rewrite (moved_grid_length _ _ _ _ _ _ Hx Hy Hp1 Hp2 H1).
        unfold Store.view. by rewrite length_fmap. }
      rewrite Hrun. simpl. exists (seq (length h) (length g) :: gs), (g1 ++ extra).
      rewrite app_assoc. split; [done|]. simpl. f_equal; [|done].
      rewrite view_app_l.
      * rewrite <- Hlen. apply view_fresh.
      * apply Forall_forall. intros a Ha. apply elem_of_seq in Ha.
        rewrite length_app. lia.
Qed.

End StoreFrame.

Lemma candidates_spec (g : grid) (char : ascii) (x y : Z) :
  rectangular g -> get_character_coordinates g char = Some (x, y) ->
  exists moves l,
    valid_moves g x y = Ok moves /\
    map_r (moved_grid g char x y) moves = Ok l /\
    (forall p, p ∈ moves ->
       p ∈ possible_moves x y /\ in_bounds g p /\ cell g p = Some OPEN) /\
    Forall2 (fun p g' => moved_grid g char x y p = Ok g') moves l.
Proof.
  intros Hrect Hc. pose proof (coordinates_nonempty _ _ _ Hc) as Hg.
  pose proof (coordinates_cell _ _ _ Hc) as Hcell.
  pose proof (coordinates_in_bounds _ _ _ Hrect Hc) as [[Hy _] [Hx _]]. simpl in Hx, Hy.
  destruct (filter_r_total (is_valid_move g) (possible_moves x y)) as (moves & Hmoves & Hin).
  { intros p _. by apply is_valid_move_total. }
  assert (forall p, p ∈ moves ->
            p ∈ possible_moves x y /\ in_bounds g p /\ cell g p = Some OPEN) as Hspec.
  { intros p Hp. apply Hin in Hp as [Hp Hv]. split; [done|].
    apply is_valid_move_open in Hv as [Hb Hv]; [|done]. split; [done|].
    destruct p as [px py]. destruct Hb as [? ?]. simpl in *.
    by apply get_cell_nonneg; [lia|lia|]. }
  destruct (map_r_total (moved_grid g char x y) moves) as (l & Hl & Hall).
  { intros p Hp. destruct (Hspec p Hp) as (_ & _ & Ho).
    apply (moved_grid_total g char char x y p); [done| |done|done]. by rewrite Ho. }
  exists moves, l. done.
Qed.

(** C9.  On a store of row objects, for a rectangular grid that holds [char]
    at (x, y): [generate_possible_moves] returns; no row object that existed
    before the call is changed, so the input grid reads as before; and every
    returned grid has the input's dimensions and differs from it only in that
    (x, y) is open and one adjacent cell, open in the input, holds [char]. *)
Theorem generate_possible_moves_frame (h : list (list ascii)) (g : list nat)
    (char : ascii) (x y : Z) :
  Forall (fun a => a < length h)%nat g ->
  rectangular (Store.view h g) ->
  get_character_coordinates (Store.view h g) char = Some (x, y) ->
  exists new_grids h',
    Store.generate_possible_moves h g char = Ok (new_grids, h') /\
    (forall a, (a < length h)%nat -> h' !! a = h !! a) /\
    Store.view h' g = Store.view h g /\
    generate_possible_moves (Store.view h g) char = Ok (Store.view h' <$> new_grids) /\
    forall g', g' ∈ new_grids ->
      exists p, adjacent (x, y) p /\ cell (Store.view h g) p = Some OPEN /\
                moved (Store.view h g) (Store.view h' g') char (x, y) p.
Proof.
  intros Hv Hrect Hc.
  destruct (candidates_spec _ _ _ _ Hrect Hc) as (moves & l & Hmoves & Hl & Hspec & Hall).
  pose proof (coordinates_in_bounds _ _ _ Hrect Hc) as [[Hy _] [Hx _]]. simpl in Hx, Hy.
  destruct (store_each_move h g char x y moves l) as (gs & extra & Hrun & Hview); try done.
  { apply Forall_forall. intros p Hp. destruct (Hspec p Hp) as (_ & [? ?] & _). lia. }
  exists gs, (h ++ extra). split; [|split; [|split; [|split]]].
  - unfold Store.generate_possible_moves. rewrite Hc, Hmoves. done.
  - intros a Ha. by apply lookup_app_l.
  - by apply view_app_l.
  - unfold generate_possible_moves. rewrite Hc, Hmoves. simpl. by rewrite Hview.
  - intros g' Hg'.
    assert (Store.view (h ++ extra) g' ∈ l) as Hin.
    { rewrite <- Hview. by apply list_elem_of_fmap_2. }
    apply list_elem_of_lookup in Hin as [i Hi].
    destruct (Forall2_lookup_r _ _ _ _ _ Hall Hi) as (p & Hp & Hmoved).
    assert (p ∈ moves) as Hpin by (apply list_elem_of_lookup; eauto).
    destruct (Hspec p Hpin) as (Hposs & [? ?] & Hopen).
    exists p. split; [by apply possible_moves_adjacent|]. split; [done|].
    apply moved_grid_moved; done || lia.
Qed.

Lemma generate_possible_moves_frame_witness :
  let h := parse_grid side_by_side in
  exists new_grids h',
    Store.generate_possible_moves h [0; 1; 2; 3]%nat "P" = Ok (new_grids, h') /\
    (forall a, (a < length h)%nat -> h' !! a = h !! a) /\
    Store.view h' [0; 1; 2; 3]%nat = Store.view h [0; 1; 2; 3]%nat /\
    generate_possible_moves (Store.view h [0; 1; 2; 3]%nat) "P"
      = Ok (Store.view h' <$> new_grids) /\
    forall g', g' ∈ new_grids ->
      exists p, adjacent (1, 1) p /\
                cell (Store.view h [0; 1; 2; 3]%nat) p = Some OPEN /\
                moved (Store.view h [0; 1; 2; 3]%nat) (Store.view h' g') "P" (1, 1) p.
Proof.
  apply (generate_possible_moves_frame (parse_grid side_by_side) [0; 1; 2; 3]%nat "P" 1 1).
  - vm_compute. repeat constructor.
  - intros row H. vm_compute in H.
    repeat (apply elem_of_cons in H as [->|H]); try reflexivity.
    by apply elem_of_nil in H.
  - vm_compute. reflexivity.
Defined.

(** ** The breadth-first search *)

Section PathDistance.

Variable g : list (list ascii).
Variables target start : Z * Z.
Hypothesis Hrect : rectangular g.
Hypothesis Hg : g <> [].

Implicit Types (p n u v w : Z * Z) (q : list (Z * Z * Z)) (V : gset (Z * Z)) (D : Z * Z -> Z).

Lemma cells_in_bounds p : p ∈ cells g <-> in_bounds g p.
Proof.
  unfold cells, in_bounds. rewrite list_elem_of_cprod, !elem_of_seqZ. lia.
Qed.

Lemma length_cells : length (cells g) = (length g * length (default [] (head g)))%nat.
Proof.
  unfold cells. rewrite list_cprod_list_prod, length_prod, !length_seqZ.
  unfold Py.len. lia.
Qed.

Lemma unvisited_mono (l : list (Z * Z)) V n :
  (length (filter (fun p => p ∉ {[ n ]} ∪ V) l) <= length (filter (fun p => p ∉ V) l))%nat.
Proof.
  induction l as [|a l IH]; [done|].
  destruct (decide (a ∉ {[ n ]} ∪ V)) as [Ha|Ha].
  - rewrite filter_cons_True by done. rewrite filter_cons_True by set_solver. simpl. lia.
  - rewrite filter_cons_False by done.
    destruct (decide (a ∉ V)).
    + rewrite filter_cons_True by done. simpl. lia.
    + rewrite filter_cons_False by done. done.
Qed.

Lemma unvisited_insert V n :
  in_bounds g n -> n ∉ V -> (unvisited g ({[ n ]} ∪ V) < unvisited g V)%nat.
Proof.
  intros Hin Hn. apply cells_in_bounds in Hin. unfold unvisited.
  induction (cells g) as [|a l IH]; [by apply elem_of_nil in Hin|].
  apply elem_of_cons in Hin as [<-|Hin].
  - rewrite filter_cons_False by set_solver. rewrite filter_cons_True by done.
    simpl. pose proof (unvisited_mono l V n). lia.
  - specialize (IH Hin).
    destruct (decide (a ∉ {[ n ]} ∪ V)) as [Ha|Ha].
    + rewrite filter_cons_True by done. rewrite filter_cons_True by set_solver. simpl. lia.
    + rewrite filter_cons_False by done.
      destruct (decide (a ∉ V)).
      * rewrite filter_cons_True by done. simpl. lia.
      * rewrite filter_cons_False by done. done.
Qed.

(** One turn of the [for] loop. *)
Lemma explore_cons (x y d dx dy : Z) (dirs : list (Z * Z)) q V :
  explore g target x y d ((dx, dy) :: dirs) q V =
  let n := (x + dx, y + dy) in
  if bool_decide (in_bounds g n /\ (n ∉ V) /\ (cell g n = Some OPEN \/ n = target))
  then explore g target x y d dirs (q ++ [(n, d + 1)]) ({[ n ]} ∪ V)
  else explore g target x y d dirs q V.
Proof.
  simpl. rewrite (index_first g Hg). simpl.
  destruct (decide (in_bounds g (x + dx, y + dy))) as [Hin|Hout].
  - pose proof Hin as [[? ?] [? ?]]. simpl in *.
    destruct (Z.leb_spec 0 (y + dy)); [|lia].
    destruct (Z.ltb_spec (y + dy) (Py.len g)); [|lia].
    destruct (Z.leb_spec 0 (x + dx)); [|lia].
    destruct (Z.ltb_spec (x + dx) (Py.len (default [] (head g)))); [|lia]. simpl.
    destruct (bool_decide_reflect ((x + dx, y + dy) ∈ V)) as [Hv|Hv]; simpl.
    + rewrite bool_decide_eq_false_2; [done|]. intros (_ & ? & _). done.
    + destruct (get_cell_in_bounds g _ Hrect Hin) as (c & Hc & Hcell).
      simpl in Hc. rewrite Hc. simpl. rewrite Hcell.
      destruct (bool_decide_reflect (c = OPEN)) as [->|Hc'];
        [|destruct (bool_decide_reflect ((x + dx, y + dy) = target)) as [Ht|Ht]]; simpl.
      * rewrite bool_decide_eq_true_2; [done|]. auto.
      * rewrite bool_decide_eq_true_2; [done|]. auto.
      * rewrite bool_decide_eq_false_2; [done|].
        intros (_ & _ & [[= ?]|?]); done.
  - rewrite (bool_decide_eq_false_2 (_ /\ _)) by (intros [? _]; done).
    unfold in_bounds in Hout. simpl in Hout.
    destruct (Z.leb_spec 0 (y + dy)), (Z.ltb_spec (y + dy) (Py.len g)); simpl; try done.
    destruct (Z.leb_spec 0 (x + dx)),
      (Z.ltb_spec (x + dx) (Py.len (default [] (head g)))); simpl; try done.
    lia.
Qed.

Lemma neighbour_neq p dir : dir ∈ directions -> neighbour p dir <> p.
Proof.
  unfold directions, neighbour. intros H Heq. destruct p as [x y].
  repeat (apply elem_of_cons in H as [->|H]); simpl in Heq;
    try (inversion Heq; lia).
  by apply elem_of_nil in H.
Qed.

Lemma walk_nonneg s w k : walk g target s w k -> 0 <= k.
Proof. induction 1; lia. Qed.

Lemma exploring_skip (x y d : Z) (seen : list (Z * Z)) (dir : Z * Z) q V D :
  dir ∈ directions ->
  ~ (in_bounds g (neighbour (x, y) dir) /\ (neighbour (x, y) dir ∉ V) /\
     (cell g (neighbour (x, y) dir) = Some OPEN \/ neighbour (x, y) dir = target)) ->
  exploring g target start (x, y) d seen q V D ->
  exploring g target start (x, y) d (seen ++ [dir]) q V D.
Proof.
  intros Hdir Hno [Hs Hq Hso Hnd Hcur Hseen Hcl Hsnd]. constructor; try done.
  intros dir' Hin Hpass. apply elem_of_app in Hin as [Hin|Hin]; [by apply Hseen|].
  apply list_elem_of_singleton in Hin as ->. destruct Hpass as [Hb Ho].
  set (n := neighbour (x, y) dir) in *.
  assert (n ∈ V) as HnV.
  { destruct (decide (n ∈ V)); [done|]. exfalso. apply Hno. done. }
  split; [done|].
  destruct (decide (n ∈ q.*1)) as [Hnq|Hnq].
  - apply list_elem_of_fmap in Hnq as ([n' d'] & Heq & Hin). simpl in Heq. subst n'.
    destruct (Hq _ _ Hin) as (_ & -> & ?). lia.
  - destruct (Hcl n HnV Hnq) as (_ & ? & _); [by apply neighbour_neq|]. lia.
Qed.

Lemma exploring_push (x y d : Z) (seen : list (Z * Z)) (dir : Z * Z) q V D :
  dir ∈ directions ->
  in_bounds g (neighbour (x, y) dir) -> neighbour (x, y) dir ∉ V ->
  cell g (neighbour (x, y) dir) = Some OPEN \/ neighbour (x, y) dir = target ->
  exploring g target start (x, y) d seen q V D ->
  exploring g target start (x, y) d (seen ++ [dir])
    (q ++ [(neighbour (x, y) dir, d + 1)]) ({[ neighbour (x, y) dir ]} ∪ V)
    (fun v => if decide (v = neighbour (x, y) dir) then d + 1 else D v).
Proof.
  intros Hdir Hb Hnv Hpass [Hs Hq Hso Hnd Hcur Hseen Hcl Hsnd].
  set (n := neighbour (x, y) dir) in *.
  assert (forall v, v ∈ V -> (if decide (v = n) then d + 1 else D v) = D v) as Hold.
  { intros v Hv. rewrite decide_False; [done|]. by intros ->. }
  assert (forall v, v ∈ q.*1 -> v ∈ V) as HqV.
  { intros v Hv. apply list_elem_of_fmap in Hv as ([v' d'] & -> & Hin).
    by destruct (Hq _ _ Hin). }
  destruct Hcur as (HpV & Hpq & Hpt & HpD).
  constructor.
  - destruct Hs as [Hs1 Hs2]. split; [set_solver|]. by rewrite Hold.
  - intros p' d' Hin. apply elem_of_app in Hin as [Hin|Hin].
    + destruct (Hq _ _ Hin) as (? & ? & ?). split; [set_solver|]. rewrite Hold by done. auto.
    + apply list_elem_of_singleton in Hin as [= -> ->].
      split; [set_solver|]. destruct (decide (n = n)); [lia|done].
  - rewrite fmap_app. apply StronglySorted_app_2; [|done|repeat constructor].
    intros x1 x2 H1 H2. apply list_elem_of_singleton in H2 as ->.
    apply list_elem_of_fmap in H1 as ([p' d'] & -> & Hin).
    destruct (Hq _ _ Hin) as (_ & _ & ?). simpl. lia.
  - rewrite fmap_app. apply NoDup_app. split; [done|]. split.
    + intros v Hv Hv'. apply list_elem_of_singleton in Hv'. simpl in Hv'. subst v.
      by apply Hnv, HqV.
    + repeat constructor. by intros ?%elem_of_nil.
  - split; [set_solver|]. split; [|split; [done|by rewrite Hold]].
    rewrite fmap_app. intros Hin. apply elem_of_app in Hin as [Hin|Hin]; [done|].
    apply list_elem_of_singleton in Hin. simpl in Hin. apply Hnv. by rewrite <- Hin.
  - intros dir' Hin Hpass'. apply elem_of_app in Hin as [Hin|Hin].
    + destruct (Hseen _ Hin Hpass') as [? ?]. split; [set_solver|]. by rewrite Hold.
    + apply list_elem_of_singleton in Hin as ->. fold n.
      split; [set_solver|]. destruct (decide (n = n)); [lia|done].
  - intros u Hu Huq Hup.
    assert (u <> n) as Hun.
    { intros ->. apply Huq. rewrite fmap_app. apply elem_of_app. right.
      by apply list_elem_of_singleton. }
    assert (u ∈ V) as HuV by set_solver.
    assert (u ∉ q.*1) as Huq'.
    { intros Hin. apply Huq. rewrite fmap_app. apply elem_of_app. by left. }
    destruct (Hcl u HuV Huq' Hup) as (? & ? & Hstep).
    rewrite (Hold u HuV). split; [done|]. split; [done|].
    intros m Hm. destruct (Hstep m Hm) as [? ?]. split; [set_solver|]. by rewrite Hold.
  - intros v Hv. destruct (decide (v = n)) as [->|Hvn].
    + apply (walk_on g target start (x, y) n d).
      * rewrite <- HpD. by apply Hsnd.
      * split; [by exists dir|]. by split.
    + apply Hsnd. set_solver.
Qed.

Lemma explore_exploring (x y d : Z) (dirs : list (Z * Z)) :
  forall (seen : list (Z * Z)) q V D,
  (forall dir, dir ∈ dirs -> dir ∈ directions) ->
  exploring g target start (x, y) d seen q V D ->
  exists q' V' D',
    explore g target x y d dirs q V = Ok (q', V') /\
    exploring g target start (x, y) d (seen ++ dirs) q' V' D' /\
    (length q' + unvisited g V' <= length q + unvisited g V)%nat.
Proof.
  induction dirs as [|[dx dy] dirs IH]; intros seen q V D Hsub Hex.
  - exists q, V, D. rewrite app_nil_r. done.
  - rewrite explore_cons. simpl.
    assert ((dx, dy) ∈ directions) as Hdir by apply Hsub, list_elem_of_here.
    assert (forall dir, dir ∈ dirs -> dir ∈ directions) as Hsub'.
    { intros dir Hin. by apply Hsub, list_elem_of_further. }
    destruct (bool_decide_reflect (in_bounds g (x + dx, y + dy) /\
        ((x + dx, y + dy) ∉ V) /\
        (cell g (x + dx, y + dy) = Some OPEN \/ (x + dx, y + dy) = target)))
      as [(Hb & Hnv & Hpass)|Hno].
    + pose proof (exploring_push x y d seen (dx, dy) q V D Hdir Hb Hnv Hpass Hex) as Hex1.
      destruct (IH _ _ _ _ Hsub' Hex1) as (q' & V' & D' & Hrun & Hex' & Hm).
      exists q', V', D'. rewrite <- app_assoc in Hex'. split; [done|]. split; [done|].
      rewrite length_app in Hm. simpl in Hm.
      pose proof (unvisited_insert V _ Hb Hnv). unfold neighbour in Hm. simpl in Hm. lia.
    + pose proof (exploring_skip x y d seen (dx, dy) q V D Hdir Hno Hex) as Hex1.
      destruct (IH _ _ _ _ Hsub' Hex1) as (q' & V' & D' & Hrun & Hex' & Hm).
      exists q', V', D'. rewrite <- app_assoc in Hex'. done.
Qed.

(** Once all four directions of the popped cell are done, every visited
    cell that has left the queue is closed under steps. *)
Lemma explored_closed p d q V D u :
  exploring g target start p d directions q V D ->
  u ∈ V -> u ∉ q.*1 ->
  u <> target /\ D u <= d /\ forall n, step g target u n -> n ∈ V /\ D n <= D u + 1.
Proof.
  intros [Hs Hq Hso Hnd (HpV & Hpq & Hpt & HpD) Hseen Hcl Hsnd] HuV Huq.
  destruct (decide (u = p)) as [->|Hup]; [|by apply Hcl].
  split; [done|]. split; [lia|].
  intros n [(dir & Hdir & ->) Hpass]. rewrite HpD. by apply Hseen.
Qed.

Lemma walk_cases p d q V D w k :
  exploring g target start p d directions q V D ->
  walk g target start w k ->
  (w ∈ V /\ (w ∉ q.*1) /\ D w <= k) \/ (exists p' d', (p', d') ∈ q /\ d' <= k).
Proof.
  intros Hex. induction 1 as [|w w' k Hw IH Hstep].
  - destruct Hex as [[Hs1 Hs2] Hq _ _ _ _ _ _].
    destruct (decide (start ∈ q.*1)) as [Hin|Hnin].
    + right. apply list_elem_of_fmap in Hin as ([s' d'] & Heq & Hin). simpl in Heq. subst s'.
      exists start, d'. split; [done|]. destruct (Hq _ _ Hin) as (_ & ? & _). lia.
    + left. split; [done|]. split; [done|]. lia.
  - destruct IH as [(HwV & Hwq & HwD)|(p' & d' & Hin & Hle)].
    + destruct (explored_closed _ _ _ _ _ w Hex HwV Hwq) as (_ & _ & Hcl).
      destruct (Hcl w' Hstep) as [Hw'V Hw'D].
      destruct (decide (w' ∈ q.*1)) as [Hin|Hnin].
      * right. apply list_elem_of_fmap in Hin as ([s' d'] & Heq & Hin). simpl in Heq. subst s'.
        exists w', d'. split; [done|].
        destruct Hex as [_ Hq _ _ _ _ _ _]. destruct (Hq _ _ Hin) as (_ & ? & _). lia.
      * left. split; [done|]. split; [done|]. lia.
    + right. exists p', d'. split; [done|]. lia.
Qed.

Lemma exploring_next p d (x y d2 : Z) q V D :
  exploring g target start p d directions (((x, y), d2) :: q) V D ->
  (x, y) <> target ->
  exploring g target start (x, y) d2 [] q V D.
Proof.
  intros Hex Ht. pose proof Hex as [Hs Hq Hso Hnd (HpV & Hpq & Hpt & HpD) Hseen Hcl Hsnd].
  destruct (Hq (x, y) d2) as (HxV & HxD & Hxd); [apply list_elem_of_here|].
  simpl in Hso, Hnd. apply StronglySorted_inv in Hso as [Hso Hall].
  apply NoDup_cons in Hnd as [Hxq Hnd].
  constructor; try done.
  - intros p' d' Hin. destruct (Hq p' d') as (? & ? & ?); [by apply list_elem_of_further|].
    split; [done|]. split; [done|].
    assert (d2 <= d'); [|lia].
    eapply Forall_forall in Hall; [exact Hall|].
    apply list_elem_of_fmap. exists (p', d'). done.
  - intros dir Hin. by apply elem_of_nil in Hin.
  - intros u HuV Huq Hux.
    assert (u ∉ (((x, y), d2) :: q).*1) as Huq'.
    { simpl. intros Hin. apply elem_of_cons in Hin as [?|?]; done. }
    destruct (explored_closed _ _ _ _ _ u Hex HuV Huq') as (? & ? & ?).
    split; [done|]. split; [lia|done].
Qed.

Lemma bfs_from_explored (fuel : nat) :
  forall q V D p d,
  exploring g target start p d directions q V D ->
  (length q + unvisited g V < fuel)%nat ->
  exists r, bfs fuel g target q V = Ok r /\
    ((r = -1 /\ forall k, ~ walk g target start target k) \/
     (walk g target start target r /\ forall k, walk g target start target k -> r <= k)).
Proof.
  induction fuel as [|fuel IH]; intros q V D p d Hex Hm; [lia|]. cbn [bfs].
  destruct q as [|[[x y] d2] q3].
  - exists (-1). split; [done|]. left. split; [done|]. intros k Hw.
    destruct (walk_cases _ _ _ _ _ _ _ Hex Hw) as [(HV & Hq & _)|(p' & d' & Hin & _)].
    + by destruct (explored_closed _ _ _ _ _ _ Hex HV Hq) as [? _].
    + by apply elem_of_nil in Hin.
  - destruct (bool_decide_reflect ((x, y) = target)) as [Ht|Ht].
    + exists d2. split; [done|]. right.
      pose proof Hex as [_ Hq Hso _ _ _ _ Hsnd].
      destruct (Hq (x, y) d2) as (HxV & HxD & _); [apply list_elem_of_here|].
      split.
      * pose proof (Hsnd _ HxV) as Hw. by rewrite HxD, Ht in Hw.
      * intros k Hw.
        destruct (walk_cases _ _ _ _ _ _ _ Hex Hw) as [(_ & Hnq & _)|(p' & d' & Hin & Hle)].
        -- exfalso. apply Hnq. rewrite <- Ht. simpl. apply list_elem_of_here.
        -- simpl in Hso. apply StronglySorted_inv in Hso as [_ Hall].
           apply elem_of_cons in Hin as [[= _ <-]|Hin]; [done|].
           assert (d2 <= d'); [|lia].
           eapply Forall_forall in Hall; [exact Hall|].
           apply list_elem_of_fmap. exists (p', d'). done.
    + pose proof (exploring_next _ _ _ _ _ _ _ _ Hex Ht) as Hex2.
      destruct (explore_exploring x y d2 directions [] q3 V D) as (q' & V' & D' & Hrun & Hex' & Hm');
        [done|done|].
      rewrite Hrun. cbn [mbind result_bind]. apply (IH q' V' D' (x, y) d2 Hex').
      simpl in Hm. lia.
Qed.

End PathDistance.

Lemma bfs_pop (fuel : nat) (g : grid) (target : Z * Z) (x y d : Z)
    (q : list (Z * Z * Z)) (V : gset (Z * Z)) :
  bfs (S fuel) g target (((x, y), d) :: q) V =
  if bool_decide ((x, y) = target) then Ok d
  else '(q', V') ← explore g target x y d directions q V; bfs fuel g target q' V'.
Proof. reflexivity. Qed.

Lemma bfs_from_start (g : grid) (target : Z * Z) (sx sy : Z) :
  rectangular g -> g <> [] ->
  exists r, bfs (bfs_fuel g) g target [((sx, sy), 0)] {[ (sx, sy) ]} = Ok r /\
    ((r = -1 /\ forall k, ~ walk g target (sx, sy) target k) \/
     (walk g target (sx, sy) target r /\
      forall k, walk g target (sx, sy) target k -> r <= k)).
Proof.
  intros Hrect Hg. unfold bfs_fuel. rewrite bfs_pop.
  destruct (bool_decide_reflect ((sx, sy) = target)) as [Ht|Ht].
  - exists 0. split; [done|]. right. split.
    + rewrite <- Ht at 2. constructor.
    + intros k Hw. by apply walk_nonneg in Hw.
  - assert (exploring g target (sx, sy) (sx, sy) 0 [] [] {[ (sx, sy) ]} (fun _ => 0)) as Hex.
    { constructor; try done.
      - split; [set_solver|done].
      - intros p' d' Hin. by apply elem_of_nil in Hin.
      - constructor.
      - constructor.
      - split; [set_solver|]. split; [|done]. simpl. by intros ?%elem_of_nil.
      - intros dir Hin. by apply elem_of_nil in Hin.
      - intros u Hu _ Hne. set_solver.
      - intros v Hv. apply elem_of_singleton in Hv as ->. constructor. }
    destruct (explore_exploring g target (sx, sy) Hrect Hg sx sy 0 directions
                [] [] {[ (sx, sy) ]} (fun _ => 0))
      as (q' & V' & D' & Hrun & Hex' & Hm'); [done|done|].
    rewrite Hrun. cbn [mbind result_bind].
    apply (bfs_from_explored g target (sx, sy) Hrect Hg _ q' V' D' (sx, sy) 0 Hex').
    simpl in Hm'.
    pose proof (length_filter (fun p => p ∉ ({[ (sx, sy) ]} : gset (Z * Z))) (cells g)) as Hf.
    unfold unvisited in Hm' at 2. rewrite length_cells in Hf. lia.
Qed.

(** ** Walks of the search and paths of the statement *)

Lemma adjacent_sym (p q : Z * Z) : adjacent p q -> adjacent q p.
Proof. unfold adjacent. lia. Qed.

Lemma adjacent_neighbour (p q : Z * Z) :
  adjacent p q <-> exists dir, dir ∈ directions /\ q = neighbour p dir.
Proof.
  unfold adjacent, neighbour, directions. destruct p as [px py], q as [qx qy]. simpl. split.
  - intros H.
    assert ((qx = px - 1 /\ qy = py) \/ (qx = px + 1 /\ qy = py) \/
            (qx = px /\ qy = py - 1) \/ (qx = px /\ qy = py + 1))
      as [[-> ->]|[[-> ->]|[[-> ->]|[-> ->]]]] by lia.
    + exists (-1, 0). split; [set_solver|]. simpl. f_equal; lia.
    + exists (1, 0). split; [set_solver|]. simpl. f_equal; lia.
    + exists (0, -1). split; [set_solver|]. simpl. f_equal; lia.
    + exists (0, 1). split; [set_solver|]. simpl. f_equal; lia.
  - intros (dir & Hdir & Heq).
    repeat (apply elem_of_cons in Hdir as [->|Hdir]); simpl in Heq;
      try (injection Heq as -> ->; lia).
    by apply elem_of_nil in Hdir.
Qed.

Lemma open_path_nonneg (g : grid) (s w : Z * Z) (k : Z) : open_path g s w k -> 0 <= k.
Proof. induction 1; lia. Qed.

Lemma open_path_walk (g : grid) (t s w : Z * Z) (k : Z) :
  open_path g s w k -> walk g t s w k.
Proof.
  induction 1 as [|w w' k Hp IH Hadj [Hb Ho]]; [constructor|].
  apply (walk_on g t s w w' k IH). split; [by apply adjacent_neighbour|]. split; auto.
Qed.

Lemma path_walk (g : grid) (s t : Z * Z) (k : Z) :
  path_between g s t k -> walk g t s t k.
Proof.
  intros [[-> ->]|(w & Hp & Hadj & Hb)]; [constructor|].
  replace k with (k - 1 + 1) by lia.
  apply (walk_on g t s w t (k - 1)); [by apply open_path_walk|].
  split; [by apply adjacent_neighbour|]. split; auto.
Qed.

Lemma walk_path_or_open (g : grid) (s t w : Z * Z) (k : Z) :
  walk g t s w k ->
  (exists k', k' <= k /\ path_between g s t k') \/ open_path g s w k.
Proof.
  induction 1 as [|w w' k Hw IH [Hdir [Hb Ho]]]; [right; constructor|].
  destruct IH as [(k' & Hle & Hp)|Hop].
  - left. exists k'. split; [lia|done].
  - apply adjacent_neighbour in Hdir.
    destruct (decide (w' = t)) as [->|Hne].
    + left. exists (k + 1). split; [lia|]. right. exists w.
      replace (k + 1 - 1) with k by lia. done.
    + right. apply (open_on g s w w' k); [done|done|].
      split; [done|]. by destruct Ho.
Qed.

Lemma walk_path (g : grid) (s t : Z * Z) (k : Z) :
  walk g t s t k -> exists k', k' <= k /\ path_between g s t k'.
Proof.
  intros Hw. destruct (walk_path_or_open _ _ _ _ _ Hw) as [?|Hop]; [done|].
  exists k. split; [lia|]. inversion Hop as [|w w' k0 Hp Hadj [Hb _]]; subst.
  - by left.
  - right. exists w. replace (k0 + 1 - 1) with k0 by lia. done.
Qed.

Lemma open_path_cons (g : grid) (t w w2 : Z * Z) (k : Z) :
  open_path g w w2 k -> adjacent t w -> is_open g w -> open_path g t w2 (k + 1).
Proof.
  intros Hp Hadj Ho. induction Hp as [|w1 w2 k Hp IH Hadj' Ho'].
  - apply (open_on g t t w 0); [constructor|done|done].
  - by apply (open_on g t w1 w2 (k + 1)).
Qed.

Lemma open_path_rev (g : grid) (s w : Z * Z) (k : Z) :
  open_path g s w k ->
  forall t, adjacent w t -> exists w2, open_path g t w2 k /\ adjacent w2 s.
Proof.
  induction 1 as [|w0 w k Hp IH Hadj Ho]; intros t Ht.
  - exists t. split; [constructor|by apply adjacent_sym].
  - destruct (IH w Hadj) as (w2 & Hp2 & Hadj2).
    exists w2. split; [|done].
    apply (open_path_cons g t w w2 k); [done|by apply adjacent_sym|done].
Qed.

Lemma path_between_sym (g : grid) (s t : Z * Z) (k : Z) :
  in_bounds g s -> path_between g s t k -> path_between g t s k.
Proof.
  intros Hs [[-> ->]|(w & Hp & Hadj & Hb)]; [by left|].
  destruct (open_path_rev _ _ _ _ Hp t Hadj) as (w2 & Hp2 & Hadj2).
  right. by exists w2.
Qed.

Lemma path_between_nonneg (g : grid) (s t : Z * Z) (k : Z) :
  path_between g s t k -> 0 <= k.
Proof.
  intros [[_ ->]|(w & Hp & _)]; [done|]. apply open_path_nonneg in Hp. lia.
Qed.

Lemma shortest_unique (g : grid) (s t : Z * Z) (d d' : Z) :
  shortest g s t d -> shortest g s t d' -> d = d'.
Proof.
  intros [[-> Hno]|[Hp Hmin]] [[-> Hno']|[Hp' Hmin']].
  - done.
  - by destruct (Hno d').
  - by destruct (Hno' d).
  - specialize (Hmin _ Hp'). specialize (Hmin' _ Hp). lia.
Qed.

Lemma shortest_sym (g : grid) (s t : Z * Z) (d : Z) :
  in_bounds g s -> in_bounds g t -> shortest g s t d -> shortest g t s d.
Proof.
  intros Hs Ht [[-> Hno]|[Hp Hmin]].
  - left. split; [done|]. intros k Hk. apply (Hno k). by apply path_between_sym.
  - right. split; [by apply path_between_sym|].
    intros k Hk. apply Hmin. by apply path_between_sym.
Qed.

(** [calculate_path_distance] returns, and what it returns is the length of a
    shortest path, or -1 when there is none. *)
Lemma calculate_path_distance_shortest (g : grid) (char1 char2 : ascii) (s t : Z * Z) :
  rectangular g ->
  get_character_coordinates g char1 = Some s ->
  get_character_coordinates g char2 = Some t ->
  exists d, calculate_path_distance g char1 char2 = Ok d /\ shortest g s t d.
Proof.
  intros Hrect Hs Ht. pose proof (coordinates_nonempty _ _ _ Hs) as Hg.
  unfold calculate_path_distance. rewrite Hs, Ht.
  destruct s as [sx sy].
  destruct (bfs_from_start g t sx sy Hrect Hg) as (r & Hrun & Hpost).
  exists r. split; [done|].
  destruct Hpost as [[-> Hno]|[Hw Hmin]].
  - left. split; [done|]. intros k Hk. apply (Hno k). by apply path_walk.
  - right. destruct (walk_path _ _ _ _ Hw) as (k' & Hle & Hp).
    assert (r = k') as ->.
    { specialize (Hmin k' (path_walk _ _ _ _ Hp)). lia. }
    split; [done|]. intros k Hk. apply Hmin. by apply path_walk.
Qed.

(** C2.  On a rectangular grid that holds both characters,
    [calculate_path_distance] returns the length of a shortest 4-directional
    path from the cell of [char1] to the cell of [char2] through open cells
    (the target cell is entered whatever it holds; walls and cells off the grid
    are never entered); it returns 0 exactly when the two cells coincide and
    -1 exactly when there is no such path. *)
Theorem calculate_path_distance_correct (g : grid) (char1 char2 : ascii) (s t : Z * Z) :
  rectangular g ->
  get_character_coordinates g char1 = Some s ->
  get_character_coordinates g char2 = Some t ->
  exists d, calculate_path_distance g char1 char2 = Ok d /\
    (d = 0 <-> s = t) /\
    (d = -1 <-> forall k, ~ path_between g s t k) /\
    (d <> -1 -> path_between g s t d /\ forall k, path_between g s t k -> d <= k).
Proof.
  intros Hrect Hs Ht.
  destruct (calculate_path_distance_shortest g char1 char2 s t Hrect Hs Ht)
    as (d & Hrun & Hd).
  exists d. split; [done|].
  destruct Hd as [[-> Hno]|[Hp Hmin]].
  - split; [|split; [done|done]].
    split; [done|]. intros ->. destruct (Hno 0). by left.
  - pose proof (path_between_nonneg _ _ _ _ Hp) as Hd0.
    split; [|split; [|done]].
    + split.
      * intros ->. destruct Hp as [[? _]|(w & Hw & _)]; [done|].
        apply open_path_nonneg in Hw. lia.
      * intros ->. assert (d <= 0); [|lia]. apply Hmin. by left.
    + split; [lia|]. intros Hno. by destruct (Hno d).
Qed.

Lemma calculate_path_distance_correct_witness :
  exists d, calculate_path_distance (parse_grid open_room) "P" "O" = Ok d /\
    (d = 0 <-> (1, 1) = (3, 3)) /\
    (d = -1 <-> forall k, ~ path_between (parse_grid open_room) (1, 1) (3, 3) k) /\
    (d <> -1 -> path_between (parse_grid open_room) (1, 1) (3, 3) d /\
       forall k, path_between (parse_grid open_room) (1, 1) (3, 3) k -> d <= k).
Proof.
  apply (calculate_path_distance_correct (parse_grid open_room) "P" "O" (1, 1) (3, 3)).
  - intros row H. vm_compute in H.
    repeat (apply elem_of_cons in H as [->|H]); try reflexivity.
    by apply elem_of_nil in H.
  - vm_compute. reflexivity.
  - vm_compute. reflexivity.
Defined.

(** C10.  On a rectangular grid that holds both tags, the path distance from
    [a] to [b] is the path distance from [b] to [a]. *)
Theorem calculate_path_distance_symmetric (g : grid) (a b : ascii) (s t : Z * Z) :
  rectangular g ->
  get_character_coordinates g a = Some s ->
  get_character_coordinates g b = Some t ->
  exists d, calculate_path_distance g a b = Ok d /\
            calculate_path_distance g b a = Ok d.
Proof.
  intros Hrect Hs Ht.
  destruct (calculate_path_distance_shortest g a b s t Hrect Hs Ht) as (d & Hab & Hd).
  destruct (calculate_path_distance_shortest g b a t s Hrect Ht Hs) as (d' & Hba & Hd').
  exists d. split; [done|]. rewrite Hba. f_equal.
  apply (shortest_unique g t s); [done|].
  apply shortest_sym; [by eapply coordinates_in_bounds..|done].
Qed.

Lemma calculate_path_distance_symmetric_witness :
  exists d, calculate_path_distance (parse_grid open_room) "P" "O" = Ok d /\
            calculate_path_distance (parse_grid open_room) "O" "P" = Ok d.
Proof.
  apply (calculate_path_distance_symmetric (parse_grid open_room) "P" "O" (1, 1) (3, 3)).
  - intros row H. vm_compute in H.
    repeat (apply elem_of_cons in H as [->|H]); try reflexivity.
    by apply elem_of_nil in H.
  - vm_compute. reflexivity.
  - vm_compute. reflexivity.
Defined.

(** ** Path-aware selection *)

Lemma min_loop_keeps {A B} (f : A -> result B) (key : B -> Z) (best : B) (rest : list A) :
  (forall a, a ∈ rest -> exists b, f a = Ok b /\ key best <= key b) ->
  Py.min_loop f key best rest = Ok best.
Proof.
  induction rest as [|a rest IH]; intros H; simpl; [done|].
  destruct (H a) as (b & Hb & Hle); [apply list_elem_of_here|].
  rewrite Hb. simpl. destruct (Z.ltb_spec (key b) (key best)); [lia|].
  apply IH. intros a' Ha'. apply H. by apply list_elem_of_further.
Qed.

(** C4, as stated, fails: P and O are in two regions, neither candidate of
    P reaches O, the candidate below is nearer to O in Manhattan distance
    (2 against 4), and [make_smart_move] takes the one above. *)
Lemma unreachable_fallback_is_not_manhattan :
  exists up down,
    generate_possible_moves (parse_grid two_regions) "P" = Ok [up; down] /\
    calculate_path_distance up "P" "O" = Ok (-1) /\
    calculate_path_distance down "P" "O" = Ok (-1) /\
    calculate_distance up "P" "O" = Ok 4 /\
    calculate_distance down "P" "O" = Ok 2 /\
    make_smart_move two_regions "P" "O" = Ok (grid_to_string up).
Proof.
  do 2 eexists. split; [vm_compute; reflexivity|].
  repeat split; vm_compute; reflexivity.
Qed.

(** ** Trees of cells *)

Section Trees.

Implicit Types (P Q : Z * Z -> Prop) (a b c u v w : Z * Z) (l S : list (Z * Z)).

Lemma spath_first P a b l : spath P a b l -> a ∈ l.
Proof. destruct 1; apply list_elem_of_here. Qed.

Lemma spath_last P a b l : spath P a b l -> b ∈ l.
Proof.
  induction 1; [apply list_elem_of_here|]. by apply list_elem_of_further.
Qed.

Lemma spath_all P a b l : spath P a b l -> forall x, x ∈ l -> P x.
Proof.
  induction 1 as [a Ha|a c b l Ha Hadj Hp IH Hnin]; intros x Hx.
  - by apply list_elem_of_singleton in Hx as ->.
  - apply elem_of_cons in Hx as [->|Hx]; [done|by apply IH].
Qed.

Lemma spath_restrict P Q a b l :
  spath P a b l -> (forall x, x ∈ l -> Q x) -> spath Q a b l.
Proof.
  induction 1 as [a Ha|a c b l Ha Hadj Hp IH Hnin]; intros HQ.
  - constructor. apply HQ, list_elem_of_here.
  - apply (spath_step Q a c b l); [apply HQ, list_elem_of_here|done| |done].
    apply IH. intros x Hx. by apply HQ, list_elem_of_further.
Qed.

Lemma spath_mono P Q a b l :
  (forall x, P x -> Q x) -> spath P a b l -> spath Q a b l.
Proof.
  intros HPQ Hp. apply (spath_restrict P Q a b l Hp).
  intros x Hx. by apply HPQ, (spath_all P a b l).
Qed.

Lemma spath_snoc P a b c l :
  spath P a b l -> P c -> adjacent b c -> c ∉ l -> spath P a c (l ++ [c]).
Proof.
  induction 1 as [a Ha|a c' b l Ha Hadj Hp IH Hnin]; intros Hc Hbc Hcl.
  - simpl. apply (spath_step P a c c [c]); [done|done|by constructor|].
    intros Hin. apply list_elem_of_singleton in Hin as ->.
    apply Hcl, list_elem_of_here.
  - simpl. apply (spath_step P a c' c (l ++ [c])); [done|done| |].
    + apply IH; [done|done|]. intros Hin. by apply Hcl, list_elem_of_further.
    + intros Hin. apply elem_of_app in Hin as [Hin|Hin]; [done|].
      apply list_elem_of_singleton in Hin as ->. apply Hcl, list_elem_of_here.
Qed.

Lemma spath_reverse P a b l : spath P a b l -> spath P b a (reverse l).
Proof.
  induction 1 as [a Ha|a c b l Ha Hadj Hp IH Hnin]; [by constructor|].
  rewrite reverse_cons.
  apply (spath_snoc P b c a (reverse l)); [done|done|by apply adjacent_sym|].
  by rewrite elem_of_reverse.
Qed.

Lemma spath_loop P a l : spath P a a l -> l = [a].
Proof.
  inversion 1 as [|? c ? l' Ha Hadj Hp Hnin]; subst; [done|].
  destruct Hnin. by apply (spath_last P c a).
Qed.

Section Leaf.

Variables (v u : Z * Z) (S : list (Z * Z)).
Hypothesis Hfresh : v ∉ S.
Hypothesis Hu : u ∈ S.
Hypothesis Hadj : adjacent v u.
Hypothesis Honly : forall w, w ∈ S -> adjacent v w -> w = u.

Lemma leaf_neighbour c : c ∈ v :: S -> c <> v -> adjacent v c -> c = u.
Proof.
  intros Hc Hne Hvc. apply Honly; [|done].
  apply elem_of_cons in Hc as [?|?]; done.
Qed.

(** A leaf is never strictly inside a simple path. *)
Lemma leaf_not_inside a b l :
  spath (fun x => x ∈ v :: S) a b l -> a <> v -> b <> v -> v ∉ l.
Proof.
  induction 1 as [a Ha|a c b l Ha Hac Hp IH Hnin]; intros Hav Hbv.
  - intros Hin. by apply list_elem_of_singleton in Hin.
  - destruct (decide (c = v)) as [->|Hcv].
    + exfalso. inversion Hp as [|? c' ? l' Hv Hvc' Hp' Hnin']; subst; [done|].
      pose proof (spath_first _ _ _ _ Hp') as Hc'.
      assert (c' <> v) as Hc'v by (by intros ->).
      assert (c' = u) as ->.
      { apply leaf_neighbour; [|done|done]. by apply (spath_all _ _ _ _ Hp'). }
      assert (a = u) as ->.
      { apply leaf_neighbour; [done|done|by apply adjacent_sym]. }
      apply Hnin. by apply list_elem_of_further.
    + intros Hin. apply elem_of_cons in Hin as [?|Hin]; [done|].
      by apply IH.
Qed.

Lemma leaf_outside a b l :
  spath (fun x => x ∈ v :: S) a b l -> a <> v -> b <> v ->
  spath (fun x => x ∈ S) a b l.
Proof.
  intros Hp Hav Hbv. apply (spath_restrict _ _ _ _ _ Hp).
  intros x Hx. pose proof (leaf_not_inside _ _ _ Hp Hav Hbv) as Hv.
  pose proof (spath_all _ _ _ _ Hp x Hx) as Hin. simpl in Hin.
  apply elem_of_cons in Hin as [->|?]; done.
Qed.

(** A simple path that starts at the leaf goes through its one neighbour. *)
Lemma leaf_start b l :
  spath (fun x => x ∈ v :: S) v b l -> b <> v ->
  exists l', l = v :: l' /\ spath (fun x => x ∈ S) u b l'.
Proof.
  intros Hp Hbv. inversion Hp as [|? c ? l' Hv Hvc Hp' Hnin]; subst; [done|].
  exists l'. split; [done|].
  pose proof (spath_first _ _ _ _ Hp') as Hc.
  assert (c <> v) as Hcv by (by intros ->).
  assert (c = u) as ->.
  { apply leaf_neighbour; [|done|done]. by apply (spath_all _ _ _ _ Hp'). }
  apply (spath_restrict _ _ _ _ _ Hp').
  intros x Hx. pose proof (spath_all _ _ _ _ Hp' x Hx) as Hin. simpl in Hin.
  apply elem_of_cons in Hin as [->|?]; done.
Qed.

Lemma leaf_one_path_from a b l1 l2 :
  one_path (fun x => x ∈ S) -> b <> v ->
  spath (fun x => x ∈ v :: S) a b l1 -> spath (fun x => x ∈ v :: S) a b l2 -> l1 = l2.
Proof.
  intros IH Hbv H1 H2. destruct (decide (a = v)) as [->|Hav].
  - destruct (leaf_start _ _ H1 Hbv) as (l1' & -> & H1').
    destruct (leaf_start _ _ H2 Hbv) as (l2' & -> & H2').
    f_equal. by apply (IH u b).
  - apply (IH a b); by apply leaf_outside.
Qed.

Lemma leaf_one_path : one_path (fun x => x ∈ S) -> one_path (fun x => x ∈ v :: S).
Proof.
  intros IH a b l1 l2 H1 H2. destruct (decide (b = v)) as [->|Hbv].
  - destruct (decide (a = v)) as [->|Hav].
    + apply spath_loop in H1, H2. congruence.
    + apply spath_reverse in H1, H2.
      assert (reverse l1 = reverse l2) as Heq.
      { by apply (leaf_one_path_from v a). }
      apply (f_equal reverse) in Heq. by rewrite !reverse_involutive in Heq.
  - by apply (leaf_one_path_from a b).
Qed.

Lemma leaf_connected_old a b :
  connected (fun x => x ∈ S) -> a ∈ v :: S -> b ∈ S ->
  exists l, spath (fun x => x ∈ v :: S) a b l.
Proof.
  intros IH Ha Hb. apply elem_of_cons in Ha as [->|Ha].
  - destruct (IH u b Hu Hb) as [l Hl]. exists (v :: l).
    apply (spath_step _ v u b l); [apply list_elem_of_here|done| |].
    + apply (spath_mono _ _ _ _ _ (fun x Hx => list_elem_of_further x v S Hx) Hl).
    + intros Hin. apply Hfresh. by apply (spath_all _ _ _ _ Hl).
  - destruct (IH a b Ha Hb) as [l Hl]. exists l.
    apply (spath_mono _ _ _ _ _ (fun x Hx => list_elem_of_further x v S Hx) Hl).
Qed.

Lemma leaf_connected : connected (fun x => x ∈ S) -> connected (fun x => x ∈ v :: S).
Proof.
  intros IH a b Ha Hb. simpl in Ha, Hb.
  pose proof Hb as Hb'. apply elem_of_cons in Hb' as [->|Hb'].
  - pose proof Ha as Ha'. apply elem_of_cons in Ha' as [->|Ha'].
    + exists [v]. by constructor.
    + destruct (leaf_connected_old v a IH) as [l Hl]; [apply list_elem_of_here|done|].
      exists (reverse l). by apply spath_reverse.
  - by apply leaf_connected_old.
Qed.

End Leaf.

Lemma tree_connected S : tree_of S -> connected (fun x => x ∈ S).
Proof.
  induction 1 as [p|v u S HS IH Hv Hu Hadj Honly].
  - intros a b Ha Hb. simpl in Ha, Hb.
    apply list_elem_of_singleton in Ha as ->. apply list_elem_of_singleton in Hb as ->.
    exists [p]. constructor. apply list_elem_of_here.
  - by apply (leaf_connected v u S).
Qed.

Lemma tree_one_path S : tree_of S -> one_path (fun x => x ∈ S).
Proof.
  induction 1 as [p|v u S HS IH Hv Hu Hadj Honly].
  - intros a b l1 l2 H1 H2.
    assert (forall l, spath (fun x => x ∈ [p]) a b l -> l = [p]) as Hone.
    { intros l Hl. inversion Hl as [? Ha|? c ? l' Ha Hac Hp Hnin]; subst.
      - simpl in Ha. by apply list_elem_of_singleton in Ha as ->.
      - exfalso. apply Hnin. simpl in Ha. apply list_elem_of_singleton in Ha as ->.
        pose proof (spath_first _ _ _ _ Hp) as Hc.
        pose proof (spath_all _ _ _ _ Hp c Hc) as Hc'. simpl in Hc'.
        by apply list_elem_of_singleton in Hc' as ->. }
    by rewrite (Hone l1), (Hone l2).
  - by apply (leaf_one_path v u S).
Qed.

Lemma tree_NoDup S : tree_of S -> NoDup S.
Proof.
  induction 1; [repeat constructor; by intros ?%elem_of_nil|]. by constructor.
Qed.

End Trees.

(** ** Counting cells *)

Lemma count_row_insert (c c0 : ascii) (row : list ascii) (i : nat) :
  row !! i = Some c0 -> c0 <> c ->
  count_row c (<[i := c]> row) = S (count_row c row).
Proof.
  intros Hi Hne. pose proof (lookup_lt_Some _ _ _ Hi) as Hlt.
  rewrite insert_take_drop by done.
  rewrite <- (take_drop_middle row i c0 Hi) at 3.
  unfold count_row. rewrite !filter_app, !length_app.
  rewrite filter_cons_True by done. rewrite filter_cons_False by done. simpl. lia.
Qed.

Lemma count_cells_insert (c c0 : ascii) (g : grid) (row : list ascii) (x y : nat) :
  g !! y = Some row -> row !! x = Some c0 -> c0 <> c ->
  count_cells c (<[y := <[x := c]> row]> g) = S (count_cells c g).
Proof.
  intros Hy Hx Hne. pose proof (lookup_lt_Some _ _ _ Hy) as Hlt.
  rewrite insert_take_drop by done.
  rewrite <- (take_drop_middle g y row Hy) at 3.
  unfold count_cells. rewrite !sum_list_with_app. simpl.
  rewrite (count_row_insert c c0 row x Hx Hne). lia.
Qed.

Lemma count_cells_set_cell (c c0 : ascii) (g g' : grid) (x y : Z) :
  0 <= x -> 0 <= y -> cell g (x, y) = Some c0 -> c0 <> c ->
  set_cell g x y c = Ok g' -> count_cells c g' = S (count_cells c g).
Proof.
  intros Hx Hy Hc Hne Hset.
  destruct (set_cell_inv _ _ _ _ _ Hx Hy Hset) as (row & Hrow & _ & ->).
  unfold cell in Hc. simpl in Hc. rewrite decide_True in Hc by done.
  rewrite Hrow in Hc. simpl in Hc. by apply (count_cells_insert c c0).
Qed.

Lemma count_row_le (c : ascii) (row : list ascii) : (count_row c row <= length row)%nat.
Proof. apply length_filter. Qed.

Lemma count_cells_le (c : ascii) (g : grid) : (count_cells c g <= sum_list (dims g))%nat.
Proof.
  unfold count_cells, dims. induction g as [|row g IH]; [done|].
  rewrite fmap_cons. cbn [sum_list_with]. unfold id at 1.
  pose proof (count_row_le c row). lia.
Qed.

(** ** Cells of an [n] by [m] grid *)

Lemma cell_in_dims (n m : Z) (g : grid) (x y : Z) :
  dims g = replicate (Z.to_nat n) (Z.to_nat m) ->
  0 <= x < m -> 0 <= y < n -> is_Some (cell g (x, y)).
Proof.
  intros Hd Hx Hy. unfold cell. simpl. rewrite decide_True by lia.
  assert (dims g !! Z.to_nat y = Some (Z.to_nat m)) as Hrow.
  { rewrite Hd. apply lookup_replicate_2. lia. }
  unfold dims in Hrow. rewrite list_lookup_fmap in Hrow.
  destruct (g !! Z.to_nat y) as [row|]; [|done]. simpl in *.
  injection Hrow as Hlen. apply lookup_lt_is_Some_2. lia.
Qed.

Lemma cell_dims_inv (n m : Z) (g : grid) (p : Z * Z) (c : ascii) :
  dims g = replicate (Z.to_nat n) (Z.to_nat m) ->
  cell g p = Some c -> (0 <= p.1 < m) /\ (0 <= p.2 < n).
Proof.
  intros Hd. unfold cell. destruct (decide _) as [[? ?]|]; [|done].
  destruct (g !! Z.to_nat p.2) as [row|] eqn:Hrow; [|done]. simpl. intros Hc.
  pose proof (lookup_lt_Some _ _ _ Hc) as Hx.
  assert (dims g !! Z.to_nat p.2 = Some (length row)) as Hl.
  { unfold dims. by rewrite list_lookup_fmap, Hrow. }
  rewrite Hd in Hl. apply lookup_replicate in Hl as [Hl Hy]. lia.
Qed.

Lemma initialize_grid_dims (n m : Z) :
  dims (initialize_grid n m) = replicate (Z.to_nat n) (Z.to_nat m).
Proof.
  unfold dims, initialize_grid. rewrite fmap_replicate. by rewrite length_replicate.
Qed.

Lemma initialize_grid_cell (n m : Z) (p : Z * Z) (c : ascii) :
  cell (initialize_grid n m) p = Some c -> c = WALL.
Proof.
  unfold cell, initialize_grid. destruct (decide _); [|done].
  destruct (replicate _ _ !! Z.to_nat p.2) as [row|] eqn:Hrow; [|done]. simpl.
  apply lookup_replicate in Hrow as [-> _]. intros Hc.
  by apply lookup_replicate in Hc as [-> _].
Qed.

Lemma count_row_replicate (c c0 : ascii) (k : nat) :
  c0 <> c -> count_row c (replicate k c0) = O.
Proof.
  intros Hne. unfold count_row. induction k as [|k IH]; [done|].
  simpl. by rewrite filter_cons_False.
Qed.

Lemma initialize_grid_count (n m : Z) : count_cells OPEN (initialize_grid n m) = O.
Proof.
  unfold count_cells, initialize_grid.
  induction (Z.to_nat n) as [|k IH]; [done|].
  simpl. rewrite IH. by rewrite count_row_replicate.
Qed.

(** ** The random source: what the proofs need of it *)

Lemma swap_elem_of {A} (x : list A) (i j : nat) (a : A) : a ∈ swap x i j -> a ∈ x.
Proof.
  unfold swap. destruct (x !! i) as [xi|] eqn:Hi; [|done].
  destruct (x !! j) as [xj|] eqn:Hj; [|done].
  intros Hin. apply list_elem_of_lookup in Hin as [k Hk].
  apply list_lookup_insert_Some in Hk as [(_ & <- & _)|[_ Hk]].
  - apply list_elem_of_lookup. eauto.
  - apply list_lookup_insert_Some in Hk as [(_ & <- & _)|[_ Hk]];
      apply list_elem_of_lookup; eauto.
Qed.

Lemma shuffle_from_elem_of {A} (i : nat) (x : list A) (r : rng) (a : A) :
  a ∈ (shuffle_from i x r).1 -> a ∈ x.
Proof.
  revert x r. induction i as [|i IH]; intros x r; simpl; [done|].
  intros Hin. apply IH in Hin. by apply swap_elem_of in Hin.
Qed.

Lemma shuffle_elem_of {A} (x : list A) (r : rng) (a : A) : a ∈ (shuffle x r).1 -> a ∈ x.
Proof. apply shuffle_from_elem_of. Qed.

Lemma choice_range_odd (m : Z) (r : rng) :
  2 <= m ->
  exists v r', choice (range 1 m 2) r = Ok (v, r') /\ 0 < v < m /\ odd v.
Proof.
  intros Hm. unfold choice, range.
  replace ((m - 1 + 2 - 1) / 2) with (m / 2) by (f_equal; lia).
  set (k := Z.to_nat (m / 2)).
  assert (0 < k)%nat as Hk by (unfold k; Z.div_mod_to_equations; lia).
  destruct ((fun i : nat => 1 + 2 * Z.of_nat i) <$> seq 0 k) as [|z zs] eqn:Hs.
  { apply (f_equal length) in Hs. rewrite length_fmap, length_seq in Hs. simpl in Hs. lia. }
  rewrite <- Hs. rewrite length_fmap, length_seq.
  unfold randbelow. set (i := (draws r (cursor r) mod k)%nat).
  assert (i < k)%nat as Hi by (apply Nat.mod_upper_bound; lia).
  rewrite (index_lookup _ i (1 + 2 * Z.of_nat i)).
  2:{ rewrite list_lookup_fmap, lookup_seq_lt by done. done. }
  simpl. eexists _, _. split; [done|].
  clearbody i. unfold odd. subst k. clear Hs Hk.
  assert (Z.of_nat i < m / 2) as Hi' by lia. clear Hi.
  split; Z.div_mod_to_equations; lia.
Qed.

(** ** One carving step *)

Ltac parity :=
  unfold odd, even, adjacent, two_steps in *; simpl in *;
  Z.div_mod_to_equations; lia.

Section Carving.

Variables (n m : Z) (g : list (list ascii)) (S : list (Z * Z)).
Hypothesis Hcv : carved n m g S.

Lemma edge_horizontal (a b a' b' : Z) :
  (a, b) ∈ S -> even a -> b' = b -> a' = a - 1 \/ a' = a + 1 -> (a', b') ∈ S.
Proof.
  intros Hin Ha -> Hcase. destruct (cv_edge _ _ _ _ Hcv a b Hin) as [Hh _].
  destruct (Hh Ha) as [? ?]. by destruct Hcase as [-> | ->].
Qed.

Lemma edge_vertical (a b a' b' : Z) :
  (a, b) ∈ S -> even b -> a' = a -> b' = b - 1 \/ b' = b + 1 -> (a', b') ∈ S.
Proof.
  intros Hin Hb -> Hcase. destruct (cv_edge _ _ _ _ Hcv a b Hin) as [_ Hv].
  destruct (Hv Hb) as [? ?]. by destruct Hcase as [-> | ->].
Qed.

(** A wall on the odd lattice has no open neighbour. *)
Lemma fresh_node_alone (nx ny : Z) (w : Z * Z) :
  odd nx -> odd ny -> (nx, ny) ∉ S -> w ∈ S -> ~ adjacent (nx, ny) w.
Proof.
  intros Hox Hoy Hfresh Hw Hadj. destruct w as [wx wy]. apply Hfresh.
  assert ((wy = ny /\ (nx = wx - 1 \/ nx = wx + 1)) \/
          (wx = nx /\ (ny = wy - 1 \/ ny = wy + 1))) as [[? ?]|[? ?]] by parity.
  - apply (edge_horizontal wx wy); [done|parity|done|done].
  - apply (edge_vertical wx wy); [done|parity|done|done].
Qed.

Lemma between_fresh (x y ix iy nx ny : Z) :
  odd x -> odd y -> two_steps x y ix iy nx ny -> (nx, ny) ∉ S -> (ix, iy) ∉ S.
Proof.
  intros Hox Hoy Hgeo Hfresh Hin. apply Hfresh.
  assert ((iy = ny /\ even ix /\ (nx = ix - 1 \/ nx = ix + 1)) \/
          (ix = nx /\ even iy /\ (ny = iy - 1 \/ ny = iy + 1))) as [(? & ? & ?)|(? & ? & ?)]
    by parity.
  - by apply (edge_horizontal ix iy).
  - by apply (edge_vertical ix iy).
Qed.

Lemma between_one_neighbour (x y ix iy nx ny : Z) (w : Z * Z) :
  odd x -> odd y -> two_steps x y ix iy nx ny -> (nx, ny) ∉ S ->
  w ∈ S -> adjacent (ix, iy) w -> w = (x, y).
Proof.
  intros Hox Hoy Hgeo Hfresh Hw Hadj. destruct w as [wx wy].
  pose proof (cv_parity _ _ _ _ Hcv _ Hw) as Hpar.
  assert ((wx = x /\ wy = y) \/ (wx = nx /\ wy = ny)) as [[-> ->]|[-> ->]] by parity;
    done.
Qed.

Lemma carved_extend (g1 g2 : list (list ascii)) (x y ix iy nx ny : Z) :
  (x, y) ∈ S -> odd x -> odd y -> two_steps x y ix iy nx ny ->
  (nx, ny) ∉ S ->
  written g g1 (nx, ny) OPEN -> written g1 g2 (ix, iy) OPEN ->
  count_cells OPEN g2 = Datatypes.S (Datatypes.S (count_cells OPEN g)) ->
  carved n m g2 ((nx, ny) :: (ix, iy) :: S).
Proof.
  intros HxyS Hox Hoy Hgeo Hfresh [Hd1 Hc1] [Hd2 Hc2] Hcount.
  pose proof (between_fresh _ _ _ _ _ _ Hox Hoy Hgeo Hfresh) as Hifresh.
  pose proof Hcv as [Hd Ho Ht Hc Hpar Hedge Hcells].
  assert (odd nx /\ odd ny) as [Honx Hony] by parity.
  constructor.
  - congruence.
  - intros p. unfold opens. rewrite Hc2, Hc1. rewrite !elem_of_cons.
    destruct (decide (p = (ix, iy))) as [->|?]; [tauto|].
    destruct (decide (p = (nx, ny))) as [->|?]; [tauto|].
    rewrite <- Ho. unfold opens. tauto.
  - apply (tree_leaf (nx, ny) (ix, iy)).
    + apply (tree_leaf (ix, iy) (x, y)); [done|done|done|parity|].
      intros w Hw Hadj. by apply (between_one_neighbour x y ix iy nx ny).
    + intros Hin. apply elem_of_cons in Hin as [Heq|?]; [|done].
      injection Heq as ? ?. parity.
    + apply list_elem_of_here.
    + parity.
    + intros w Hw Hadj. apply elem_of_cons in Hw as [?|Hw]; [done|].
      by destruct (fresh_node_alone nx ny w).
  - simpl. congruence.
  - intros p Hp. repeat (apply elem_of_cons in Hp as [->|Hp]); simpl; [auto|parity|auto].
  - intros a b Hab.
    apply elem_of_cons in Hab as [[= -> ->]|Hab]; [split; intros ?; parity|].
    apply elem_of_cons in Hab as [[= -> ->]|Hab].
    + assert (forall a' b', (a' = x /\ b' = y) \/ (a' = nx /\ b' = ny) ->
                (a', b') ∈ (nx, ny) :: (ix, iy) :: S) as Hends.
      { intros a' b' [[-> ->]|[-> ->]]; [|apply list_elem_of_here].
        by do 2 apply list_elem_of_further. }
      split; intros He; split; apply Hends; parity.
    + destruct (Hedge a b Hab) as [Hh Hv].
      split; intros He; [destruct (Hh He)|destruct (Hv He)];
        split; by do 2 apply list_elem_of_further.
  - intros p c. rewrite Hc2, Hc1.
    destruct (decide (p = (ix, iy))); [intros [= <-]; by right|].
    destruct (decide (p = (nx, ny))); [intros [= <-]; by right|]. apply Hcells.
Qed.

End Carving.

(** ** The carving recursion *)

Lemma carve_directions_two_steps (x y dx dy : Z) :
  (dx, dy) ∈ carve_directions ->
  two_steps x y (x + dx / 2) (y + dy / 2) (x + dx) (y + dy).
Proof.
  unfold carve_directions. intros H.
  repeat (apply elem_of_cons in H as [[= -> ->]|H]);
    [..|by apply elem_of_nil in H];
    unfold two_steps;
    change (2 / 2) with 1; change (-2 / 2) with (-1); change (0 / 2) with 0; lia.
Qed.

Section CarveLoop.

Variables (n m : Z) (bound : nat).
Variable recurse : Z -> Z -> carver -> result carver.

Hypothesis Hrec : carves n m recurse bound.

Lemma carve_loop_spec (x y : Z) (dirs : list (Z * Z)) :
  forall st S,
    (forall d, d ∈ dirs -> d ∈ carve_directions) ->
    carved n m (maze st) S ->
    (length S + 1 = 2 * length (calls st))%nat ->
    (x, y) ∈ S -> odd x -> odd y ->
    (Z.to_nat n * Z.to_nat m < Datatypes.S bound + length S)%nat ->
    exists st' S',
      carve_loop recurse n m x y dirs st = Ok st' /\ carved n m (maze st') S' /\
      (length S' + 1 = 2 * length (calls st'))%nat /\
      (forall p, p ∈ S -> p ∈ S') /\ (length S <= length S')%nat /\
      (forall p, p ∈ S' -> p ∈ S \/ interior n m p).
Proof.
  induction dirs as [|[dx dy] dirs IH]; intros st S Hsub Hcv Hlen HxyS Hox Hoy Hfuel.
  { exists st, S. simpl. split; [done|]. split; [done|]. split; [done|].
    split; [done|]. split; [done|]. intros p Hp. by left. }
  assert (forall d, d ∈ dirs -> d ∈ carve_directions) as Hsub'.
  { intros d Hd. by apply Hsub, list_elem_of_further. }
  cbn [carve_loop].
  destruct ((0 <? y + dy) && (y + dy <? n - 1) && (0 <? x + dx) && (x + dx <? m - 1))
    eqn:Hguard; [|by apply IH].
  apply andb_prop in Hguard as [Hguard Hnx2]. apply andb_prop in Hguard as [Hguard Hnx1].
  apply andb_prop in Hguard as [Hny1 Hny2].
  apply Z.ltb_lt in Hnx2, Hnx1, Hny1, Hny2.
  pose proof Hcv as [Hd Ho _ Hc _ _ _].
  destruct (cell_in_dims n m (maze st) (x + dx) (y + dy) Hd) as [c Hcell]; [lia|lia|].
  assert (get_cell (maze st) (x + dx) (y + dy) = Ok c) as ->
    by (apply get_cell_nonneg; [lia|lia|done]).
  cbn [mbind result_bind].
  destruct (bool_decide_reflect (c = WALL)) as [->|_]; [|by apply IH].
  pose proof (carve_directions_two_steps x y dx dy
                (Hsub _ (list_elem_of_here _ _))) as Hgeo.
  set (ix := x + dx / 2) in *. set (iy := y + dy / 2) in *.
  assert ((x + dx, y + dy) ∉ S) as Hfresh.
  { intros Hin. apply Ho in Hin. unfold opens in Hin. rewrite Hcell in Hin.
    by injection Hin. }
  pose proof (between_fresh n m _ _ Hcv _ _ _ _ _ _ Hox Hoy Hgeo Hfresh) as Hifresh.
  destruct (cell_dims_inv n m _ _ _ Hd (proj2 (Ho (x, y)) HxyS)) as [Hxr Hyr].
  simpl in Hxr, Hyr.
  destruct (set_cell_total (maze st) (x + dx) (y + dy) WALL OPEN Hcell) as [g1 Hg1].
  rewrite Hg1. cbn [mbind result_bind].
  pose proof (set_cell_written (maze st) g1 (x + dx) (y + dy) OPEN
                ltac:(lia) ltac:(lia) Hg1) as Hw1.
  assert (0 <= ix < m /\ 0 <= iy < n) as [Hixr Hiyr] by parity.
  destruct (cell_in_dims n m (maze st) ix iy Hd Hixr Hiyr) as [ci Hci].
  assert (ci <> OPEN) as Hci'.
  { intros ->. by apply Hifresh, Ho. }
  assert (cell g1 (ix, iy) = Some ci) as Hci1.
  { destruct Hw1 as [_ Hw1]. rewrite Hw1. rewrite decide_False; [done|].
    intros [= ? ?]. parity. }
  destruct (set_cell_total g1 ix iy ci OPEN Hci1) as [g2 Hg2].
  rewrite Hg2. cbn [mbind result_bind].
  pose proof (set_cell_written g1 g2 ix iy OPEN ltac:(lia) ltac:(lia) Hg2) as Hw2.
  assert (count_cells OPEN g2 = Datatypes.S (Datatypes.S (count_cells OPEN (maze st))))
    as Hcount.
  { rewrite (count_cells_set_cell OPEN ci g1 g2 ix iy); [|lia|lia|done|done|done].
    f_equal. apply (count_cells_set_cell OPEN WALL (maze st) g1 (x + dx) (y + dy));
      done || lia. }
  pose proof (carved_extend n m _ _ Hcv g1 g2 x y ix iy (x + dx) (y + dy)
                HxyS Hox Hoy Hgeo Hfresh Hw1 Hw2 Hcount) as Hcv2.
  destruct (Hrec (x + dx) (y + dy) (Carver g2 (gen st) (calls st))
              ((x + dx, y + dy) :: (ix, iy) :: S))
    as (st3 & S3 & Hrun & Hcv3 & Hlen3 & Hsub3 & Hle3 & Hint3).
  { done. }
  { simpl. lia. }
  { apply list_elem_of_here. }
  { parity. }
  { parity. }
  { simpl. lia. }
  rewrite Hrun. cbn [mbind result_bind].
  destruct (IH st3 S3 Hsub' Hcv3 Hlen3)
    as (st' & S' & Hrun' & Hcv' & Hlen' & Hsub'' & Hle' & Hint').
  { by apply Hsub3, list_elem_of_further, list_elem_of_further. }
  { done. }
  { done. }
  { simpl in Hle3. lia. }
  exists st', S'. split; [done|]. split; [done|]. split; [done|].
  split; [|split].
  - intros p Hp. by apply Hsub'', Hsub3, list_elem_of_further, list_elem_of_further.
  - simpl in Hle3. lia.
  - intros p Hp. destruct (Hint' p Hp) as [Hp3|?]; [|by right].
    destruct (Hint3 p Hp3) as [Hp2|?]; [|by right].
    apply elem_of_cons in Hp2 as [->|Hp2]; [right; split; simpl; lia|].
    apply elem_of_cons in Hp2 as [->|Hp2]; [|by left].
    right. unfold interior. parity.
Qed.

End CarveLoop.

Lemma carved_bound (n m : Z) (g : grid) (S : list (Z * Z)) :
  carved n m g S -> (length S <= Z.to_nat n * Z.to_nat m)%nat.
Proof.
  intros [Hd _ _ Hc _ _ _]. rewrite <- Hc.
  pose proof (count_cells_le OPEN g) as Hle.
  rewrite Hd, sum_list_replicate in Hle. done.
Qed.

Lemma carve_passages_carves (n m : Z) (fuel : nat) :
  carves n m (carve_passages fuel n m) fuel.
Proof.
  induction fuel as [|fuel IH]; intros x y st S Hcv Hlen HxyS Hox Hoy Hfuel.
  { pose proof (carved_bound _ _ _ _ Hcv). lia. }
  cbn [carve_passages].
  destruct (shuffle carve_directions (gen st)) as [dirs r] eqn:Hsh.
  apply (carve_loop_spec n m fuel (carve_passages fuel n m) IH x y dirs
           (Carver (maze st) r (calls st ++ [(x, y)])) S); try done.
  - intros d Hd. apply (shuffle_elem_of carve_directions (gen st)). by rewrite Hsh.
  - simpl. rewrite length_app. simpl. lia.
Qed.

Lemma connected_ext (P Q : Z * Z -> Prop) :
  (forall p, P p <-> Q p) -> connected Q -> connected P.
Proof.
  intros Heq HQ a b Ha Hb. destruct (HQ a b) as [l Hl]; [by apply Heq..|].
  exists l. apply (spath_mono Q P); [|done]. intros x. apply Heq.
Qed.

Lemma one_path_ext (P Q : Z * Z -> Prop) :
  (forall p, P p <-> Q p) -> one_path Q -> one_path P.
Proof.
  intros Heq HQ a b l1 l2 H1 H2.
  apply (HQ a b); (apply (spath_mono P Q); [|done]); intros x; apply Heq.
Qed.

Lemma carved_perfect (n m : Z) (g : grid) (S : list (Z * Z)) :
  carved n m g S -> perfect_maze g.
Proof.
  intros [_ Ho Ht _ _ _ _]. split.
  - apply (connected_ext _ (fun x => x ∈ S)); [done|]. by apply tree_connected.
  - apply (one_path_ext _ (fun x => x ∈ S)); [done|]. by apply tree_one_path.
Qed.

(** The grid with its first cell opened. *)
Lemma carved_start (n m : Z) (g : grid) (x y : Z) :
  0 <= x -> 0 <= y -> odd x -> odd y ->
  set_cell (initialize_grid n m) x y OPEN = Ok g -> carved n m g [(x, y)].
Proof.
  intros Hx Hy Hox Hoy Hset.
  pose proof (set_cell_written _ _ _ _ _ Hx Hy Hset) as [Hd Hc].
  destruct (set_cell_inv _ _ _ _ _ Hx Hy Hset) as (row & Hrow & Hlt & _).
  destruct (lookup_lt_is_Some_2 row _ Hlt) as [c0 Hc0].
  assert (cell (initialize_grid n m) (x, y) = Some c0) as Hcell.
  { unfold cell. simpl. rewrite decide_True by done. by rewrite Hrow. }
  pose proof (initialize_grid_cell _ _ _ _ Hcell) as ->.
  constructor.
  - rewrite Hd. apply initialize_grid_dims.
  - intros p. unfold opens. rewrite Hc, list_elem_of_singleton.
    destruct (decide (p = (x, y))) as [->|Hne]; [done|].
    split; [|done]. intros Hp. by apply initialize_grid_cell in Hp.
  - constructor.
  - rewrite (count_cells_set_cell OPEN WALL _ g x y Hx Hy Hcell); [|done|done].
    by rewrite initialize_grid_count.
  - intros p Hp. apply list_elem_of_singleton in Hp as ->. by left.
  - intros a b Hab. apply list_elem_of_singleton in Hab as [= -> ->].
    split; intros ?; parity.
  - intros p c. rewrite Hc. destruct (decide (p = (x, y))); [intros [= <-]; by right|].
    intros Hp. left. by apply (initialize_grid_cell n m p).
Qed.

(** C1, as stated, fails on the count: a 5 by 5 maze carved from four
    lattice cells has seven open cells (the four cells and the three cells
    opened between them), not three. *)
Lemma open_cells_not_one_less_than_nodes :
  exists st, carve_maze 5 5 (Rng (fun _ => O) O) = Ok st /\
    count_cells OPEN (maze st) = 7%nat /\ length (calls st) = 4%nat /\
    count_cells OPEN (maze st) <> (length (calls st) - 1)%nat.
Proof.
  eexists. split; [vm_compute; reflexivity|]. simpl. repeat split. lia.
Qed.

(** The run of [carve_maze], for all draws: it returns, the grid is carved
    into a tree of open cells, and every open cell but the start cell is
    strictly inside the border. *)
Lemma carve_maze_carved (n m : Z) (r : rng) :
  5 <= n -> 5 <= m ->
  exists st S sx sy,
    carve_maze n m r = Ok st /\ carved n m (maze st) S /\
    (length S + 1 = 2 * length (calls st))%nat /\
    odd sx /\ odd sy /\ 0 < sx < m /\ 0 < sy < n /\
    forall p, p ∈ S -> p = (sx, sy) \/ interior n m p.
Proof.
  intros Hn Hm. unfold carve_maze.
  destruct (choice_range_odd m r) as (sx & r1 & -> & Hsx & Hox); [lia|].
  cbn [mbind result_bind].
  destruct (choice_range_odd n r1) as (sy & r2 & -> & Hsy & Hoy); [lia|].
  cbn [mbind result_bind].
  destruct (cell_in_dims n m (initialize_grid n m) sx sy (initialize_grid_dims n m))
    as [c0 Hc0]; [lia|lia|].
  destruct (set_cell_total _ sx sy c0 OPEN Hc0) as [g1 Hg1]. rewrite Hg1.
  cbn [mbind result_bind].
  pose proof (carved_start n m g1 sx sy ltac:(lia) ltac:(lia) Hox Hoy Hg1) as Hcv.
  destruct (carve_passages_carves n m (Z.to_nat (n * m)) sx sy (Carver g1 r2 []) [(sx, sy)])
    as (st & S & Hrun & Hcv' & Hlen & _ & _ & Hint); try done.
  { apply list_elem_of_here. }
  { rewrite Z2Nat.inj_mul by lia. simpl. lia. }
  exists st, S, sx, sy. repeat (split; [done|]).
  intros p Hp. destruct (Hint p Hp) as [Hs|?]; [left|by right].
  by apply list_elem_of_singleton in Hs.
Qed.

(** C1 (amended).  For every n >= 5 and m >= 5 and every sequence of random
    choices, [generate_maze] returns a perfect maze: any two open cells are
    joined by a path through 4-adjacent open cells, by exactly one simple
    path, and the count of open cells is one less than twice the number of
    cells the carving visited. *)
Theorem generate_maze_perfect (n m : Z) (r : rng) :
  5 <= n -> 5 <= m ->
  exists st, carve_maze n m r = Ok st /\ generate_maze n m r = Ok (maze st) /\
    perfect_maze (maze st) /\
    Z.of_nat (count_cells OPEN (maze st)) = 2 * Z.of_nat (length (calls st)) - 1.
Proof.
  intros Hn Hm.
  destruct (carve_maze_carved n m r Hn Hm) as (st & S & _ & _ & Hrun & Hcv & Hlen & _).
  exists st. unfold generate_maze. rewrite Hrun. split; [done|]. split; [done|].
  split; [by apply (carved_perfect n m _ S)|].
  rewrite (cv_count _ _ _ _ Hcv). lia.
Qed.

Lemma generate_maze_perfect_witness :
  exists st, carve_maze 5 5 (Rng (fun _ => O) O) = Ok st /\
    generate_maze 5 5 (Rng (fun _ => O) O) = Ok (maze st) /\
    perfect_maze (maze st) /\
    Z.of_nat (count_cells OPEN (maze st)) = 2 * Z.of_nat (length (calls st)) - 1.
Proof.
  apply (generate_maze_perfect 5 5 (Rng (fun _ => O) O)); lia.
Defined.

(** The carving itself keeps the border: in the grid returned, every cell
    of the outer border other than the start cell is a wall. *)
Lemma border_kept_but_start (n m : Z) (r : rng) :
  5 <= n -> 5 <= m ->
  exists g sx sy,
    generate_maze n m r = Ok g /\ odd sx /\ odd sy /\ 0 < sx < m /\ 0 < sy < n /\
    forall x y, 0 <= x < m -> 0 <= y < n -> ~ interior n m (x, y) ->
      (x, y) <> (sx, sy) -> cell g (x, y) = Some WALL.
Proof.
  intros Hn Hm.
  destruct (carve_maze_carved n m r Hn Hm)
    as (st & S & sx & sy & Hrun & Hcv & _ & Hox & Hoy & Hsx & Hsy & Hint).
  exists (maze st), sx, sy. unfold generate_maze. rewrite Hrun.
  repeat (split; [done|]). intros x y Hx Hy Hborder Hne.
  destruct (cell_in_dims n m (maze st) x y (cv_dims _ _ _ _ Hcv) Hx Hy) as [c Hc].
  destruct (cv_cells _ _ _ _ Hcv _ _ Hc) as [->| ->]; [done|].
  apply (cv_open _ _ _ _ Hcv) in Hc. by destruct (Hint _ Hc).
Qed.

(** With odd dimensions the start cell is inside too, and the whole border
    stays walls. *)
Lemma border_kept_odd (n m : Z) (r : rng) :
  5 <= n -> 5 <= m -> odd n -> odd m ->
  exists g, generate_maze n m r = Ok g /\
    forall x y, 0 <= x < m -> 0 <= y < n -> ~ interior n m (x, y) ->
      cell g (x, y) = Some WALL.
Proof.
  intros Hn Hm Hon Hom.
  destruct (border_kept_but_start n m r Hn Hm)
    as (g & sx & sy & Hrun & Hox & Hoy & Hsx & Hsy & Hborder).
  exists g. split; [done|]. intros x y Hx Hy Hb. apply Hborder; try done.
  intros [= -> ->]. apply Hb. unfold interior. parity.
Qed.

(** C3 fails on the code: [range(1, m, 2)] reaches the last column when [m]
    is even (and [range(1, n, 2)] the last row when [n] is even), so the
    start cell can be a border cell.  A 5 by 6 maze whose draws all give 2
    starts at (5, 1), in the last column, and opens it. *)
Theorem border_cell_opened :
  exists g, generate_maze 5 6 (Rng (fun _ => 2%nat) O) = Ok g /\
            get_cell g (6 - 1) 1 = Ok OPEN.
Proof.
  eexists. split; vm_compute; reflexivity.
Qed.

(** ** Where a character is found after a cell is written *)

Lemma find_index_insert (c c0 c' : ascii) (row : list ascii) (i : nat) :
  row !! i = Some c0 -> c0 <> c -> c' <> c ->
  Py.find_index c (<[i := c']> row) = Py.find_index c row.
Proof.
  revert i. induction row as [|a row IH]; intros i Hi H0 H'; [done|].
  destruct i as [|i]; simpl in *.
  - injection Hi as ->. by rewrite !decide_False.
  - destruct (decide (a = c)); [done|]. by rewrite (IH i).
Qed.

Lemma scan_rows_insert (c : ascii) (g : grid) (row row' : list ascii) (j y0 : nat) :
  g !! j = Some row -> Py.find_index c row' = Py.find_index c row ->
  scan_rows y0 (<[j := row']> g) c = scan_rows y0 g c.
Proof.
  revert j y0. induction g as [|r g IH]; intros j y0 Hj Heq; [done|].
  destruct j as [|j]; simpl in *.
  - injection Hj as ->. by rewrite Heq.
  - destruct (Py.find_index c r); [done|]. by apply IH.
Qed.

Lemma coordinates_set_cell (c c0 c' : ascii) (g g' : grid) (x y : Z) :
  0 <= x -> 0 <= y -> cell g (x, y) = Some c0 -> c0 <> c -> c' <> c ->
  set_cell g x y c' = Ok g' ->
  get_character_coordinates g' c = get_character_coordinates g c.
Proof.
  intros Hx Hy Hc H0 H' Hset.
  destruct (set_cell_inv _ _ _ _ _ Hx Hy Hset) as (row & Hrow & _ & ->).
  unfold cell in Hc. simpl in Hc. rewrite decide_True in Hc by done.
  rewrite Hrow in Hc. simpl in Hc.
  apply (scan_rows_insert c g row); [done|]. by apply (find_index_insert c c0).
Qed.

Lemma find_index_complete (c : ascii) (row : list ascii) (i : nat) :
  row !! i = Some c -> is_Some (Py.find_index c row).
Proof.
  revert i. induction row as [|a row IH]; intros i Hi; [done|]. simpl.
  destruct (decide (a = c)); [by eexists|].
  destruct i as [|i]; simpl in Hi; [congruence|].
  destruct (IH i Hi) as [k ->]. by eexists.
Qed.

Lemma scan_rows_complete (c : ascii) (g : grid) (row : list ascii) (i j y0 : nat) :
  g !! j = Some row -> row !! i = Some c -> is_Some (scan_rows y0 g c).
Proof.
  revert j y0. induction g as [|r g IH]; intros j y0 Hj Hi; [done|]. simpl.
  destruct (Py.find_index c r) as [k|] eqn:Hr; [by eexists|].
  destruct j as [|j]; simpl in Hj.
  - injection Hj as ->. destruct (find_index_complete c row i Hi). congruence.
  - by apply (IH j).
Qed.

(** A character that occurs in one cell only is found there. *)
Lemma coordinates_unique (g : grid) (c : ascii) (p : Z * Z) :
  (forall q, cell g q = Some c <-> q = p) -> get_character_coordinates g c = Some p.
Proof.
  intros Hone. assert (cell g p = Some c) as Hp by by apply Hone.
  unfold cell in Hp. destruct (decide _) as [[? ?]|]; [|done].
  destruct (g !! Z.to_nat p.2) as [row|] eqn:Hrow; [|done]. simpl in Hp.
  destruct (scan_rows_complete c g row _ _ O Hrow Hp) as [q Hq].
  unfold get_character_coordinates. rewrite Hq. f_equal.
  apply Hone. by apply coordinates_cell.
Qed.

(** ** Candidates of a mover that occurs once *)

Lemma rectangular_dims (g g' : grid) :
  dims g' = dims g -> rectangular g -> rectangular g'.
Proof.
  unfold rectangular, dims. intros Hd Hrect row' Hin.
  assert (length (default [] (head g')) = length (default [] (head g))) as ->.
  { destruct g as [|r g], g' as [|r' g']; try done. simpl in *. congruence. }
  apply list_elem_of_lookup in Hin as [i Hi].
  assert ((length <$> g') !! i = Some (length row')) as Hl
    by (by rewrite list_lookup_fmap, Hi).
  rewrite Hd, list_lookup_fmap in Hl.
  destruct (g !! i) as [row|] eqn:Hrow; [|done]. simpl in Hl. injection Hl as <-.
  apply Hrect, list_elem_of_lookup. eauto.
Qed.

Lemma in_bounds_dims (g g' : grid) (q : Z * Z) :
  dims g' = dims g -> in_bounds g q -> in_bounds g' q.
Proof.
  unfold in_bounds, Py.len, dims. intros Hd.
  assert (length g' = length g) as ->.
  { apply (f_equal length) in Hd. by rewrite !length_fmap in Hd. }
  assert (length (default [] (head g')) = length (default [] (head g))) as ->; [|done].
  destruct g as [|r g], g' as [|r' g']; try done. simpl in *. congruence.
Qed.

(** ** A tag that occurs once *)

Lemma count_row_zero (c : ascii) (row : list ascii) (i : nat) :
  count_row c row = O -> row !! i <> Some c.
Proof.
  unfold count_row. revert i. induction row as [|a row IH]; intros i H Hi; [done|].
  destruct (decide (a = c)) as [->|Hne].
  - by rewrite filter_cons_True in H.
  - rewrite filter_cons_False in H by done.
    destruct i as [|i]; simpl in Hi; [congruence|]. by apply (IH i).
Qed.

Lemma count_row_one (c : ascii) (row : list ascii) (i j : nat) :
  count_row c row = 1%nat -> row !! i = Some c -> row !! j = Some c -> i = j.
Proof.
  unfold count_row. revert i j. induction row as [|a row IH]; intros i j H Hi Hj; [done|].
  destruct (decide (a = c)) as [->|Hne].
  - rewrite filter_cons_True in H by done. simpl in H. injection H as H.
    destruct i as [|i], j as [|j]; simpl in *; try done.
    + by destruct (count_row_zero c row j H).
    + by destruct (count_row_zero c row i H).
    + by destruct (count_row_zero c row i H).
  - rewrite filter_cons_False in H by done.
    destruct i as [|i], j as [|j]; simpl in *; try congruence.
    f_equal. by apply IH.
Qed.

Lemma count_cells_zero (c : ascii) (g : grid) (row : list ascii) (i j : nat) :
  count_cells c g = O -> g !! j = Some row -> row !! i <> Some c.
Proof.
  unfold count_cells. revert j. induction g as [|r g IH]; intros j H Hj; [done|].
  simpl in H. destruct j as [|j]; simpl in Hj.
  - injection Hj as ->. apply count_row_zero. lia.
  - apply (IH j); [lia|done].
Qed.

Lemma count_cells_one (c : ascii) (g : grid) (p q : Z * Z) :
  count_cells c g = 1%nat -> cell g p = Some c -> cell g q = Some c -> p = q.
Proof.
  destruct p as [px py], q as [qx qy]. unfold cell. simpl.
  destruct (decide (0 <= px /\ 0 <= py)) as [[? ?]|]; [|done].
  destruct (decide (0 <= qx /\ 0 <= qy)) as [[? ?]|]; [|done].
  assert (forall (i j i' j' : nat) (r r' : list ascii),
            count_cells c g = 1%nat ->
            g !! j = Some r -> r !! i = Some c ->
            g !! j' = Some r' -> r' !! i' = Some c -> i = i' /\ j = j') as Hnat.
  { clear. unfold count_cells. induction g as [|r0 g IH]; intros i j i' j' r r' H Hj Hi Hj' Hi';
      [done|]. simpl in H.
    destruct j as [|j], j' as [|j']; simpl in Hj, Hj'.
    - injection Hj as <-. injection Hj' as <-. split; [|done].
      apply (count_row_one c r0 i i'); [|done|done].
      destruct (count_row c r0) as [|k] eqn:Hk; [|lia].
      by destruct (count_row_zero c r0 i Hk).
    - injection Hj as <-. exfalso.
      destruct (count_row c r0) as [|k] eqn:Hk; [by destruct (count_row_zero c r0 i Hk)|].
      apply (count_cells_zero c g r' i' j'); [unfold count_cells; lia|done|done].
    - injection Hj' as <-. exfalso.
      destruct (count_row c r0) as [|k] eqn:Hk; [by destruct (count_row_zero c r0 i' Hk)|].
      apply (count_cells_zero c g r i j); [unfold count_cells; lia|done|done].
    - destruct (count_row c r0) as [|k] eqn:Hk.
      + destruct (IH i j i' j' r r') as [-> ->]; done.
      + exfalso.
        apply (count_cells_zero c g r i j); [unfold count_cells; lia|done|done]. }
  intros Hone Hp Hq.
  destruct (g !! Z.to_nat py) as [r|] eqn:Hr; [|done].
  destruct (g !! Z.to_nat qy) as [r'|] eqn:Hr'; [|done]. simpl in Hp, Hq.
  destruct (Hnat _ _ _ _ _ _ Hone Hr Hp Hr' Hq) as [? ?]. f_equal; lia.
Qed.

Lemma cell_nonneg (g : grid) (q : Z * Z) (c : ascii) :
  cell g q = Some c -> 0 <= q.1 /\ 0 <= q.2.
Proof. unfold cell. by destruct (decide _). Qed.

(** One candidate of a mover that occurs once: the mover is found on its
    new cell and the target where it was. *)
Lemma candidate_coordinates (g g' : grid) (c1 c2 : ascii) (x y : Z) (p t : Z * Z) :
  rectangular g -> c1 <> c2 -> c1 <> OPEN -> c2 <> OPEN ->
  count_cells c1 g = 1%nat ->
  get_character_coordinates g c1 = Some (x, y) ->
  get_character_coordinates g c2 = Some t ->
  cell g p = Some OPEN -> p <> (x, y) ->
  moved_grid g c1 x y p = Ok g' ->
  rectangular g' /\ moved g g' c1 (x, y) p /\
  get_character_coordinates g' c1 = Some p /\
  get_character_coordinates g' c2 = Some t.
Proof.
  intros Hrect H12 H1 H2 Hone Hc1 Hc2 Hp Hpne Hmv.
  pose proof (coordinates_cell _ _ _ Hc1) as Hxy.
  destruct (cell_nonneg _ _ _ Hxy) as [Hx Hy]. destruct (cell_nonneg _ _ _ Hp) as [Hp1 Hp2].
  simpl in Hx, Hy.
  pose proof (moved_grid_moved _ _ _ _ _ _ Hx Hy Hp1 Hp2 Hmv) as Hmoved.
  pose proof Hmoved as [Hd Hcell].
  split; [by apply (rectangular_dims g)|]. split; [done|]. split.
  - apply coordinates_unique. intros q. rewrite Hcell.
    destruct (decide (q = p)) as [->|Hqp]; [done|].
    destruct (decide (q = (x, y))) as [->|Hqxy].
    + split; [|done]. intros [= ?]. congruence.
    + split; [|done]. intros Hq. destruct Hqxy. by apply (count_cells_one c1 g).
  - unfold moved_grid in Hmv.
    destruct (set_cell g x y OPEN) as [g1| |] eqn:Hg1; simpl in Hmv; try done.
    rewrite <- Hc2. destruct p as [px py]. simpl in *.
    rewrite (coordinates_set_cell c2 OPEN c1 g1 g' px py); [|done|done| |done|done|done].
    + apply (coordinates_set_cell c2 c1 OPEN g g1 x y); done || congruence.
    + apply set_cell_written in Hg1 as [_ Hw]; [|done..]. rewrite Hw.
      by rewrite decide_False.
Qed.

(** ** The target is reachable from every candidate or from none *)

Section TwoCandidates.

Variables (g gA gB : list (list ascii)) (c1 : ascii) (P0 A B t : Z * Z).
Hypothesis Hc1 : c1 <> OPEN.
Hypothesis HP0 : in_bounds g P0.
Hypothesis HA : moved g gA c1 P0 A.
Hypothesis HB : moved g gB c1 P0 B.
Hypothesis HAopen : cell g A = Some OPEN.
Hypothesis HAin : in_bounds g A.
Hypothesis HAadj : adjacent P0 A.
Hypothesis HBadj : adjacent P0 B.
Hypothesis HAne : A <> P0.
Hypothesis HBne : B <> P0.

Lemma candidate_cell_open (w : Z * Z) :
  w <> B -> cell gA w = Some OPEN -> cell gB w = Some OPEN.
Proof.
  destruct HA as [_ HcA], HB as [_ HcB]. intros HwB. rewrite HcA, HcB.
  rewrite (decide_False (P := w = B)) by done.
  destruct (decide (w = A)) as [->|_]; [intros [= ?]; congruence|].
  by destruct (decide (w = P0)).
Qed.

Lemma candidate_walk (w : Z * Z) (k : Z) :
  walk gA t A w k -> exists k', walk gB t B w k'.
Proof.
  destruct HA as [HdA HcA], HB as [HdB HcB].
  induction 1 as [|w w' k Hw IH [Hdir [Hin Hpass]]].
  - destruct (decide (A = B)) as [->|HAB]; [exists 0; constructor|].
    exists (0 + 1 + 1).
    apply (walk_on gB t B P0 A (0 + 1)).
    + apply (walk_on gB t B B P0 0); [constructor|].
      split; [by apply adjacent_neighbour, adjacent_sym|].
      split; [by apply (in_bounds_dims g)|]. left.
      rewrite HcB. rewrite decide_False by done. by rewrite decide_True.
    + split; [by apply adjacent_neighbour|].
      split; [by apply (in_bounds_dims g)|]. left.
      rewrite HcB. by rewrite !decide_False.
  - destruct (decide (w' = B)) as [->|HwB]; [exists 0; constructor|].
    destruct IH as [k' Hk']. exists (k' + 1).
    apply (walk_on gB t B w w' k' Hk'). split; [done|]. split.
    + apply (in_bounds_dims g); [done|]. by apply (in_bounds_dims gA).
    + destruct Hpass as [Ho|?]; [left|by right]. by apply candidate_cell_open.
Qed.

End TwoCandidates.

Lemma shortest_unreachable (g : grid) (s t : Z * Z) (d : Z) :
  shortest g s t d -> (d = -1 <-> forall k, ~ walk g t s t k).
Proof.
  intros [[-> Hno]|[Hp Hmin]].
  - split; [|done]. intros _ k Hw.
    destruct (walk_path _ _ _ _ Hw) as (k' & _ & Hk'). by apply (Hno k').
  - pose proof (path_between_nonneg _ _ _ _ Hp). split; [lia|].
    intros Hno. destruct (Hno d). by apply path_walk.
Qed.

(** ** [min] over a map object *)

Lemma min_loop_least {A B} (f : A -> result B) (key : B -> Z) (best : B) (rest : list A) :
  (forall a, a ∈ rest -> exists b, f a = Ok b) ->
  exists b, Py.min_loop f key best rest = Ok b /\
    (b = best \/ exists a, a ∈ rest /\ f a = Ok b) /\
    key b <= key best /\
    forall a b', a ∈ rest -> f a = Ok b' -> key b <= key b'.
Proof.
  revert best. induction rest as [|a rest IH]; intros best Hall; simpl.
  - exists best. split; [done|]. split; [by left|]. split; [lia|].
    intros a b' Ha. by apply elem_of_nil in Ha.
  - destruct (Hall a) as [b0 Hb0]; [apply list_elem_of_here|]. rewrite Hb0. simpl.
    destruct (IH (if key b0 <? key best then b0 else best)) as (b & Hrun & Hfrom & Hle & Hmin).
    { intros a' Ha'. by apply Hall, list_elem_of_further. }
    exists b. split; [done|].
    destruct (Z.ltb_spec (key b0) (key best)) as [Hlt|Hge].
    + split.
      { right. destruct Hfrom as [->|(a' & Ha' & Hb')].
        - exists a. split; [apply list_elem_of_here|done].
        - exists a'. split; [by apply list_elem_of_further|done]. }
      split; [lia|]. intros a' b' Ha' Hb'.
      apply elem_of_cons in Ha' as [->|Ha']; [|by apply (Hmin a')].
      rewrite Hb0 in Hb'. injection Hb' as <-. done.
    + split.
      { destruct Hfrom as [->|(a' & Ha' & Hb')]; [by left|].
        right. exists a'. split; [by apply list_elem_of_further|done]. }
      split; [lia|]. intros a' b' Ha' Hb'.
      apply elem_of_cons in Ha' as [->|Ha']; [|by apply (Hmin a')].
      rewrite Hb0 in Hb'. injection Hb' as <-. lia.
Qed.

Lemma find_best_move_least (grids : list grid) (first : grid) (rest : list grid)
    (score : grid -> result Z) :
  grids = first :: rest ->
  (forall c, c ∈ grids -> exists d, score c = Ok d) ->
  exists best d,
    find_best_move (Py.Map (fun c => d ← score c; Ok (c, d)) grids) = Ok (Some best) /\
    best ∈ grids /\ score best = Ok d /\
    forall c d', c ∈ grids -> score c = Ok d' -> d <= d'.
Proof.
  intros -> Hall. unfold find_best_move, Py.min_key. simpl.
  destruct (Hall first) as [d0 Hd0]; [apply list_elem_of_here|]. rewrite Hd0. simpl.
  destruct (min_loop_least (fun c => d ← score c; Ok (c, d)) snd (first, d0) rest)
    as ([best d] & Hrun & Hfrom & Hle & Hmin).
  { intros c Hc. destruct (Hall c) as [d Hd]; [by apply list_elem_of_further|].
    rewrite Hd. by eexists. }
  rewrite Hrun. simpl. exists best, d. split; [done|].
  assert (best ∈ first :: rest /\ score best = Ok d) as [Hin Hscore].
  { destruct Hfrom as [[= -> ->]|(c & Hc & Hb)]; [split; [apply list_elem_of_here|done]|].
    destruct (score c) as [dc| |] eqn:Hdc; simpl in Hb; try done.
    injection Hb as -> ->. split; [by apply list_elem_of_further|done]. }
  split; [done|]. split; [done|].
  intros c d' Hc Hd'. apply elem_of_cons in Hc as [->|Hc].
  - rewrite Hd0 in Hd'. injection Hd' as <-. done.
  - apply (Hmin c (c, d') Hc). by rewrite Hd'.
Qed.

Lemma find_best_move_first (first : grid) (rest : list grid)
    (score : grid -> result Z) (k : Z) :
  (forall c, c ∈ first :: rest -> score c = Ok k) ->
  find_best_move (Py.Map (fun c => d ← score c; Ok (c, d)) (first :: rest))
    = Ok (Some first).
Proof.
  intros Hall. unfold find_best_move, Py.min_key. simpl.
  rewrite (Hall first) by apply list_elem_of_here. simpl.
  rewrite min_loop_keeps; [done|].
  intros c Hc. exists (c, k). split; [|done].
  rewrite (Hall c) by (by apply list_elem_of_further). done.
Qed.

(** Every candidate of a mover that occurs once has a path distance, and
    the target is reachable from all of them or from none. *)
Lemma candidates_scores (g : grid) (c1 c2 : ascii) (t : Z * Z) (l : list grid) :
  rectangular g -> count_cells c1 g = 1%nat ->
  c1 <> c2 -> c1 <> OPEN -> c2 <> OPEN ->
  get_character_coordinates g c2 = Some t ->
  generate_possible_moves g c1 = Ok l ->
  (forall c, c ∈ l -> exists d, calculate_path_distance c c1 c2 = Ok d) /\
  (forall c c' d d', c ∈ l -> c' ∈ l ->
     calculate_path_distance c c1 c2 = Ok d ->
     calculate_path_distance c' c1 c2 = Ok d' -> d = -1 -> d' = -1).
Proof.
  intros Hrect Hone H12 H1 H2 Ht Hgen.
  destruct (get_character_coordinates g c1) as [[x y]|] eqn:Hc1.
  2:{ unfold generate_possible_moves in Hgen. by rewrite Hc1 in Hgen. }
  destruct (candidates_spec g c1 x y Hrect Hc1) as (moves & l' & Hmoves & Hl' & Hspec & Hall).
  assert (l' = l) as ->.
  { unfold generate_possible_moves in Hgen. rewrite Hc1, Hmoves in Hgen.
    simpl in Hgen. congruence. }
  pose proof (coordinates_in_bounds _ _ _ Hrect Hc1) as HP0.
  assert (forall c, c ∈ l -> exists p d,
            p ∈ possible_moves x y /\ in_bounds g p /\ cell g p = Some OPEN /\
            moved g c c1 (x, y) p /\
            calculate_path_distance c c1 c2 = Ok d /\ shortest c p t d) as Hcand.
  { intros c Hc. apply list_elem_of_lookup in Hc as [i Hi].
    destruct (Forall2_lookup_r _ _ _ _ _ Hall Hi) as (p & Hp & Hmv).
    assert (p ∈ moves) as Hpin by (apply list_elem_of_lookup; eauto).
    destruct (Hspec p Hpin) as (Hposs & Hin & Hopen).
    destruct (possible_moves_adjacent _ _ _ Hposs) as [_ Hne].
    destruct (candidate_coordinates g c c1 c2 x y p t) as (Hrc & Hmoved & Hp1 & Hp2);
      try done.
    destruct (calculate_path_distance_shortest c c1 c2 p t Hrc Hp1 Hp2) as (d & Hd & Hs).
    exists p, d. done. }
  split.
  - intros c Hc. destruct (Hcand c Hc) as (p & d & _ & _ & _ & _ & Hd & _). eauto.
  - intros c c' d d' Hc Hc' Hd Hd' ->.
    destruct (Hcand c Hc) as (p & d0 & Hposs & Hin & Hopen & Hmoved & Hd0 & Hs).
    destruct (Hcand c' Hc') as (p' & d0' & Hposs' & Hin' & Hopen' & Hmoved' & Hd0' & Hs').
    rewrite Hd in Hd0. injection Hd0 as <-. rewrite Hd' in Hd0'. injection Hd0' as <-.
    destruct (possible_moves_adjacent _ _ _ Hposs) as [Hadj Hne].
    destruct (possible_moves_adjacent _ _ _ Hposs') as [Hadj' Hne'].
    apply (shortest_unreachable _ _ _ _ Hs'). intros k Hw.
    destruct (candidate_walk g c' c c1 (x, y) p' p t H1 HP0 Hmoved' Hmoved
                Hopen' Hin' Hadj' Hadj Hne' Hne t k Hw) as [k' Hk'].
    by apply (proj1 (shortest_unreachable _ _ _ _ Hs) eq_refl k').
Qed.

(** C4 (amended).  On a rectangular grid in which the mover's tag occurs
    once, the target's tag is another one and neither is [' '], and the mover
    has a legal candidate: [make_smart_move] selects a candidate of least
    score; the target is reachable from every candidate or from none, so no
    unreachable candidate is taken while a reachable one exists; and when
    the target is unreachable from every candidate the selected move is the
    first candidate in enumeration order (up, down, left, right). *)
Theorem make_smart_move_selection (s : string) (c1 c2 : ascii) (t : Z * Z)
    (first : grid) (rest : list grid) :
  rectangular (parse_grid s) ->
  count_cells c1 (parse_grid s) = 1%nat ->
  c1 <> c2 -> c1 <> OPEN -> c2 <> OPEN ->
  get_character_coordinates (parse_grid s) c2 = Some t ->
  generate_possible_moves (parse_grid s) c1 = Ok (first :: rest) ->
  exists best d,
    make_smart_move s c1 c2 = Ok (grid_to_string best) /\
    best ∈ first :: rest /\
    calculate_path_distance best c1 c2 = Ok d /\
    (forall c, c ∈ first :: rest ->
       exists d', calculate_path_distance c c1 c2 = Ok d' /\ d <= d' /\
                  (d = -1 <-> d' = -1)) /\
    (d = -1 -> best = first).
Proof.
  intros Hrect Hone H12 H1 H2 Ht Hgen.
  destruct (candidates_scores _ c1 c2 t _ Hrect Hone H12 H1 H2 Ht Hgen) as [Hscore Hsame].
  destruct (find_best_move_least (first :: rest) first rest
              (fun c => calculate_path_distance c c1 c2) eq_refl Hscore)
    as (best & d & Hbest & Hin & Hd & Hmin).
  exists best, d. split; [|split; [done|split; [done|split]]].
  - unfold make_smart_move. rewrite Hgen. cbn [mbind result_bind].
    unfold calculate_path_distances. rewrite Hbest. done.
  - intros c Hc. destruct (Hscore c Hc) as [d' Hd']. exists d'.
    split; [done|]. split; [by apply (Hmin c)|].
    split; intros ?; [by apply (Hsame best c d d')|by apply (Hsame c best d' d)].
  - intros ->.
    assert (forall c, c ∈ first :: rest -> calculate_path_distance c c1 c2 = Ok (-1)) as Hall.
    { intros c Hc. destruct (Hscore c Hc) as [d' Hd']. rewrite Hd'. f_equal.
      by apply (Hsame best c (-1) d'). }
    rewrite (find_best_move_first first rest _ (-1) Hall) in Hbest. congruence.
Qed.

Lemma make_smart_move_selection_witness :
  exists first rest,
    generate_possible_moves (parse_grid two_regions) "P" = Ok (first :: rest) /\
    exists best d,
      make_smart_move two_regions "P" "O" = Ok (grid_to_string best) /\
      best ∈ first :: rest /\
      calculate_path_distance best "P" "O" = Ok d /\
      (forall c, c ∈ first :: rest ->
         exists d', calculate_path_distance c "P" "O" = Ok d' /\ d <= d' /\
                    (d = -1 <-> d' = -1)) /\
      (d = -1 -> best = first).
Proof.
  eexists _, _. split; [vm_compute; reflexivity|].
  apply (make_smart_move_selection two_regions "P" "O" (3, 3)).
  - intros row H. vm_compute in H.
    repeat (apply elem_of_cons in H as [->|H]); try reflexivity.
    by apply elem_of_nil in H.
  - vm_compute. reflexivity.
  - discriminate.
  - discriminate.
  - discriminate.
  - vm_compute. reflexivity.
  - vm_compute. reflexivity.
Defined.

(** * Further properties of the code *)

(** ** Rendering a parsed text *)

Section RenderParsed.

Local Open Scope string_scope.
Local Arguments String.append !_ _ / : simpl nomatch.

Lemma split_nonempty (sep : ascii) (s : string) : Py.split sep s <> [].
Proof.
  destruct s as [|c s]; simpl; [done|].
  destruct (decide (c = sep)); [done|]. by destruct (Py.split sep s).
Qed.

Lemma join_cons_char (sep : string) (c : ascii) (w : string) (ws : list string) :
  Py.join sep (String c w :: ws) = String c (Py.join sep (w :: ws)).
Proof. by destruct ws. Qed.

Lemma join_split (sep : ascii) (s : string) :
  Py.join (String sep "") (Py.split sep s) = s.
Proof.
  induction s as [|c s IH]; [done|]. simpl.
  destruct (decide (c = sep)) as [->|Hne].
  - pose proof (split_nonempty sep s) as Hs.
    destruct (Py.split sep s) as [|w ws]; [done|].
    change (Py.join (String sep "") ("" :: w :: ws))
      with (String sep (Py.join (String sep "") (w :: ws))).
    by rewrite IH.
  - pose proof (split_nonempty sep s) as Hs.
    destruct (Py.split sep s) as [|w ws]; [done|].
    rewrite join_cons_char. by rewrite IH.
Qed.

Lemma lstrip_fixed (s : string) : Py.lstrip (Py.lstrip s) = Py.lstrip s.
Proof.
  induction s as [|c s IH]; [done|]. simpl.
  destruct (Py.isspace c) eqn:Hc; [done|]. simpl. by rewrite Hc.
Qed.

Lemma rstrip_fixed (s : string) : Py.rstrip (Py.rstrip s) = Py.rstrip s.
Proof.
  induction s as [|c s IH]; [done|]. simpl.
  destruct (Py.rstrip s) as [|c' r] eqn:Hr.
  - destruct (Py.isspace c) eqn:Hc; [done|]. simpl. by rewrite Hc.
  - change (Py.rstrip (String c (String c' r)))
      with (match Py.rstrip (String c' r) with
            | "" => if Py.isspace c then "" else String c ""
            | r0 => String c r0
            end).
    by rewrite IH.
Qed.

Lemma rstrip_head (c : ascii) (s : string) :
  Py.isspace c = false -> exists r, Py.rstrip (String c s) = String c r.
Proof.
  intros Hc. simpl. destruct (Py.rstrip s); [rewrite Hc|]; by eexists.
Qed.

Lemma strip_fixed (s : string) : Py.strip (Py.strip s) = Py.strip s.
Proof.
  unfold Py.strip.
  assert (Py.lstrip (Py.rstrip (Py.lstrip s)) = Py.rstrip (Py.lstrip s)) as ->.
  { assert (Py.lstrip s = "" \/ exists c t, Py.lstrip s = String c t /\ Py.isspace c = false)
      as [->|(c & t & -> & Hc)].
    { induction s as [|c s IH]; [by left|]. simpl.
      destruct (Py.isspace c) eqn:Hc; [done|]. right. by exists c, s. }
    - done.
    - destruct (rstrip_head c t Hc) as [r ->]. simpl. by rewrite Hc. }
  apply rstrip_fixed.
Qed.

End RenderParsed.

Lemma render_parsed_lines (l : list string) :
  string_of_list_ascii <$> (list_ascii_of_string <$> l) = l.
Proof.
  rewrite <- list_fmap_compose. rewrite <- (list_fmap_id l) at 2.
  apply list_fmap_ext. intros _ w _. simpl. apply string_of_list_ascii_of_string.
Qed.

(** X1.  Rendering a parsed text gives the text back, stripped: for every
    string [s], [grid_to_string(parse_grid(s))] is [s.strip()]. *)
Theorem grid_to_string_parse_grid (s : string) :
  grid_to_string (parse_grid s) = Py.strip s.
Proof.
  unfold grid_to_string, parse_grid. rewrite render_parsed_lines. apply join_split.
Qed.

(** X2.  Every grid that [parse_grid] returns survives the round trip:
    parsing its rendering gives the same grid, whatever the text was. *)
Theorem parse_grid_round_trip (s : string) :
  parse_grid (grid_to_string (parse_grid s)) = parse_grid s.
Proof.
  unfold grid_to_string. unfold parse_grid at 2.
  rewrite render_parsed_lines, join_split. unfold parse_grid. by rewrite strip_fixed.
Qed.

(** ** Where a character is found *)

Lemma find_index_least (c : ascii) (row : list ascii) (x i : nat) :
  Py.find_index c row = Some x -> row !! i = Some c -> (x <= i)%nat.
Proof.
  revert x i. induction row as [|a row IH]; intros x i; simpl; [done|].
  destruct (decide (a = c)) as [->|Hne].
  - intros [= <-] _. lia.
  - destruct (Py.find_index c row) as [x'|] eqn:Hx; simpl; [|done].
    intros [= <-] Hi. destruct i as [|i]; simpl in Hi; [congruence|].
    specialize (IH x' i eq_refl Hi). lia.
Qed.

Lemma scan_rows_least (c : ascii) (g : grid) (y0 : nat) (x y : Z)
    (i j : nat) (row : list ascii) :
  scan_rows y0 g c = Some (x, y) -> g !! j = Some row -> row !! i = Some c ->
  y < Z.of_nat (y0 + j) \/ (y = Z.of_nat (y0 + j) /\ x <= Z.of_nat i).
Proof.
  revert y0 j. induction g as [|r g IH]; intros y0 j; simpl; [done|].
  destruct (Py.find_index c r) as [x0|] eqn:Hx0.
  - intros [= <- <-] Hj Hi. destruct j as [|j]; simpl in Hj.
    + injection Hj as ->. right. split; [lia|].
      pose proof (find_index_least c row x0 i Hx0 Hi). lia.
    + left. lia.
  - intros Hs Hj Hi. destruct j as [|j]; simpl in Hj.
    + injection Hj as ->. destruct (find_index_complete c row i Hi). congruence.
    + destruct (IH (S y0) j Hs Hj Hi) as [?|[? ?]]; [left|right]; lia.
Qed.

Lemma coordinates_least (g : grid) (c : ascii) (x y x' y' : Z) :
  get_character_coordinates g c = Some (x, y) -> cell g (x', y') = Some c ->
  y < y' \/ (y = y' /\ x <= x').
Proof.
  intros Hc Hcell. unfold cell in Hcell. simpl in Hcell.
  destruct (decide (0 <= x' /\ 0 <= y')) as [[? ?]|]; [|done].
  destruct (g !! Z.to_nat y') as [row|] eqn:Hrow; [|done]. simpl in Hcell.
  destruct (scan_rows_least c g O x y _ _ row Hc Hrow Hcell) as [?|[? ?]];
    [left|right]; lia.
Qed.

Lemma coordinates_found (g : grid) (c : ascii) (p : Z * Z) :
  cell g p = Some c -> is_Some (get_character_coordinates g c).
Proof.
  unfold cell. destruct (decide _); [|done].
  destruct (g !! Z.to_nat p.2) as [row|] eqn:Hrow; [|done]. simpl. intros Hc.
  by apply (scan_rows_complete c g row (Z.to_nat p.1) (Z.to_nat p.2) O).
Qed.

(** X3.  [get_character_coordinates] returns the first cell, in row-major
    order, that holds the character: (x, y) is returned exactly when the cell
    at column x of row y holds it and no cell of an earlier row, or earlier in
    row y, does. *)
Theorem get_character_coordinates_first (g : grid) (c : ascii) (x y : Z) :
  get_character_coordinates g c = Some (x, y) <->
  cell g (x, y) = Some c /\
  forall x' y', cell g (x', y') = Some c -> y < y' \/ (y = y' /\ x <= x').
Proof.
  split.
  - intros Hc. split; [by apply coordinates_cell|].
    intros x' y'. by apply coordinates_least.
  - intros [Hcell Hleast].
    destruct (coordinates_found g c (x, y) Hcell) as [[qx qy] Hq].
    rewrite Hq. f_equal.
    pose proof (coordinates_cell _ _ _ Hq) as Hqcell.
    pose proof (coordinates_least g c qx qy x y Hq Hcell).
    pose proof (Hleast qx qy Hqcell). f_equal; lia.
Qed.

(** X4.  [get_character_coordinates] returns [None] exactly when no cell of
    the grid holds the character. *)
Theorem get_character_coordinates_none (g : grid) (c : ascii) :
  get_character_coordinates g c = None <-> forall p, cell g p <> Some c.
Proof.
  split.
  - intros Hnone p Hp. destruct (coordinates_found g c p Hp). congruence.
  - intros Habsent. destruct (get_character_coordinates g c) as [p|] eqn:Hp; [|done].
    by destruct (Habsent p (coordinates_cell _ _ _ Hp)).
Qed.

(** ** Straight-line and path distance *)

Lemma open_path_manhattan (g : grid) (s w : Z * Z) (k : Z) :
  open_path g s w k -> Z.abs (s.1 - w.1) + Z.abs (s.2 - w.2) <= k.
Proof.
  induction 1 as [|w w' k Hp IH Hadj _]; [lia|]. unfold adjacent in Hadj. lia.
Qed.

(** X5.  The Manhattan distance never exceeds the path distance: on a
    rectangular grid that holds both characters, [calculate_distance] and
    [calculate_path_distance] both return, and whenever a path exists the
    former is at most the latter. *)
Theorem calculate_distance_le_path (g : grid) (a b : ascii) (s t : Z * Z) :
  rectangular g ->
  get_character_coordinates g a = Some s ->
  get_character_coordinates g b = Some t ->
  exists m d, calculate_distance g a b = Ok m /\
              calculate_path_distance g a b = Ok d /\
              (d <> -1 -> m <= d).
Proof.
  intros Hrect Hs Ht.
  destruct (calculate_path_distance_shortest g a b s t Hrect Hs Ht) as (d & Hd & Hshort).
  unfold calculate_distance. rewrite Hs, Ht. destruct s as [x1 y1], t as [x2 y2].
  eexists _, d. split; [done|]. split; [done|]. intros Hne.
  destruct Hshort as [[? _]|[Hp _]]; [done|].
  destruct Hp as [[[= -> ->] ->]|(w & Hw & Hadj & _)]; [lia|].
  apply open_path_manhattan in Hw. unfold adjacent in Hadj. simpl in *. lia.
Qed.

Lemma calculate_distance_le_path_witness :
  exists m d, calculate_distance (parse_grid open_room) "P" "O" = Ok m /\
              calculate_path_distance (parse_grid open_room) "P" "O" = Ok d /\
              (d <> -1 -> m <= d).
Proof.
  apply (calculate_distance_le_path (parse_grid open_room) "P" "O" (1, 1) (3, 3)).
  - intros row H. vm_compute in H.
    repeat (apply elem_of_cons in H as [->|H]); try reflexivity.
    by apply elem_of_nil in H.
  - vm_compute. reflexivity.
  - vm_compute. reflexivity.
Defined.

(** ** Missing characters *)

Lemma filter_r_inv {A} (f : A -> result bool) (l l' : list A) (a : A) :
  filter_r f l = Ok l' -> a ∈ l' -> a ∈ l /\ f a = Ok true.
Proof.
  revert l'. induction l as [|a0 l IH]; intros l'; simpl.
  - intros [= <-] Ha. by apply elem_of_nil in Ha.
  - destruct (f a0) as [b| |] eqn:Hb; simpl; try done.
    destruct (filter_r f l) as [rest| |]; simpl; try done.
    intros [= <-] Ha. destruct b.
    + apply elem_of_cons in Ha as [->|Ha].
      * split; [apply list_elem_of_here|done].
      * destruct (IH rest eq_refl Ha). split; [by apply list_elem_of_further|done].
    + destruct (IH rest eq_refl Ha). split; [by apply list_elem_of_further|done].
Qed.

(** Every grid [generate_possible_moves] returns is the input with the mover
    moved to a cell that was open. *)
Lemma candidate_moved (g c : grid) (char : ascii) (l : list grid) :
  generate_possible_moves g char = Ok l -> c ∈ l ->
  exists x y p, get_character_coordinates g char = Some (x, y) /\
    p ∈ possible_moves x y /\ in_bounds g p /\ cell g p = Some OPEN /\
    moved_grid g char x y p = Ok c /\ moved g c char (x, y) p.
Proof.
  unfold generate_possible_moves, valid_moves. intros Hgen Hc.
  destruct (get_character_coordinates g char) as [[x y]|] eqn:Hxy; [|done].
  destruct (filter_r (is_valid_move g) (possible_moves x y)) as [moves| |] eqn:Hmoves;
    simpl in Hgen; try done.
  apply map_r_Forall2 in Hgen.
  apply list_elem_of_lookup in Hc as [i Hi].
  destruct (Forall2_lookup_r _ _ _ _ _ Hgen Hi) as (p & Hp & Hmv).
  assert (p ∈ moves) as Hpin by (apply list_elem_of_lookup; eauto).
  destruct (filter_r_inv _ _ _ _ Hmoves Hpin) as [Hposs Hvalid].
  apply is_valid_move_open in Hvalid as [Hb Hopen];
    [|by eapply coordinates_nonempty].
  destruct (cell_nonneg _ _ _ (coordinates_cell _ _ _ Hxy)) as [Hx Hy]. simpl in Hx, Hy.
  pose proof Hb as [[? _] [? _]].
  exists x, y, p. split; [done|]. split; [done|]. split; [done|]. split.
  - destruct p as [px py]. simpl in *. by apply get_cell_nonneg.
  - split; [done|]. by apply moved_grid_moved.
Qed.

(** X6.  When no cell holds the mover's character, [generate_possible_moves],
    [make_move] and [make_smart_move] all raise the "not found" [ValueError]. *)
Theorem absent_mover_raises (s : string) (char1 char2 : ascii) :
  (forall p, cell (parse_grid s) p <> Some char1) ->
  generate_possible_moves (parse_grid s) char1 = Raise not_found /\
  make_move s char1 char2 = Raise not_found /\
  make_smart_move s char1 char2 = Raise not_found.
Proof.
  intros Habsent.
  assert (generate_possible_moves (parse_grid s) char1 = Raise not_found) as Hgen.
  { unfold generate_possible_moves.
    destruct (get_character_coordinates (parse_grid s) char1) as [p|] eqn:Hp; [|done].
    by destruct (Habsent p (coordinates_cell _ _ _ Hp)). }
  unfold make_move, make_smart_move. by rewrite Hgen.
Qed.

Lemma absent_mover_raises_witness :
  generate_possible_moves (parse_grid "") "P" = Raise not_found /\
  make_move "" "P" "O" = Raise not_found /\
  make_smart_move "" "P" "O" = Raise not_found.
Proof.
  apply (absent_mover_raises "" "P" "O").
  intros [x y]. unfold cell. simpl. destruct (decide _); [|done].
  destruct (Z.to_nat y) as [|?]; [|done]. simpl. by destruct (Z.to_nat x).
Defined.

(** X7.  When the mover has a legal candidate but no cell holds the target's
    character (a character other than the mover's and [' ']), [make_move] and
    [make_smart_move] raise the "not found" [ValueError]: the score of the
    first candidate is computed inside [min] and raises there. *)
Theorem absent_target_raises (s : string) (char1 char2 : ascii)
    (first : grid) (rest : list grid) :
  generate_possible_moves (parse_grid s) char1 = Ok (first :: rest) ->
  char2 <> char1 -> char2 <> OPEN ->
  (forall p, cell (parse_grid s) p <> Some char2) ->
  make_move s char1 char2 = Raise not_found /\
  make_smart_move s char1 char2 = Raise not_found.
Proof.
  intros Hgen H21 H2 Habsent.
  destruct (candidate_moved _ first _ _ Hgen (list_elem_of_here _ _))
    as (x & y & p & _ & _ & _ & _ & _ & [_ Hcell]).
  assert (get_character_coordinates first char2 = None) as Hnone.
  { destruct (get_character_coordinates first char2) as [q|] eqn:Hq; [|done].
    apply coordinates_cell in Hq. rewrite Hcell in Hq.
    destruct (decide (q = p)); [congruence|].
    destruct (decide (q = (x, y))); [congruence|]. by destruct (Habsent q). }
  unfold make_move, make_smart_move. rewrite Hgen. cbn [mbind result_bind].
  unfold find_best_move, Py.min_key, calculate_distances, calculate_path_distances.
  cbn [Py.truthy negb Py.map_src Py.map_fn].
  unfold calculate_distance, calculate_path_distance. rewrite Hnone.
  by destruct (get_character_coordinates first char1) as [[? ?]|].
Qed.

Lemma absent_target_raises_witness :
  exists first rest,
    generate_possible_moves (parse_grid open_room) "P" = Ok (first :: rest) /\
    make_move open_room "P" "X" = Raise not_found /\
    make_smart_move open_room "P" "X" = Raise not_found.
Proof.
  eexists _, _. split; [vm_compute; reflexivity|].
  eapply (absent_target_raises open_room "P" "X").
  - vm_compute. reflexivity.
  - discriminate.
  - discriminate.
  - intros [x y] H. unfold cell in H. simpl in H. destruct (decide _) as [[? ?]|]; [|done].
    vm_compute parse_grid in H.
    destruct (Z.to_nat y) as [|[|[|[|[|?]]]]]; simpl in H; try done;
      destruct (Z.to_nat x) as [|[|[|[|[|?]]]]]; simpl in H; done.
Defined.

(** ** One move of the agents *)

Lemma adjacent_possible_moves (x y : Z) (p : Z * Z) :
  adjacent (x, y) p -> p ∈ possible_moves x y.
Proof.
  unfold adjacent, possible_moves. destruct p as [px py]. simpl. intros H.
  assert ((px = x /\ py = y - 1) \/ (px = x /\ py = y + 1) \/
          (px = x - 1 /\ py = y) \/ (px = x + 1 /\ py = y))
    as [[-> ->]|[[-> ->]|[[-> ->]|[-> ->]]]] by lia; set_solver.
Qed.

(** Every open neighbour of the mover yields a candidate. *)
Lemma candidates_complete (g : grid) (c : ascii) (x y : Z) (l : list grid) (p : Z * Z) :
  rectangular g -> get_character_coordinates g c = Some (x, y) ->
  generate_possible_moves g c = Ok l -> adjacent (x, y) p -> is_open g p ->
  exists c', c' ∈ l /\ moved_grid g c x y p = Ok c'.
Proof.
  intros Hrect Hc Hgen Hadj [Hb Ho].
  pose proof (coordinates_nonempty _ _ _ Hc) as Hg.
  unfold generate_possible_moves, valid_moves in Hgen. rewrite Hc in Hgen.
  destruct (filter_r_total (is_valid_move g) (possible_moves x y)) as (moves & Hmoves & Hin).
  { intros q _. by apply is_valid_move_total. }
  rewrite Hmoves in Hgen. simpl in Hgen. apply map_r_Forall2 in Hgen.
  assert (p ∈ moves) as Hp.
  { apply Hin. split; [by apply adjacent_possible_moves|].
    rewrite is_valid_move_unfold by done. rewrite bool_decide_eq_true_2 by done.
    destruct Hb as [[? _] [? _]].
    assert (get_cell g p.1 p.2 = Ok OPEN) as ->.
    { apply get_cell_nonneg; [done..|]. by destruct p. }
    cbn [mbind result_bind]. by rewrite bool_decide_eq_true_2. }
  apply list_elem_of_lookup in Hp as [i Hi].
  destruct (Forall2_lookup_l _ _ _ _ _ Hgen Hi) as (c' & Hc' & Hmv).
  exists c'. split; [|done]. apply list_elem_of_lookup. eauto.
Qed.

Lemma open_path_zero (g : grid) (s w : Z * Z) : open_path g s w 0 -> w = s.
Proof.
  inversion 1 as [|w0 w' k Hp]; [done|]. apply open_path_nonneg in Hp. lia.
Qed.

(** The first step of a path. *)
Lemma open_path_front (g : grid) (s w : Z * Z) (k : Z) :
  open_path g s w k -> 0 < k ->
  exists p, adjacent s p /\ is_open g p /\ open_path g p w (k - 1).
Proof.
  induction 1 as [|w w' k Hp IH Hadj Ho]; intros Hk; [lia|].
  destruct (decide (k = 0)) as [->|Hne].
  - apply open_path_zero in Hp as ->. exists w'. split; [done|]. split; [done|]. constructor.
  - pose proof (open_path_nonneg _ _ _ _ Hp).
    destruct IH as (p & Hsp & Hop & Hpw); [lia|]. exists p. split; [done|]. split; [done|].
    replace (k + 1 - 1) with (k - 1 + 1) by lia. by apply (open_on g p w w' (k - 1)).
Qed.

(** A path of [g] is a path of [g'], which differs at [z] only, or a
    shorter one leaves from [z]. *)
Lemma open_path_avoid (g g' : grid) (s w z : Z * Z) (k : Z) :
  (forall q, q <> z -> is_open g q -> is_open g' q) ->
  open_path g s w k ->
  open_path g' s w k \/ exists k', k' < k /\ open_path g' z w k'.
Proof.
  intros Hkeep. induction 1 as [|w w' k Hp IH Hadj Ho]; [left; constructor|].
  pose proof (open_path_nonneg _ _ _ _ Hp).
  destruct (decide (w' = z)) as [->|Hne].
  - right. exists 0. split; [lia|constructor].
  - specialize (Hkeep w' Hne Ho). destruct IH as [IH|(k' & Hlt & IH)].
    + left. by apply (open_on g' s w w' k).
    + right. exists (k' + 1). split; [lia|]. by apply (open_on g' z w w' k').
Qed.

Section OneMove.

Variables (g c : grid) (c1 c2 : ascii) (s0 p t : Z * Z).
Hypothesis Hmoved : moved g c c1 s0 p.
Hypothesis Hadj : adjacent s0 p.
Hypothesis Hopen : is_open g p.
Hypothesis Hto : cell g t = Some c2.
Hypothesis Hc1 : c1 <> OPEN.
Hypothesis Hc2 : c2 <> OPEN.

Lemma moved_opens_back (q : Z * Z) : q <> s0 -> is_open c q -> is_open g q.
Proof.
  destruct Hmoved as [Hd Hcell]. intros Hne [Hb Ho]. split.
  - apply (in_bounds_dims c); [done|done].
  - rewrite Hcell in Ho. destruct (decide (q = p)); [congruence|].
    by rewrite decide_False in Ho.
Qed.

Lemma moved_opens_on (q : Z * Z) : q <> p -> is_open g q -> is_open c q.
Proof.
  destruct Hmoved as [Hd Hcell]. intros Hne [Hb Ho]. split.
  - by apply (in_bounds_dims g).
  - rewrite Hcell. rewrite decide_False by done.
    destruct (decide (q = s0)); [done|done].
Qed.

(** A path of the candidate, from the mover's new cell, is at most one step
    shorter than some path of the grid from its old cell. *)
Lemma moved_path_back (k : Z) :
  path_between c p t k -> exists k', k' <= k + 1 /\ path_between g s0 t k'.
Proof.
  destruct Hmoved as [Hd Hcell].
  intros [[-> ->]|(w & Hw & Hwt & Hb)].
  { destruct Hopen as [_ Ho]. congruence. }
  assert (in_bounds g t) as Hbt by (by apply (in_bounds_dims c)).
  destruct (open_path_avoid c g p w s0 (k - 1) moved_opens_back Hw) as [Hp|(k' & Hlt & Hp)].
  - exists (k + 1). split; [lia|]. right. exists w. split; [|done].
    replace (k + 1 - 1) with (k - 1 + 1) by lia. by apply (open_path_cons g s0 p w (k - 1)).
  - exists (k' + 1). split; [lia|]. right. exists w.
    replace (k' + 1 - 1) with k' by lia. done.
Qed.

(** A path of the grid from the mover's new cell is, in the candidate, a
    path that is no longer. *)
Lemma moved_path_on (w : Z * Z) (k : Z) :
  open_path g p w k -> adjacent w t -> in_bounds g t ->
  exists k', k' <= k + 1 /\ path_between c p t k'.
Proof.
  destruct Hmoved as [Hd Hcell]. intros Hw Hwt Hbt.
  assert (in_bounds c t) as Hbt' by (by apply (in_bounds_dims g)).
  destruct (open_path_avoid g c p w p k moved_opens_on Hw) as [Hp|(k' & Hlt & Hp)].
  - exists (k + 1). split; [lia|]. right. exists w.
    replace (k + 1 - 1) with k by lia. done.
  - exists (k' + 1). split; [lia|]. right. exists w.
    replace (k' + 1 - 1) with k' by lia. done.
Qed.

(** The target stays reachable from the mover's new cell. *)
Lemma moved_path_through (w : Z * Z) (k : Z) :
  in_bounds g s0 -> s0 <> p ->
  open_path g s0 w k -> adjacent w t -> in_bounds g t ->
  exists k', path_between c p t k'.
Proof.
  destruct Hmoved as [Hd Hcell]. intros Hs0 Hne Hw Hwt Hbt.
  assert (in_bounds c t) as Hbt' by (by apply (in_bounds_dims g)).
  destruct (open_path_avoid g c s0 w p k moved_opens_on Hw) as [Hp|(k' & _ & Hp)].
  - exists (k + 1 + 1). right. exists w. split; [|done].
    replace (k + 1 + 1 - 1) with (k + 1) by lia.
    apply (open_path_cons c p s0 w k); [done|by apply adjacent_sym|]. split.
    + by apply (in_bounds_dims g).
    + rewrite Hcell. rewrite decide_False by done. by rewrite decide_True.
  - exists (k' + 1). right. exists w. replace (k' + 1 - 1) with k' by lia. done.
Qed.

End OneMove.

(** What a candidate of a mover that occurs once scores. *)
Lemma candidate_score (g : grid) (c1 c2 : ascii) (x y : Z) (t : Z * Z)
    (l : list grid) (c : grid) :
  rectangular g -> count_cells c1 g = 1%nat ->
  c1 <> c2 -> c1 <> OPEN -> c2 <> OPEN ->
  get_character_coordinates g c1 = Some (x, y) ->
  get_character_coordinates g c2 = Some t ->
  generate_possible_moves g c1 = Ok l -> c ∈ l ->
  exists p, adjacent (x, y) p /\ is_open g p /\ moved g c c1 (x, y) p /\
    rectangular c /\
    get_character_coordinates c c1 = Some p /\
    get_character_coordinates c c2 = Some t.
Proof.
  intros Hrect Hone H12 H1 H2 Hc1 Hc2 Hgen Hc.
  destruct (candidate_moved _ _ _ _ Hgen Hc) as (x' & y' & p & Hxy & Hp & Hb & Ho & Hmv & Hmoved).
  rewrite Hc1 in Hxy. injection Hxy as <- <-.
  destruct (possible_moves_adjacent _ _ _ Hp) as [Hadj Hne].
  destruct (candidate_coordinates g c c1 c2 x y p t) as (Hr & _ & Hp1 & Hp2); try done.
  exists p. done.
Qed.

(** One move of the path-finding agent at distance 2 or more, on the grid:
    the candidates are computed, the one [find_best_move] returns has the
    mover on an open cell next to where it was, and it is one step closer. *)
Lemma smart_step (g : grid) (c1 c2 : ascii) (d : Z) :
  rectangular g -> count_cells c1 g = 1%nat ->
  c1 <> c2 -> c1 <> OPEN -> c2 <> OPEN ->
  calculate_path_distance g c1 c2 = Ok d -> 2 <= d ->
  exists l best from p,
    generate_possible_moves g c1 = Ok l /\
    find_best_move (calculate_path_distances l c1 c2) = Ok (Some best) /\
    get_character_coordinates g c1 = Some from /\
    adjacent from p /\ is_open g p /\ moved g best c1 from p /\
    calculate_path_distance best c1 c2 = Ok (d - 1).
Proof.
  intros Hrect Hone H12 H1 H2 Hd Hge.
  destruct (get_character_coordinates g c1) as [[x y]|] eqn:Hc1.
  2:{ unfold calculate_path_distance in Hd. by rewrite Hc1 in Hd. }
  destruct (get_character_coordinates g c2) as [t|] eqn:Hc2.
  2:{ unfold calculate_path_distance in Hd. by rewrite Hc1, Hc2 in Hd. }
  destruct (calculate_path_distance_shortest g c1 c2 _ _ Hrect Hc1 Hc2) as (d0 & Hd0 & Hshort).
  rewrite Hd in Hd0. injection Hd0 as <-.
  destruct Hshort as [[-> _]|[Hpath Hmin]]; [lia|].
  destruct Hpath as [[_ ->]|(w & Hw & Hwt & Hbt)]; [lia|].
  destruct (open_path_front _ _ _ _ Hw) as (p0 & Hadj0 & Hopen0 & Hp0w); [lia|].
  pose proof (coordinates_cell _ _ _ Hc1) as Hfrom.
  pose proof (coordinates_cell _ _ _ Hc2) as Hto.
  pose proof (coordinates_in_bounds _ _ _ Hrect Hc1) as Hs0.
  destruct (candidates_spec g c1 x y Hrect Hc1) as (moves & l & Hmoves & Hl & _ & _).
  assert (generate_possible_moves g c1 = Ok l) as Hgen.
  { unfold generate_possible_moves. rewrite Hc1, Hmoves. done. }
  destruct (candidates_complete g c1 x y l p0 Hrect Hc1 Hgen Hadj0 Hopen0) as (c0 & Hc0 & Hmv0).
  assert (forall c, c ∈ l -> exists p dc,
            adjacent (x, y) p /\ is_open g p /\ moved g c c1 (x, y) p /\
            calculate_path_distance c c1 c2 = Ok dc /\ d - 1 <= dc /\
            (p = p0 -> dc <= d - 1)) as Hscore.
  { intros c Hc.
    destruct (candidate_score g c1 c2 x y t l c) as (p & Hadj & Hop & Hmoved & Hr & Hp1 & Hp2);
      try done.
    destruct (calculate_path_distance_shortest c c1 c2 p t Hr Hp1 Hp2) as (dc & Hdc & Hsh).
    exists p, dc. do 4 (split; [done|]).
    assert ((x, y) <> p) as Hne.
    { intros <-. destruct Hop as [_ Hop]. congruence. }
    destruct (moved_path_through g c c1 (x, y) p t Hmoved Hadj w (d - 1) Hs0 Hne Hw Hwt Hbt)
      as [k0 Hk0].
    destruct Hsh as [[_ Hno]|[Hp Hleast]]; [by destruct (Hno k0)|]. split.
    - destruct (moved_path_back g c c1 c2 (x, y) p t Hmoved Hadj Hop Hto H1 H2 dc Hp)
        as (k' & Hle & Hk').
      specialize (Hmin k' Hk'). lia.
    - intros ->.
      destruct (moved_path_on g c c1 (x, y) p0 t Hmoved w (d - 1 - 1) Hp0w Hwt Hbt)
        as (k' & Hle & Hk').
      specialize (Hleast k' Hk'). lia. }
  exists l. destruct l as [|first rest]; [by apply elem_of_nil in Hc0|].
  destruct (find_best_move_least (first :: rest) first rest
              (fun c => calculate_path_distance c c1 c2) eq_refl)
    as (best & db & Hbest & Hin & Hdb & Hleast).
  { intros c Hc. destruct (Hscore c Hc) as (? & dc & _ & _ & _ & ? & _). by exists dc. }
  destruct (Hscore best Hin) as (p & dc & Hadj & Hop & Hmoved & Hdc & Hlow & _).
  rewrite Hdb in Hdc. injection Hdc as <-.
  exists best, (x, y), p. do 6 (split; [done|]).
  rewrite Hdb. f_equal.
  destruct (Hscore c0 Hc0) as (p' & d0 & _ & _ & Hmoved0 & Hd0 & _ & Hup).
  assert (p' = p0) as Hp'.
  { destruct (cell_nonneg _ _ _ Hfrom) as [Hx Hy]. simpl in Hx, Hy.
    destruct Hopen0 as [[[? _] [? _]] Ho0].
    pose proof (moved_grid_moved g c0 c1 x y p0 Hx Hy ltac:(done) ltac:(done) Hmv0) as [_ Hcell0].
    destruct Hmoved0 as [_ Hcell'].
    specialize (Hcell0 p0). rewrite decide_True in Hcell0 by done.
    rewrite Hcell' in Hcell0. destruct (decide (p0 = p')); [done|].
    destruct (decide (p0 = (x, y))) as [->|]; congruence. }
  specialize (Hup Hp'). specialize (Hleast c0 d0 Hc0 Hd0). lia.
Qed.

(** X8.  A move of the path-finding agent brings the mover one step closer:
    on a rectangular grid whose mover occurs once and is at path distance
    [d >= 2] of the target, [make_smart_move] returns the grid in which the
    mover has stepped onto an adjacent cell, and the path distance of that grid
    is [d - 1]. *)
Theorem make_smart_move_one_step_closer (s : string) (c1 c2 : ascii) (d : Z) :
  rectangular (parse_grid s) ->
  count_cells c1 (parse_grid s) = 1%nat ->
  c1 <> c2 -> c1 <> OPEN -> c2 <> OPEN ->
  calculate_path_distance (parse_grid s) c1 c2 = Ok d -> 2 <= d ->
  exists best from p,
    make_smart_move s c1 c2 = Ok (grid_to_string best) /\
    get_character_coordinates (parse_grid s) c1 = Some from /\
    adjacent from p /\ moved (parse_grid s) best c1 from p /\
    calculate_path_distance best c1 c2 = Ok (d - 1).
Proof.
  intros Hrect Hone H12 H1 H2 Hd Hge.
  destruct (smart_step (parse_grid s) c1 c2 d Hrect Hone H12 H1 H2 Hd Hge)
    as (l & best & from & p & Hgen & Hbest & Hfrom & Hadj & _ & Hmoved & Hdist).
  exists best, from, p. split; [|done].
  unfold make_smart_move. cbv zeta. rewrite Hgen. cbn [mbind result_bind].
  by rewrite Hbest.
Qed.

Lemma make_smart_move_one_step_closer_witness :
  exists best from p,
    make_smart_move open_room "P" "O" = Ok (grid_to_string best) /\
    get_character_coordinates (parse_grid open_room) "P" = Some from /\
    adjacent from p /\ moved (parse_grid open_room) best "P" from p /\
    calculate_path_distance best "P" "O" = Ok (4 - 1).
Proof.
  apply (make_smart_move_one_step_closer open_room "P" "O" 4).
  - intros row H. vm_compute in H.
    repeat (apply elem_of_cons in H as [->|H]); try reflexivity.
    by apply elem_of_nil in H.
  - vm_compute. reflexivity.
  - discriminate.
  - discriminate.
  - discriminate.
  - vm_compute. reflexivity.
  - lia.
Defined.

(** X9.  A move of the Manhattan agent takes an open neighbour that is
    nearest to the target: on a rectangular grid whose mover occurs once and
    has an open neighbour, [make_move] returns the grid in which the mover has
    stepped onto an open adjacent cell [p]; the Manhattan distance of that grid
    is the one between [p] and the target, no open neighbour of the mover is
    nearer, and the distance is one less or one more than before. *)
Theorem make_move_nearest (s : string) (c1 c2 : ascii) (x y : Z) (t q0 : Z * Z) :
  rectangular (parse_grid s) ->
  count_cells c1 (parse_grid s) = 1%nat ->
  c1 <> c2 -> c1 <> OPEN -> c2 <> OPEN ->
  get_character_coordinates (parse_grid s) c1 = Some (x, y) ->
  get_character_coordinates (parse_grid s) c2 = Some t ->
  adjacent (x, y) q0 -> is_open (parse_grid s) q0 ->
  exists best p m,
    make_move s c1 c2 = Ok (grid_to_string best) /\
    adjacent (x, y) p /\ is_open (parse_grid s) p /\
    moved (parse_grid s) best c1 (x, y) p /\
    calculate_distance best c1 c2 = Ok m /\
    m = Z.abs (p.1 - t.1) + Z.abs (p.2 - t.2) /\
    (forall q, adjacent (x, y) q -> is_open (parse_grid s) q ->
       m <= Z.abs (q.1 - t.1) + Z.abs (q.2 - t.2)) /\
    (m = Z.abs (x - t.1) + Z.abs (y - t.2) - 1 \/
     m = Z.abs (x - t.1) + Z.abs (y - t.2) + 1).
Proof.
  unfold make_move. cbv zeta. generalize (parse_grid s).
  intros g Hrect Hone H12 H1 H2 Hc1 Hc2 Hadj0 Hopen0.
  destruct (candidates_spec g c1 x y Hrect Hc1) as (moves & l & Hmoves & Hl & _ & _).
  assert (generate_possible_moves g c1 = Ok l) as Hgen.
  { unfold generate_possible_moves. rewrite Hc1, Hmoves. done. }
  assert (forall c, c ∈ l -> exists p,
            adjacent (x, y) p /\ is_open g p /\ moved g c c1 (x, y) p /\
            calculate_distance c c1 c2 = Ok (Z.abs (p.1 - t.1) + Z.abs (p.2 - t.2)))
    as Hscore.
  { intros c Hc.
    destruct (candidate_score g c1 c2 x y t l c) as (p & Hadj & Hop & Hmoved & _ & Hp1 & Hp2);
      try done.
    exists p. split; [done|]. split; [done|]. split; [done|].
    unfold calculate_distance. rewrite Hp1, Hp2. by destruct p, t. }
  rewrite Hgen. cbn [mbind result_bind].
  destruct (candidates_complete g c1 x y l q0 Hrect Hc1 Hgen Hadj0 Hopen0) as (c0 & Hc0 & _).
  destruct l as [|first rest]; [by apply elem_of_nil in Hc0|].
  destruct (find_best_move_least (first :: rest) first rest
              (fun c => calculate_distance c c1 c2) eq_refl)
    as (best & m & Hbest & Hin & Hm & Hleast).
  { intros c Hc. destruct (Hscore c Hc) as (? & _ & _ & _ & ?). by eexists. }
  unfold calculate_distances. rewrite Hbest. cbn [mbind result_bind grid_to_string_of].
  destruct (Hscore best Hin) as (p & Hadj & Hop & Hmoved & Hmp).
  exists best, p, m. split; [done|]. split; [done|]. split; [done|]. split; [done|].
  split; [done|]. rewrite Hm in Hmp. injection Hmp as ->. split; [done|]. split.
  - intros q Hq Hoq.
    destruct (candidates_complete g c1 x y _ q Hrect Hc1 Hgen Hq Hoq) as (cq & Hcq & Hmvq).
    destruct (Hscore cq Hcq) as (q' & _ & Hoq' & Hmq & Hdq).
    assert (q' = q) as ->.
    { pose proof (coordinates_cell _ _ _ Hc1) as Hfrom.
      destruct (cell_nonneg _ _ _ Hfrom) as [Hx Hy]. simpl in Hx, Hy.
      destruct Hoq as [[[? _] [? _]] Hoq].
      pose proof (moved_grid_moved g cq c1 x y q Hx Hy ltac:(done) ltac:(done) Hmvq)
        as [_ Hcell].
      destruct Hmq as [_ Hcell'].
      specialize (Hcell q). rewrite decide_True in Hcell by done.
      rewrite Hcell' in Hcell. destruct (decide (q = q')); [done|].
      destruct (decide (q = (x, y))) as [->|]; congruence. }
    by apply (Hleast cq).
  - unfold adjacent in Hadj. simpl in Hadj. lia.
Qed.

Lemma make_move_nearest_witness :
  exists best p m,
    make_move open_room "P" "O" = Ok (grid_to_string best) /\
    adjacent (1, 1) p /\ is_open (parse_grid open_room) p /\
    moved (parse_grid open_room) best "P" (1, 1) p /\
    calculate_distance best "P" "O" = Ok m /\
    m = Z.abs (p.1 - (3, 3).1) + Z.abs (p.2 - (3, 3).2) /\
    (forall q, adjacent (1, 1) q -> is_open (parse_grid open_room) q ->
       m <= Z.abs (q.1 - (3, 3).1) + Z.abs (q.2 - (3, 3).2)) /\
    (m = Z.abs (1 - (3, 3).1) + Z.abs (1 - (3, 3).2) - 1 \/
     m = Z.abs (1 - (3, 3).1) + Z.abs (1 - (3, 3).2) + 1).
Proof.
  apply (make_move_nearest open_room "P" "O" 1 1 (3, 3) (1, 2)).
  - intros row H. vm_compute in H.
    repeat (apply elem_of_cons in H as [->|H]); try reflexivity.
    by apply elem_of_nil in H.
  - vm_compute. reflexivity.
  - discriminate.
  - discriminate.
  - discriminate.
  - vm_compute. reflexivity.
  - vm_compute. reflexivity.
  - vm_compute. reflexivity.
  - split; [|vm_compute; reflexivity]. unfold in_bounds. vm_compute.
    repeat split; discriminate.
Defined.

(** ** Ties *)

Lemma min_loop_first {A B} (f : A -> result B) (key : B -> Z) (best : B) (rest : list A) :
  (forall a, a ∈ rest -> exists b, f a = Ok b) ->
  exists b, Py.min_loop f key best rest = Ok b /\
    ((b = best /\ forall a b', a ∈ rest -> f a = Ok b' -> key best <= key b') \/
     (exists i a, rest !! i = Some a /\ f a = Ok b /\ key b < key best /\
        forall j a' b', rest !! j = Some a' -> f a' = Ok b' ->
          key b <= key b' /\ ((j < i)%nat -> key b < key b'))).
Proof.
  revert best. induction rest as [|a rest IH]; intros best Hall; simpl.
  - exists best. split; [done|]. left. split; [done|].
    intros a b' Ha. by apply elem_of_nil in Ha.
  - destruct (Hall a) as [b0 Hb0]; [apply list_elem_of_here|]. rewrite Hb0. simpl.
    destruct (IH (if key b0 <? key best then b0 else best)) as (b & Hrun & Hcase).
    { intros a' Ha'. by apply Hall, list_elem_of_further. }
    exists b. split; [done|].
    destruct (Z.ltb_spec (key b0) (key best)) as [Hlt|Hge].
    + right. destruct Hcase as [[-> Hmin]|(i & a' & Hi & Hb & Hlt' & Hmin)].
      * exists O, a. split; [done|]. split; [done|]. split; [done|].
        intros [|j] a' b' Hj Hb'; simpl in Hj.
        -- injection Hj as <-. rewrite Hb0 in Hb'. injection Hb' as <-. split; lia.
        -- split; [|lia]. apply (Hmin a'); [|done]. apply list_elem_of_lookup. eauto.
      * exists (S i), a'. split; [done|]. split; [done|]. split; [lia|].
        intros [|j] a'' b' Hj Hb'; simpl in Hj.
        -- injection Hj as <-. rewrite Hb0 in Hb'. injection Hb' as <-. split; lia.
        -- destruct (Hmin j a'' b' Hj Hb') as [? Hlt'']. split; [done|].
           intros ?. apply Hlt''. lia.
    + destruct Hcase as [[-> Hmin]|(i & a' & Hi & Hb & Hlt' & Hmin)].
      * left. split; [done|]. intros a' b' Ha' Hb'.
        apply elem_of_cons in Ha' as [->|Ha']; [|by apply (Hmin a')].
        rewrite Hb0 in Hb'. injection Hb' as <-. done.
      * right. exists (S i), a'. split; [done|]. split; [done|]. split; [done|].
        intros [|j] a'' b' Hj Hb'; simpl in Hj.
        -- injection Hj as <-. rewrite Hb0 in Hb'. injection Hb' as <-. split; lia.
        -- destruct (Hmin j a'' b' Hj Hb') as [? Hlt'']. split; [done|].
           intros ?. apply Hlt''. lia.
Qed.

(** X10.  [find_best_move] returns the first grid of least score: when the
    map object runs over a non-empty list whose every score is computed, the
    grid returned stands at some index [i] of the list, no grid scores less,
    and every grid before index [i] scores strictly more. *)
Theorem find_best_move_first_least (grids : list grid) (score : grid -> result Z) :
  grids <> [] ->
  (forall c, c ∈ grids -> exists d, score c = Ok d) ->
  exists i best d,
    find_best_move (Py.Map (fun c => d ← score c; Ok (c, d)) grids) = Ok (Some best) /\
    grids !! i = Some best /\ score best = Ok d /\
    forall j c d', grids !! j = Some c -> score c = Ok d' ->
      d <= d' /\ ((j < i)%nat -> d < d').
Proof.
  intros Hne Hall. destruct grids as [|first rest]; [done|].
  unfold find_best_move, Py.min_key. simpl.
  destruct (Hall first) as [d0 Hd0]; [apply list_elem_of_here|]. rewrite Hd0. simpl.
  destruct (min_loop_first (fun c => d ← score c; Ok (c, d)) snd (first, d0) rest)
    as ([best d] & Hrun & Hcase).
  { intros c Hc. destruct (Hall c) as [d Hd]; [by apply list_elem_of_further|].
    rewrite Hd. by eexists. }
  rewrite Hrun. simpl.
  destruct Hcase as [[[= -> ->] Hmin]|(i & a & Hi & Hb & Hlt & Hmin)].
  - exists O, first, d0. split; [done|]. split; [done|]. split; [done|].
    intros [|j] c d' Hj Hd'; simpl in Hj.
    + injection Hj as <-. rewrite Hd0 in Hd'. injection Hd' as <-. split; lia.
    + split; [|lia]. apply (Hmin c (c, d')).
      * apply list_elem_of_lookup. eauto.
      * by rewrite Hd'.
  - destruct (score a) as [da| |] eqn:Hda; simpl in Hb; try done.
    injection Hb as -> ->. simpl in Hlt.
    exists (S i), best, d. split; [done|]. split; [done|]. split; [done|].
    intros [|j] c d' Hj Hd'; simpl in Hj.
    + injection Hj as <-. rewrite Hd0 in Hd'. injection Hd' as <-. split; lia.
    + destruct (Hmin j c (c, d') Hj) as [? Hlt']; [by rewrite Hd'|]. simpl in *.
      split; [done|]. intros ?. apply Hlt'. lia.
Qed.

Lemma find_best_move_first_least_witness :
  exists i best d,
    find_best_move (Py.Map (fun c => d ← (fun c => Ok (Py.len c)) c; Ok (c, d))
                      [[["a"]; ["b"]]; [["c"]]; [["d"]]]%char) = Ok (Some best) /\
    [[["a"]; ["b"]]; [["c"]]; [["d"]]]%char !! i = Some best /\
    (fun c => Ok (Py.len c)) best = Ok d /\
    forall j c d', [[["a"]; ["b"]]; [["c"]]; [["d"]]]%char !! j = Some c ->
      (fun c => Ok (Py.len c)) c = Ok d' ->
      d <= d' /\ ((j < i)%nat -> d < d').
Proof.
  apply (find_best_move_first_least [[["a"]; ["b"]]; [["c"]]; [["d"]]]%char
           (fun c => Ok (Py.len c))).
  - discriminate.
  - intros c _. by eexists.
Defined.

(** ** The grid of a maze *)

(** X11.  The grid [generate_maze] returns, for all draws: it has [n] rows of
    [m] cells, each ['#'] or [' ']; a cell whose two coordinates are even is a
    wall; and an open cell with an even coordinate is a passage, open on both
    sides along that coordinate. *)
Theorem generate_maze_lattice (n m : Z) (r : rng) :
  5 <= n -> 5 <= m ->
  exists g, generate_maze n m r = Ok g /\
    dims g = replicate (Z.to_nat n) (Z.to_nat m) /\
    (forall p c, cell g p = Some c -> c = WALL \/ c = OPEN) /\
    (forall x y, 0 <= x < m -> 0 <= y < n -> even x -> even y ->
       cell g (x, y) = Some WALL) /\
    (forall x y, opens g (x, y) ->
       (even x -> opens g (x - 1, y) /\ opens g (x + 1, y)) /\
       (even y -> opens g (x, y - 1) /\ opens g (x, y + 1))).
Proof.
  intros Hn Hm.
  destruct (carve_maze_carved n m r Hn Hm) as (st & S & _ & _ & Hrun & Hcv & _).
  exists (maze st). unfold generate_maze. rewrite Hrun. split; [done|].
  split; [apply (cv_dims _ _ _ _ Hcv)|]. split; [apply (cv_cells _ _ _ _ Hcv)|]. split.
  - intros x y Hx Hy Hex Hey.
    destruct (cell_in_dims n m (maze st) x y (cv_dims _ _ _ _ Hcv) Hx Hy) as [c Hc].
    destruct (cv_cells _ _ _ _ Hcv _ _ Hc) as [-> | ->]; [done|].
    apply (cv_open _ _ _ _ Hcv) in Hc.
    destruct (cv_parity _ _ _ _ Hcv _ Hc) as [Ho|Ho]; simpl in Ho; parity.
  - intros x y Ho. apply (cv_open _ _ _ _ Hcv) in Ho.
    destruct (cv_edge _ _ _ _ Hcv x y Ho) as [Hh Hv]. split.
    + intros He. destruct (Hh He). split; by apply (cv_open _ _ _ _ Hcv).
    + intros He. destruct (Hv He). split; by apply (cv_open _ _ _ _ Hcv).
Qed.

Lemma generate_maze_lattice_witness :
  exists g, generate_maze 5 7 (Rng (fun i => i) O) = Ok g /\
    dims g = replicate (Z.to_nat 5) (Z.to_nat 7) /\
    (forall p c, cell g p = Some c -> c = WALL \/ c = OPEN) /\
    (forall x y, 0 <= x < 7 -> 0 <= y < 5 -> even x -> even y ->
       cell g (x, y) = Some WALL) /\
    (forall x y, opens g (x, y) ->
       (even x -> opens g (x - 1, y) /\ opens g (x + 1, y)) /\
       (even y -> opens g (x, y - 1) /\ opens g (x, y + 1))).
Proof. apply (generate_maze_lattice 5 7 (Rng (fun i => i) O)); lia. Defined.

(** X12.  The border of a maze, for all draws: at most one cell of the outer
    border is open, it has odd coordinates, and when [n] and [m] are odd
    there is none. *)
Theorem generate_maze_border (n m : Z) (r : rng) :
  5 <= n -> 5 <= m ->
  exists g, generate_maze n m r = Ok g /\
    (forall p q, opens g p -> opens g q ->
       ~ interior n m p -> ~ interior n m q -> p = q) /\
    (forall p, opens g p -> ~ interior n m p ->
       odd p.1 /\ odd p.2 /\ (even n \/ even m)).
Proof.
  intros Hn Hm.
  destruct (carve_maze_carved n m r Hn Hm)
    as (st & S & sx & sy & Hrun & Hcv & _ & Hox & Hoy & Hsx & Hsy & Hint).
  exists (maze st). unfold generate_maze. rewrite Hrun. split; [done|].
  assert (forall p, opens (maze st) p -> ~ interior n m p -> p = (sx, sy)) as Hstart.
  { intros p Hp Hb. apply (cv_open _ _ _ _ Hcv) in Hp. by destruct (Hint p Hp). }
  split.
  - intros p q Hp Hq Hbp Hbq. rewrite (Hstart p Hp Hbp). by rewrite (Hstart q Hq Hbq).
  - intros p Hp Hb. pose proof (Hstart p Hp Hb) as ->. simpl.
    split; [done|]. split; [done|].
    unfold interior in Hb. simpl in Hb. parity.
Qed.

Lemma generate_maze_border_witness :
  exists g, generate_maze 5 6 (Rng (fun _ => 2%nat) O) = Ok g /\
    (forall p q, opens g p -> opens g q ->
       ~ interior 5 6 p -> ~ interior 5 6 q -> p = q) /\
    (forall p, opens g p -> ~ interior 5 6 p ->
       odd p.1 /\ odd p.2 /\ (even 5 \/ even 6)).
Proof. apply (generate_maze_border 5 6 (Rng (fun _ => 2%nat) O)); lia. Defined.

(** ** The carving leaves no lattice cell out *)

Lemma swap_elem_of_2 {A} (x : list A) (i j : nat) (a : A) : a ∈ x -> a ∈ swap x i j.
Proof.
  unfold swap. destruct (x !! i) as [xi|] eqn:Hi; [|done].
  destruct (x !! j) as [xj|] eqn:Hj; [|done].
  pose proof (lookup_lt_Some _ _ _ Hi). pose proof (lookup_lt_Some _ _ _ Hj).
  intros Hin. apply list_elem_of_lookup in Hin as [k Hk]. apply list_elem_of_lookup.
  destruct (decide (k = i)) as [->|Hki].
  - exists j. rewrite list_lookup_insert_eq by (by rewrite length_insert). congruence.
  - destruct (decide (k = j)) as [->|Hkj].
    + exists i. rewrite list_lookup_insert_ne by done.
      rewrite list_lookup_insert_eq by done. congruence.
    + exists k. by rewrite !list_lookup_insert_ne.
Qed.

Lemma shuffle_from_elem_of_2 {A} (i : nat) (x : list A) (r : rng) (a : A) :
  a ∈ x -> a ∈ (shuffle_from i x r).1.
Proof.
  revert x r. induction i as [|i IH]; intros x r; simpl; [done|].
  intros Hin. by apply IH, swap_elem_of_2.
Qed.

Lemma closed_at_mono (n m : Z) (g g' : grid) (p : Z * Z) :
  (forall q, opens g q -> opens g' q) -> closed_at n m g p -> closed_at n m g' p.
Proof. intros Hmono Hc d Hd Hint. by apply Hmono, Hc. Qed.

Lemma written_open (g g' : grid) (p : Z * Z) :
  written g g' p OPEN -> two_glyphs g ->
  two_glyphs g' /\ opens g' p /\ (forall q, opens g q -> opens g' q) /\
  (forall q, opens g' q -> q = p \/ opens g q).
Proof.
  intros [_ Hc] Hg. unfold opens. split; [|split; [|split]].
  - intros q c. rewrite Hc. destruct (decide (q = p)); [intros [= <-]; by right|apply Hg].
  - rewrite Hc. by rewrite decide_True.
  - intros q Hq. rewrite Hc. by destruct (decide (q = p)).
  - intros q. rewrite Hc. destruct (decide (q = p)); auto.
Qed.

Section CarveClosed.

Variables (n m : Z).
Variable recurse : Z -> Z -> carver -> result carver.
Hypothesis Hrec : closes n m recurse.

Lemma carve_loop_closes (x y : Z) (dirs : list (Z * Z)) :
  forall st st',
    (forall d, d ∈ dirs -> d ∈ carve_directions) ->
    carve_loop recurse n m x y dirs st = Ok st' ->
    odd x -> odd y -> 0 < x -> 0 < y -> two_glyphs (maze st) ->
    two_glyphs (maze st') /\
    (forall p, opens (maze st) p -> opens (maze st') p) /\
    (forall d, d ∈ dirs -> interior n m (x + d.1, y + d.2) ->
       opens (maze st') (x + d.1, y + d.2)) /\
    (forall p, odd p.1 -> odd p.2 -> opens (maze st') p -> ~ opens (maze st) p ->
       closed_at n m (maze st') p).
Proof.
  induction dirs as [|[dx dy] dirs IH]; intros st st' Hsub Hrun Hox Hoy Hx Hy Hg.
  { simpl in Hrun. injection Hrun as <-. split; [done|]. split; [done|]. split.
    - intros d Hd. by apply elem_of_nil in Hd.
    - intros p _ _ Hp Hnp. by destruct Hnp. }
  assert (forall d, d ∈ dirs -> d ∈ carve_directions) as Hsub'.
  { intros d Hd. by apply Hsub, list_elem_of_further. }
  pose proof (carve_directions_two_steps x y dx dy (Hsub _ (list_elem_of_here _ _))) as Hgeo.
  cbn [carve_loop] in Hrun.
  destruct ((0 <? y + dy) && (y + dy <? n - 1) && (0 <? x + dx) && (x + dx <? m - 1))
    eqn:Hguard.
  2:{ destruct (IH st st' Hsub' Hrun Hox Hoy Hx Hy Hg) as (Hg' & Hmono & Hdirs & Hnew).
      split; [done|]. split; [done|]. split; [|done].
      intros d Hd [Hi1 Hi2]. apply elem_of_cons in Hd as [->|Hd]; [|by apply Hdirs].
      simpl in Hi1, Hi2.
      assert ((0 <? y + dy) && (y + dy <? n - 1) && (0 <? x + dx) && (x + dx <? m - 1) = true)
        as Htrue; [|congruence].
      rewrite !andb_true_iff, !Z.ltb_lt. lia. }
  apply andb_prop in Hguard as [Hguard Hnx2]. apply andb_prop in Hguard as [Hguard Hnx1].
  apply andb_prop in Hguard as [Hny1 Hny2].
  apply Z.ltb_lt in Hnx2, Hnx1, Hny1, Hny2.
  destruct (get_cell (maze st) (x + dx) (y + dy)) as [c| |] eqn:Hcell;
    cbn [mbind result_bind] in Hrun; try done.
  apply get_cell_nonneg in Hcell; [|lia..].
  destruct (bool_decide_reflect (c = WALL)) as [->|Hc].
  2:{ destruct (IH st st' Hsub' Hrun Hox Hoy Hx Hy Hg) as (Hg' & Hmono & Hdirs & Hnew).
      split; [done|]. split; [done|]. split; [|done].
      intros d Hd Hint. apply elem_of_cons in Hd as [->|Hd]; [|by apply Hdirs].
      apply Hmono. simpl. unfold opens. by destruct (Hg _ _ Hcell) as [->| ->]. }
  set (ix := x + dx / 2) in *. set (iy := y + dy / 2) in *.
  destruct (set_cell (maze st) (x + dx) (y + dy) OPEN) as [g1| |] eqn:Hg1;
    cbn [mbind result_bind] in Hrun; try done.
  destruct (set_cell g1 ix iy OPEN) as [g2| |] eqn:Hg2;
    cbn [mbind result_bind] in Hrun; try done.
  destruct (recurse (x + dx) (y + dy) (Carver g2 (gen st) (calls st))) as [st3| |] eqn:Hst3;
    cbn [mbind result_bind] in Hrun; try done.
  apply set_cell_written in Hg1; [|lia..].
  assert (0 <= ix /\ 0 <= iy) as [Hix Hiy] by parity.
  apply set_cell_written in Hg2; [|lia..].
  destruct (written_open _ _ _ Hg1 Hg) as (Hgl1 & Ho1 & Hmono1 & Hinv1).
  destruct (written_open _ _ _ Hg2 Hgl1) as (Hgl2 & Ho2 & Hmono2 & Hinv2).
  destruct (Hrec _ _ _ _ Hst3) as (Hgl3 & Hmono3 & Hclosed3 & Hnew3);
    [parity|parity|lia|lia|done|].
  simpl in Hmono3, Hnew3.
  destruct (IH st3 st' Hsub' Hrun Hox Hoy Hx Hy Hgl3) as (Hg' & Hmono & Hdirs & Hnew).
  split; [done|]. split; [by intros p Hp; apply Hmono, Hmono3, Hmono2, Hmono1|]. split.
  - intros d Hd Hint. apply elem_of_cons in Hd as [->|Hd]; [|by apply Hdirs].
    by apply Hmono, Hmono3, Hmono2.
  - intros p Hp1 Hp2 Hp Hnp.
    destruct (decide (cell (maze st3) p = Some OPEN)) as [Hp3|Hnp3]; [|by apply Hnew].
    apply (closed_at_mono n m (maze st3)); [done|].
    destruct (decide (cell g2 p = Some OPEN)) as [Hpg2|Hnpg2]; [|by apply Hnew3].
    destruct (Hinv2 p Hpg2) as [->|Hpg1]; [simpl in *; parity|].
    destruct (Hinv1 p Hpg1) as [->|?]; [done|done].
Qed.

End CarveClosed.

Lemma carve_passages_closes (n m : Z) (fuel : nat) : closes n m (carve_passages fuel n m).
Proof.
  induction fuel as [|fuel IH]; intros x y st st' Hrun Hox Hoy Hx Hy Hg; [done|].
  cbn [carve_passages] in Hrun.
  destruct (shuffle carve_directions (gen st)) as [dirs r] eqn:Hsh.
  destruct (carve_loop_closes n m _ IH x y dirs _ _ ltac:(intros d Hd;
    apply (shuffle_elem_of carve_directions (gen st)); by rewrite Hsh) Hrun Hox Hoy Hx Hy Hg)
    as (Hg' & Hmono & Hdirs & Hnew).
  split; [done|]. split; [done|]. split; [|done].
  intros d Hd Hint. apply Hdirs; [|done].
  pose proof (shuffle_from_elem_of_2 (pred (length carve_directions)) carve_directions
                (gen st) d Hd) as Hin.
  unfold shuffle in Hsh. by rewrite Hsh in Hin.
Qed.

(** From one open lattice cell inside the border, every other is reached. *)
Lemma lattice_reach (n m : Z) (g : grid) :
  (forall q, odd q.1 -> odd q.2 -> interior n m q -> opens g q -> closed_at n m g q) ->
  forall (k : nat) (q : Z * Z) (x y : Z),
    odd q.1 -> odd q.2 -> interior n m q -> opens g q ->
    odd x -> odd y -> interior n m (x, y) ->
    Z.abs (x - q.1) + Z.abs (y - q.2) <= 2 * Z.of_nat k -> opens g (x, y).
Proof.
  intros Hclosed. induction k as [|k IH]; intros [qx qy] x y Hq1 Hq2 Hqi Hq Hox Hoy Hi Hdist;
    simpl in *.
  { assert (x = qx /\ y = qy) as [-> ->] by lia. done. }
  destruct (decide (x = qx /\ y = qy)) as [[-> ->]|Hne]; [done|].
  pose proof (Hclosed (qx, qy) Hq1 Hq2 Hqi Hq) as Hc.
  destruct Hqi as [Hqi1 Hqi2], Hi as [Hi1 Hi2]. simpl in *.
  assert (qx < x \/ x < qx \/ (x = qx /\ qy < y) \/ (x = qx /\ y < qy))
    as [Hlt|[Hlt|[[-> Hlt]|[-> Hlt]]]] by lia.
  - apply (IH (qx + 2, qy + 0)); simpl; try done; try parity.
    + split; simpl; [parity|lia].
    + apply (Hc (2, 0)); [set_solver|]. split; simpl; [parity|lia].
  - apply (IH (qx + -2, qy + 0)); simpl; try done; try parity.
    + split; simpl; [parity|lia].
    + apply (Hc (-2, 0)); [set_solver|]. split; simpl; [parity|lia].
  - apply (IH (qx + 0, qy + 2)); simpl; try done; try parity.
    + split; simpl; [lia|parity].
    + apply (Hc (0, 2)); [set_solver|]. split; simpl; [lia|parity].
  - apply (IH (qx + 0, qy + -2)); simpl; try done; try parity.
    + split; simpl; [lia|parity].
    + apply (Hc (0, -2)); [set_solver|]. split; simpl; [lia|parity].
Qed.

(** From the last cell of the last row no carving direction stays inside. *)
Lemma carve_loop_corner (recurse : Z -> Z -> carver -> result carver) (n m : Z)
    (dirs : list (Z * Z)) (st : carver) :
  (forall d, d ∈ dirs -> d ∈ carve_directions) ->
  carve_loop recurse n m (m - 1) (n - 1) dirs st = Ok st.
Proof.
  induction dirs as [|[dx dy] dirs IH]; intros Hsub; [done|].
  cbn [carve_loop].
  assert ((0 <? n - 1 + dy) && (n - 1 + dy <? n - 1) && (0 <? m - 1 + dx)
            && (m - 1 + dx <? m - 1) = false) as ->.
  { apply not_true_is_false. rewrite !andb_true_iff, !Z.ltb_lt.
    pose proof (Hsub _ (list_elem_of_here _ _)) as Hd. unfold carve_directions in Hd.
    repeat (apply elem_of_cons in Hd as [[= -> ->]|Hd]); [lia..|].
    by apply elem_of_nil in Hd. }
  apply IH. intros d Hd. by apply Hsub, list_elem_of_further.
Qed.

(** The run of [carve_maze] once more, with the two draws of the start
    cell: every odd cell inside the border is opened, unless the start is the
    last cell of the last row, which then stays the only open cell. *)
Lemma carve_maze_spans (n m : Z) (r : rng) :
  5 <= n -> 5 <= m ->
  exists st sx sy r1 r2,
    choice (range 1 m 2) r = Ok (sx, r1) /\ choice (range 1 n 2) r1 = Ok (sy, r2) /\
    carve_maze n m r = Ok st /\
    dims (maze st) = replicate (Z.to_nat n) (Z.to_nat m) /\ two_glyphs (maze st) /\
    (forall p, opens (maze st) p -> p = (sx, sy) \/ interior n m p) /\
    ((~ (sx = m - 1 /\ sy = n - 1) /\
      forall x y, odd x -> odd y -> interior n m (x, y) -> opens (maze st) (x, y)) \/
     (sx = m - 1 /\ sy = n - 1 /\ even n /\ even m /\
      forall p, opens (maze st) p <-> p = (m - 1, n - 1))).
Proof.
  intros Hn Hm. unfold carve_maze.
  destruct (choice_range_odd m r) as (sx & r1 & Hr1 & Hsx & Hox); [lia|].
  rewrite Hr1. cbn [mbind result_bind].
  destruct (choice_range_odd n r1) as (sy & r2 & Hr2 & Hsy & Hoy); [lia|].
  rewrite Hr2. cbn [mbind result_bind].
  destruct (cell_in_dims n m (initialize_grid n m) sx sy (initialize_grid_dims n m))
    as [c0 Hc0]; [lia|lia|].
  destruct (set_cell_total _ sx sy c0 OPEN Hc0) as [g1 Hg1]. rewrite Hg1.
  cbn [mbind result_bind].
  pose proof (carved_start n m g1 sx sy ltac:(lia) ltac:(lia) Hox Hoy Hg1) as Hcv.
  destruct (carve_passages_carves n m (Z.to_nat (n * m)) sx sy (Carver g1 r2 []) [(sx, sy)])
    as (st & S & Hrun & Hcv' & _ & _ & _ & Hint); try done.
  { apply list_elem_of_here. }
  { rewrite Z2Nat.inj_mul by lia. simpl. lia. }
  rewrite Hrun. exists st, sx, sy, r1, r2. do 3 (split; [done|]).
  split; [apply (cv_dims _ _ _ _ Hcv')|]. split; [exact (cv_cells _ _ _ _ Hcv')|].
  split.
  { intros p Hp. apply (cv_open _ _ _ _ Hcv') in Hp.
    destruct (Hint p Hp) as [Hs|?]; [left|by right]. by apply list_elem_of_singleton in Hs. }
  assert (forall p, opens g1 p <-> p = (sx, sy)) as Hone.
  { intros p. rewrite (cv_open _ _ _ _ Hcv). apply list_elem_of_singleton. }
  destruct (decide (sx = m - 1 /\ sy = n - 1)) as [[-> ->]|Hstart].
  { right. do 2 (split; [done|]). split; [parity|]. split; [parity|].
    destruct (Z.to_nat (n * m)) as [|fuel] eqn:Hfuel; [lia|].
    cbn [carve_passages] in Hrun.
    destruct (shuffle carve_directions (gen (Carver g1 r2 []))) as [dirs r3] eqn:Hsh.
    rewrite carve_loop_corner in Hrun.
    - injection Hrun as <-. done.
    - intros d Hd. apply (shuffle_elem_of carve_directions (gen (Carver g1 r2 []))).
      by rewrite Hsh. }
  left. split; [done|].
  destruct (carve_passages_closes n m _ sx sy _ _ Hrun Hox Hoy ltac:(lia) ltac:(lia)
              (cv_cells _ _ _ _ Hcv)) as (_ & Hmono & Hclosed & Hnew).
  simpl in Hmono, Hnew.
  assert (forall q, odd q.1 -> odd q.2 -> opens (maze st) q -> closed_at n m (maze st) q)
    as Hall.
  { intros q Hq1 Hq2 Hq. destruct (decide (q = (sx, sy))) as [->|Hne]; [done|].
    apply Hnew; try done. by rewrite Hone. }
  assert (exists q, odd q.1 /\ odd q.2 /\ interior n m q /\ opens (maze st) q)
    as (q & Hq1 & Hq2 & Hqi & Hq).
  { destruct (decide (sx = m - 1)) as [->|Hsx'].
    - exists (m - 1 + -2, sy + 0). simpl.
      assert (interior n m (m - 1 + -2, sy + 0)) as Hi by (split; simpl; lia).
      split; [parity|]. split; [parity|]. split; [done|].
      apply (Hclosed (-2, 0)); [set_solver|done].
    - destruct (decide (sy = n - 1)) as [->|Hsy'].
      + exists (sx + 0, n - 1 + -2). simpl.
        assert (interior n m (sx + 0, n - 1 + -2)) as Hi by (split; simpl; lia).
        split; [parity|]. split; [parity|]. split; [done|].
        apply (Hclosed (0, -2)); [set_solver|done].
      + exists (sx, sy). split; [done|]. split; [done|].
        split; [split; simpl; lia|]. apply Hmono. by apply Hone. }
  intros x y Hx Hy Hi.
  apply (lattice_reach n m (maze st) ltac:(intros q' ? ? _ ?; by apply Hall)
           (Z.to_nat (Z.abs (x - q.1) + Z.abs (y - q.2))) q x y); try done.
  lia.
Qed.

(** X13.  The carving leaves no lattice cell out: in the grid
    [generate_maze] returns, for all draws, every cell with odd coordinates
    strictly inside the border is open; or else [n] and [m] are even, the
    carving started from the last cell of the last row, and that cell is the
    only open one. *)
Theorem generate_maze_spans (n m : Z) (r : rng) :
  5 <= n -> 5 <= m ->
  exists g, generate_maze n m r = Ok g /\
    ((forall x y, odd x -> odd y -> interior n m (x, y) -> opens g (x, y)) \/
     (even n /\ even m /\ forall p, opens g p <-> p = (m - 1, n - 1))).
Proof.
  intros Hn Hm.
  destruct (carve_maze_spans n m r Hn Hm)
    as (st & sx & sy & r1 & r2 & _ & _ & Hrun & _ & _ & _ & Hcase).
  exists (maze st). unfold generate_maze. rewrite Hrun. split; [done|].
  destruct Hcase as [[_ Hspan]|(_ & _ & Hen & Hem & Hone)]; [by left|by right].
Qed.

Lemma generate_maze_spans_witness :
  exists g, generate_maze 6 6 (Rng (fun _ => 2%nat) O) = Ok g /\
    ((forall x y, odd x -> odd y -> interior 6 6 (x, y) -> opens g (x, y)) \/
     (even 6 /\ even 6 /\ forall p, opens g p <-> p = (6 - 1, 6 - 1))).
Proof. apply (generate_maze_spans 6 6 (Rng (fun _ => 2%nat) O)); lia. Defined.

(** ** The open spots of a grid *)

Lemma spots_in_row_elem (x y : nat) (row : list ascii) (p : Z * Z) :
  p ∈ spots_in_row x y row <->
  exists i, row !! i = Some OPEN /\ p = (Z.of_nat (x + i), Z.of_nat y).
Proof.
  revert x. induction row as [|c row IH]; intros x; simpl.
  - split; [by intros ?%elem_of_nil|]. by intros (i & ? & _).
  - assert (p ∈ spots_in_row (S x) y row <->
            exists i, row !! i = Some OPEN /\ p = (Z.of_nat (x + S i), Z.of_nat y)) as IH'.
    { rewrite IH. split; intros (i & Hi & ->); exists i; (split; [done|]);
        do 2 f_equal; lia. }
    destruct (decide (c = OPEN)) as [->|Hc].
    + rewrite elem_of_cons, IH'. split.
      * intros [->|(i & Hi & ->)]; [exists O|exists (S i)]; (split; [done|]);
          do 2 f_equal; lia.
      * intros ([|i] & Hi & ->); [left; do 2 f_equal; lia|right; by exists i].
    + rewrite IH'. split.
      * intros (i & Hi & ->). by exists (S i).
      * intros ([|i] & Hi & ->); simpl in Hi; [congruence|]. by exists i.
Qed.

Lemma spots_from_elem (y : nat) (g : grid) (p : Z * Z) :
  p ∈ spots_from y g <->
  exists j i row, g !! j = Some row /\ row !! i = Some OPEN /\
    p = (Z.of_nat i, Z.of_nat (y + j)).
Proof.
  revert y. induction g as [|row g IH]; intros y; simpl.
  - split; [by intros ?%elem_of_nil|]. by intros (j & i & row & ? & _).
  - rewrite elem_of_app, spots_in_row_elem, IH. split.
    + intros [(i & Hi & ->)|(j & i & row' & Hj & Hi & ->)].
      * exists O, i, row. split; [done|]. split; [done|]. do 2 f_equal; lia.
      * exists (S j), i, row'. split; [done|]. split; [done|]. do 2 f_equal; lia.
    + intros ([|j] & i & row' & Hj & Hi & ->); simpl in Hj.
      * injection Hj as ->. left. exists i. split; [done|]. do 2 f_equal; lia.
      * right. exists j, i, row'. split; [done|]. split; [done|]. do 2 f_equal; lia.
Qed.

Lemma open_spots_opens (g : grid) (p : Z * Z) : p ∈ open_spots g <-> opens g p.
Proof.
  unfold open_spots, opens, cell. rewrite spots_from_elem. split.
  - intros (j & i & row & Hj & Hi & ->). simpl. rewrite decide_True by lia.
    rewrite !Nat2Z.id. rewrite Hj. done.
  - destruct (decide _) as [[? ?]|]; [|done].
    destruct (g !! Z.to_nat p.2) as [row|] eqn:Hrow; [|done]. simpl. intros Hc.
    exists (Z.to_nat p.2), (Z.to_nat p.1), row. split; [done|]. split; [done|].
    destruct p as [px py]. simpl in *. f_equal; lia.
Qed.

Lemma spots_in_row_NoDup (x y : nat) (row : list ascii) : NoDup (spots_in_row x y row).
Proof.
  revert x. induction row as [|c row IH]; intros x; simpl; [constructor|].
  destruct (decide (c = OPEN)); [|apply IH]. constructor; [|apply IH].
  rewrite spots_in_row_elem. intros (i & _ & Heq). injection Heq as Heq. lia.
Qed.

Lemma spots_from_NoDup (y : nat) (g : grid) : NoDup (spots_from y g).
Proof.
  revert y. induction g as [|row g IH]; intros y; simpl; [constructor|].
  apply NoDup_app. split; [apply spots_in_row_NoDup|]. split; [|apply IH].
  intros p Hp Hq. apply spots_in_row_elem in Hp as (i & _ & ->).
  apply spots_from_elem in Hq as (j & i' & row' & _ & _ & Heq). injection Heq as _ Heq. lia.
Qed.

Lemma length_spots_in_row (x y : nat) (row : list ascii) :
  length (spots_in_row x y row) = count_row OPEN row.
Proof.
  unfold count_row. revert x. induction row as [|c row IH]; intros x; simpl; [done|].
  destruct (decide (c = OPEN)) as [->|Hc].
  - rewrite filter_cons_True by done. simpl. by rewrite IH.
  - rewrite filter_cons_False by done. apply IH.
Qed.

Lemma length_open_spots (g : grid) : length (open_spots g) = count_cells OPEN g.
Proof.
  unfold open_spots, count_cells. generalize O.
  induction g as [|row g IH]; intros y; simpl; [done|].
  by rewrite length_app, length_spots_in_row, IH.
Qed.

(** ** Two elements of a population *)

Lemma redraw_spec (fuel n j0 j : nat) (r : rng) :
  (0 < n)%nat -> (j < n)%nat ->
  (j = j0 /\ (forall i, (i < fuel)%nat -> (draws r (cursor r + i) mod n)%nat = j0) /\
   redraw fuel n j0 j r = OutOfFuel) \/
  (exists j' r', redraw fuel n j0 j r = Ok (j', r') /\ j' <> j0 /\ (j' < n)%nat /\
     (j' = j \/ exists i, (i < fuel)%nat /\ (draws r (cursor r + i) mod n)%nat = j')).
Proof.
  intros Hn. revert j r. induction fuel as [|fuel IH]; intros j r Hj; simpl.
  - destruct (decide (j = j0)) as [->|Hne].
    + left. split; [done|]. split; [lia|done].
    + right. exists j, r. split; [done|]. split; [done|]. split; [done|]. by left.
  - destruct (decide (j = j0)) as [->|Hne].
    2:{ right. exists j, r. split; [done|]. split; [done|]. split; [done|]. by left. }
    destruct (IH (draws r (cursor r) mod n)%nat (Rng (draws r) (S (cursor r))))
      as [(Heq & Hall & Hrun)|(j' & r' & Hrun & Hne & Hlt & Hfrom)].
    { apply Nat.mod_upper_bound. lia. }
    + left. split; [done|]. split; [|done]. intros [|i] Hi.
      * by rewrite Nat.add_0_r.
      * simpl in Hall. rewrite <- (Hall i) by lia. do 2 f_equal. lia.
    + right. exists j', r'. split; [done|]. split; [done|]. split; [done|]. right.
      destruct Hfrom as [->|(i & Hi & Hd)].
      * exists O. split; [lia|]. by rewrite Nat.add_0_r.
      * exists (S i). split; [lia|]. simpl in Hd. rewrite <- Hd. do 2 f_equal. lia.
Qed.

(** [random.sample(population, 2)] gives the elements at two different
    indices, unless the draws keep it drawing. *)
Lemma sample2_spec {A} (fuel : nat) (population : list A) (r : rng) :
  (2 <= length population)%nat ->
  (sample_stuck fuel (length population) r /\ sample2 fuel population r = OutOfFuel) \/
  (~ sample_stuck fuel (length population) r /\
   exists i j a b r', i <> j /\ population !! i = Some a /\ population !! j = Some b /\
     sample2 fuel population r = Ok (a, b, r')).
Proof.
  intros Hlen. unfold sample2. set (n := length population) in *.
  destruct (Nat.ltb_spec n 2) as [?|_]; [lia|].
  destruct (Nat.leb_spec n 21) as [Hsmall|Hbig].
  - right. split; [intros [? _]; lia|].
    unfold randbelow at 1. cbv zeta.
    set (j1 := (draws r (cursor r) mod n)%nat).
    assert (j1 < n)%nat as Hj1 by (apply Nat.mod_upper_bound; lia).
    destruct (lookup_lt_is_Some_2 population j1 Hj1) as [a Ha].
    rewrite (index_lookup _ _ _ Ha). cbn [mbind result_bind].
    destruct (lookup_lt_is_Some_2 population (n - 1)) as [v Hv]; [lia|].
    replace (Z.of_nat n - 0 - 1) with (Z.of_nat (n - 1)) by lia.
    rewrite (index_lookup _ _ _ Hv). cbn [mbind result_bind].
    rewrite setitem_nonneg by (unfold Py.len; lia). cbn [mbind result_bind].
    rewrite Nat2Z.id. unfold randbelow. cbv zeta. cbn [cursor draws].
    set (j2 := (draws r (S (cursor r)) mod (n - 1))%nat).
    assert (j2 < n - 1)%nat as Hj2 by (apply Nat.mod_upper_bound; lia).
    set (pool := <[j1 := v]> population).
    assert (length pool = n) as Hpool by (unfold pool; by rewrite length_insert).
    destruct (lookup_lt_is_Some_2 pool j2) as [b Hb]; [lia|].
    rewrite (index_lookup _ _ _ Hb). cbn [mbind result_bind].
    destruct (lookup_lt_is_Some_2 pool (n - 2)) as [v' Hv']; [lia|].
    replace (Z.of_nat n - 1 - 1) with (Z.of_nat (n - 2)) by lia.
    rewrite (index_lookup _ _ _ Hv'). cbn [mbind result_bind].
    rewrite setitem_nonneg by (unfold Py.len; lia). cbn [mbind result_bind].
    destruct (decide (j2 = j1)) as [Heq|Hne].
    + exists j1, (n - 1)%nat, a, b, (Rng (draws r) (S (S (cursor r)))).
      split; [lia|]. split; [done|]. split; [|done].
      unfold pool in Hb. rewrite Heq in Hb.
      rewrite list_lookup_insert_eq in Hb by lia. congruence.
    + exists j1, j2, a, b, (Rng (draws r) (S (S (cursor r)))).
      split; [done|]. split; [done|]. split; [|done].
      unfold pool in Hb. by rewrite list_lookup_insert_ne in Hb.
  - set (j0 := (draws r (cursor r) mod n)%nat).
    assert (j0 < n)%nat as Hj0 by (apply Nat.mod_upper_bound; lia).
    destruct (lookup_lt_is_Some_2 population j0 Hj0) as [a Ha].
    set (j := (draws r (S (cursor r)) mod n)%nat).
    assert (j < n)%nat as Hj by (apply Nat.mod_upper_bound; lia).
    destruct (redraw_spec fuel n j0 j (Rng (draws r) (S (S (cursor r)))) ltac:(lia) Hj)
      as [(Heq & Hall & Hrun)|(j' & r' & Hrun & Hne & Hlt & Hfrom)].
    + left. split.
      * split; [done|]. intros [|i] Hi.
        -- rewrite Nat.add_0_r, Nat.add_1_r. done.
        -- specialize (Hall i ltac:(lia)). simpl in Hall. subst j j0.
           rewrite <- Hall. do 2 f_equal. lia.
      * subst j j0. unfold randbelow. cbv zeta. cbn [cursor draws].
        rewrite (index_lookup _ _ _ Ha). cbn [mbind result_bind]. by rewrite Hrun.
    + right. split.
      * intros [_ Hstuck]. apply Hne. destruct Hfrom as [->|(i & Hi & <-)].
        -- specialize (Hstuck O ltac:(lia)). rewrite Nat.add_0_r, Nat.add_1_r in Hstuck. done.
        -- simpl. subst j0. rewrite <- (Hstuck (S i)) by lia. do 2 f_equal. lia.
      * destruct (lookup_lt_is_Some_2 population j' Hlt) as [b Hb].
        exists j0, j', a, b, r'. split; [done|]. split; [done|]. split; [done|].
        subst j j0. unfold randbelow. cbv zeta. cbn [cursor draws].
        rewrite (index_lookup _ _ _ Ha). cbn [mbind result_bind]. rewrite Hrun.
        cbn [mbind result_bind]. by rewrite (index_lookup _ _ _ Hb).
Qed.

(** ** Placing the players *)

Lemma two_elements {A} (l : list A) (a b : A) : a ∈ l -> b ∈ l -> a <> b -> (2 <= length l)%nat.
Proof.
  destruct l as [|x [|y l]]; simpl; [by intros ?%elem_of_nil| |lia].
  intros Ha%list_elem_of_singleton Hb%list_elem_of_singleton. congruence.
Qed.

Lemma one_element {A} (l : list A) (c : A) :
  NoDup l -> (forall a, a ∈ l -> a = c) -> (length l <= 1)%nat.
Proof.
  destruct l as [|x [|y l]]; simpl; [lia|lia|]. intros Hnd Hall.
  apply NoDup_cons in Hnd as [Hx _]. destruct Hx.
  rewrite (Hall x), (Hall y); [apply list_elem_of_here|set_solver|set_solver].
Qed.

(** The three outcomes of [place_players]. *)
Lemma place_players_spec (fuel : nat) (g : grid) (r : rng) :
  ((count_cells OPEN g < 2)%nat /\ place_players fuel g r = Raise too_few_spots) \/
  ((2 <= count_cells OPEN g)%nat /\ sample_stuck fuel (count_cells OPEN g) r /\
   place_players fuel g r = OutOfFuel) \/
  ((2 <= count_cells OPEN g)%nat /\ ~ sample_stuck fuel (count_cells OPEN g) r /\
   exists g' r' p o, place_players fuel g r = Ok (g', r') /\
     opens g p /\ opens g o /\ p <> o /\ players_placed g g' p o).
Proof.
  unfold place_players. cbv zeta. unfold Py.len. rewrite <- length_open_spots.
  destruct (Z.ltb_spec (Z.of_nat (length (open_spots g))) 2) as [Hlt|Hge].
  { left. split; [lia|done]. }
  right.
  destruct (sample2_spec fuel (open_spots g) r ltac:(lia))
    as [[Hstuck ->]|(Hfree & i & j & p & o & r' & Hij & Hp & Ho & ->)].
  { left. split; [lia|]. by split. }
  right. split; [lia|]. split; [done|]. cbn [mbind result_bind].
  assert (p <> o) as Hne.
  { intros ->. apply Hij. by apply (NoDup_lookup (open_spots g) i j o (spots_from_NoDup O g)). }
  assert (opens g p) as Hop by (apply open_spots_opens, list_elem_of_lookup; eauto).
  assert (opens g o) as Hoo by (apply open_spots_opens, list_elem_of_lookup; eauto).
  destruct (cell_nonneg _ _ _ Hop) as [Hp1 Hp2]. destruct (cell_nonneg _ _ _ Hoo) as [Ho1 Ho2].
  destruct p as [px py], o as [ox oy]. simpl in *.
  destruct (set_cell_total g px py OPEN "P" Hop) as [g1 Hg1]. rewrite Hg1.
  cbn [mbind result_bind].
  apply set_cell_written in Hg1 as [Hd1 Hc1]; [|done..].
  assert (cell g1 (ox, oy) = Some OPEN) as Hoo1.
  { rewrite Hc1. by rewrite decide_False. }
  destruct (set_cell_total g1 ox oy OPEN "O" Hoo1) as [g2 Hg2]. rewrite Hg2.
  cbn [mbind result_bind].
  apply set_cell_written in Hg2 as [Hd2 Hc2]; [|done..].
  exists g2, r', (px, py), (ox, oy). split; [done|]. split; [done|]. split; [done|].
  split; [done|]. split; [congruence|]. intros q. by rewrite Hc2, Hc1.
Qed.

(** X14.  When [place_players] does not return: it raises only the
    [ValueError] for too few open spots, and exactly when fewer than two cells
    of the grid are open; and it runs on exactly when there are at least two
    open cells and the draws keep [random.sample] drawing. *)
Theorem place_players_fails (fuel : nat) (g : grid) (r : rng) :
  (forall e, place_players fuel g r = Raise e <->
     e = too_few_spots /\ (count_cells OPEN g < 2)%nat) /\
  (place_players fuel g r = OutOfFuel <->
     (2 <= count_cells OPEN g)%nat /\ sample_stuck fuel (count_cells OPEN g) r).
Proof.
  destruct (place_players_spec fuel g r)
    as [[Hlt ->]|[(Hge & Hstuck & ->)|(Hge & Hfree & g' & r' & p & o & -> & _)]].
  - split; [|split; [done|lia]]. intros e. split; [by intros [= <-]|by intros [-> _]].
  - split; [|done]. intros e. split; [done|lia].
  - split; [|split; [done|tauto]]. intros e. split; [done|lia].
Qed.



(** ** A maze with its players *)

Lemma choice_range_value (m : Z) (r : rng) :
  2 <= m ->
  choice (range 1 m 2) r =
    Ok (1 + 2 * Z.of_nat (draws r (cursor r) mod Z.to_nat (m / 2)),
        Rng (draws r) (S (cursor r))).
Proof.
  intros Hm. unfold choice, range.
  replace ((m - 1 + 2 - 1) / 2) with (m / 2) by (f_equal; lia).
  set (k := Z.to_nat (m / 2)).
  assert (0 < k)%nat as Hk by (unfold k; Z.div_mod_to_equations; lia).
  destruct ((fun i : nat => 1 + 2 * Z.of_nat i) <$> seq 0 k) as [|z zs] eqn:Hs.
  { apply (f_equal length) in Hs. rewrite length_fmap, length_seq in Hs. simpl in Hs. lia. }
  rewrite <- Hs. rewrite length_fmap, length_seq.
  unfold randbelow. set (i := (draws r (cursor r) mod k)%nat).
  assert (i < k)%nat as Hi by (apply Nat.mod_upper_bound; lia).
  rewrite (index_lookup _ i (1 + 2 * Z.of_nat i)); [done|].
  rewrite list_lookup_fmap, lookup_seq_lt by done. done.
Qed.

(** The outcomes of [generate_maze_with_players] on dimensions it accepts,
    with the two draws of the start cell and the run of the carving. *)
Lemma generate_maze_with_players_spec (fuel : nat) (n m : Z) (r : rng) :
  5 <= n -> 5 <= m ->
  exists st sx sy r1 r2,
    choice (range 1 m 2) r = Ok (sx, r1) /\ choice (range 1 n 2) r1 = Ok (sy, r2) /\
    carve_maze n m r = Ok st /\
    dims (maze st) = replicate (Z.to_nat n) (Z.to_nat m) /\ two_glyphs (maze st) /\
    ((sx = m - 1 /\ sy = n - 1 /\ even n /\ even m /\
      (count_cells OPEN (maze st) < 2)%nat /\
      generate_maze_with_players fuel n m r = Raise too_few_spots) \/
     (~ (sx = m - 1 /\ sy = n - 1) /\ (2 <= count_cells OPEN (maze st))%nat /\
      cell (maze st) (m - 1, n - 1) = Some WALL /\
      ((sample_stuck fuel (count_cells OPEN (maze st)) (gen st) /\
        generate_maze_with_players fuel n m r = OutOfFuel) \/
       (~ sample_stuck fuel (count_cells OPEN (maze st)) (gen st) /\
        exists g p o, generate_maze_with_players fuel n m r = Ok (grid_to_string g) /\
          opens (maze st) p /\ opens (maze st) o /\ p <> o /\
          players_placed (maze st) g p o)))).
Proof.
  intros Hn Hm.
  destruct (carve_maze_spans n m r Hn Hm)
    as (st & sx & sy & r1 & r2 & Hr1 & Hr2 & Hrun & Hdims & Hglyphs & Hint & Hcase).
  exists st, sx, sy, r1, r2. do 5 (split; [done|]).
  unfold generate_maze_with_players.
  destruct (Z.ltb_spec n 5) as [?|_]; [lia|]. destruct (Z.ltb_spec m 5) as [?|_]; [lia|].
  cbn [orb]. rewrite Hrun. cbn [mbind result_bind].
  destruct (place_players_spec fuel (maze st) (gen st))
    as [[Hlt Hpl]|[(Hge & Hstuck & Hpl)|(Hge & Hfree & g' & r' & p & o & Hpl & Hplaced)]];
    rewrite Hpl; cbn [mbind result_bind].
  - left. destruct Hcase as [[Hstart Hspan]|(-> & -> & Hen & Hem & Hone)]; [|done].
    exfalso. rewrite <- length_open_spots in Hlt.
    pose proof (two_elements (open_spots (maze st)) (1, 1) (3, 1)) as Htwo.
    assert (forall x, x = 1 \/ x = 3 -> (x, 1) ∈ open_spots (maze st)) as Hin.
    { intros x Hx. apply open_spots_opens, Hspan; [by destruct Hx as [-> | ->]|done|].
      split; simpl; lia. }
    specialize (Htwo (Hin 1 ltac:(lia)) (Hin 3 ltac:(lia)) ltac:(done)). lia.
  - right. destruct Hcase as [[Hstart Hspan]|(-> & -> & Hen & Hem & Hone)].
    2:{ exfalso. rewrite <- length_open_spots in Hge.
        pose proof (one_element (open_spots (maze st)) (m - 1, n - 1) (spots_from_NoDup O _))
          as Hle.
        specialize (Hle ltac:(intros a Ha; by apply Hone, open_spots_opens)). lia. }
    split; [done|]. split; [done|]. split; [|left; by split].
    destruct (cell_in_dims n m (maze st) (m - 1) (n - 1) Hdims) as [c Hc]; [lia..|].
    destruct (Hglyphs _ _ Hc) as [->| ->]; [done|].
    destruct (Hint _ Hc) as [[= ? ?]|[[_ ?] _]]; [by destruct Hstart|simpl in *; lia].
  - right. destruct Hcase as [[Hstart Hspan]|(-> & -> & Hen & Hem & Hone)].
    2:{ exfalso. rewrite <- length_open_spots in Hge.
        pose proof (one_element (open_spots (maze st)) (m - 1, n - 1) (spots_from_NoDup O _))
          as Hle.
        specialize (Hle ltac:(intros a Ha; by apply Hone, open_spots_opens)). lia. }
    split; [done|]. split; [done|]. split.
    + destruct (cell_in_dims n m (maze st) (m - 1) (n - 1) Hdims) as [c Hc]; [lia..|].
      destruct (Hglyphs _ _ Hc) as [->| ->]; [done|].
      destruct (Hint _ Hc) as [[= ? ?]|[[_ ?] _]]; [by destruct Hstart|simpl in *; lia].
    + right. split; [done|]. by exists g', p, o.
Qed.


(** X17.  When [n] and [m] are even and the first two draws give the last
    odd column and the last odd row, [generate_maze_with_players] raises
    [ValueError]: the carving starts in the corner, opens nothing more, and
    the maze has one open spot.  So does the module's own call, on a 10 by 10
    maze, with such draws. *)
Theorem generate_maze_with_players_corner (fuel : nat) (n m : Z) (r : rng) :
  5 <= n -> 5 <= m -> even n -> even m ->
  (draws r (cursor r) mod Z.to_nat (m / 2))%nat = Z.to_nat (m / 2 - 1) ->
  (draws r (S (cursor r)) mod Z.to_nat (n / 2))%nat = Z.to_nat (n / 2 - 1) ->
  generate_maze_with_players fuel n m r = Raise too_few_spots.
Proof.
  intros Hn Hm Hen Hem Hd1 Hd2.
  destruct (generate_maze_with_players_spec fuel n m r Hn Hm)
    as (st & sx & sy & r1 & r2 & Hr1 & Hr2 & _ & _ & _ & Hcase).
  rewrite choice_range_value in Hr1 by lia. injection Hr1 as <- <-.
  rewrite choice_range_value in Hr2 by lia. injection Hr2 as <- _.
  cbn [cursor draws] in Hcase. rewrite Hd1, Hd2 in Hcase.
  destruct Hcase as [(_ & _ & _ & _ & _ & ?)|[Hstart _]]; [done|].
  destruct Hstart. parity.
Qed.

Lemma generate_maze_with_players_corner_witness :
  generate_maze_with_players 0 10 10 (Rng (fun _ => 4%nat) O) = Raise too_few_spots.
Proof.
  apply (generate_maze_with_players_corner 0 10 10 (Rng (fun _ => 4%nat) O));
    try lia; reflexivity.
Defined.

(** X18.  When the maze [generate_maze] carved has two open cells, and
    unless the draws after the carving keep [random.sample] drawing,
    [generate_maze_with_players] returns the rendering of the maze with ['P']
    and ['O'] written on two different cells that were open; every other cell
    is as the carving left it. *)
Theorem generate_maze_with_players_places (fuel : nat) (n m : Z) (r : rng) (st : carver) :
  5 <= n -> 5 <= m -> carve_maze n m r = Ok st ->
  (2 <= count_cells OPEN (maze st))%nat ->
  ~ sample_stuck fuel (count_cells OPEN (maze st)) (gen st) ->
  generate_maze n m r = Ok (maze st) /\
  exists g p o, generate_maze_with_players fuel n m r = Ok (grid_to_string g) /\
    opens (maze st) p /\ opens (maze st) o /\ p <> o /\
    players_placed (maze st) g p o.
Proof.
  intros Hn Hm Hrun Hge Hfree. split; [unfold generate_maze; by rewrite Hrun|].
  destruct (generate_maze_with_players_spec fuel n m r Hn Hm)
    as (st' & sx & sy & r1 & r2 & _ & _ & Hrun' & _ & _ & Hcase).
  rewrite Hrun in Hrun'. injection Hrun' as <-.
  destruct (place_players_spec fuel (maze st) (gen st))
    as [[Hlt _]|[(_ & Hstuck & _)|(_ & _ & g' & r' & p & o & Hpl & Hplaced)]];
    [lia|done|].
  exists g', p, o. split; [|done].
  unfold generate_maze_with_players.
  destruct (Z.ltb_spec n 5) as [?|_]; [lia|]. destruct (Z.ltb_spec m 5) as [?|_]; [lia|].
  cbn [orb]. rewrite Hrun. cbn [mbind result_bind]. by rewrite Hpl.
Qed.

Lemma generate_maze_with_players_places_witness :
  exists st, carve_maze 5 5 (Rng (fun i => i) O) = Ok st /\
    generate_maze 5 5 (Rng (fun i => i) O) = Ok (maze st) /\
    exists g p o,
      generate_maze_with_players 0 5 5 (Rng (fun i => i) O) = Ok (grid_to_string g) /\
      opens (maze st) p /\ opens (maze st) o /\ p <> o /\
      players_placed (maze st) g p o.
Proof.
  eexists. split; [vm_compute; reflexivity|].
  apply (generate_maze_with_players_places 0 5 5 (Rng (fun i => i) O)).
  - lia.
  - lia.
  - vm_compute. reflexivity.
  - vm_compute. lia.
  - intros [H _]. vm_compute in H. lia.
Defined.

(** ** The open room *)

Lemma elem_of_range_0 (n i : Z) : i ∈ range 0 n 1 <-> 0 <= i < n.
Proof.
  unfold range. replace ((n - 0 + 1 - 1) / 1) with n by (rewrite Z.div_1_r; lia).
  rewrite list_elem_of_fmap. setoid_rewrite elem_of_seq. split.
  - intros (k & -> & Hk). lia.
  - intros Hi. exists (Z.to_nat i). lia.
Qed.

Lemma setitem_last {A} (l : list A) (v : A) :
  l <> [] -> Py.setitem l (-1) v = Py.setitem l (Py.len l - 1) v.
Proof.
  intros Hl. unfold Py.setitem, Py.len.
  assert (0 < Z.of_nat (length l)) by (destruct l; [done|simpl; lia]).
  change (-1 <? 0) with true. cbv iota.
  destruct (Z.ltb_spec (Z.of_nat (length l) - 1) 0) as [?|_]; [lia|].
  by replace (-1 + Z.of_nat (length l)) with (Z.of_nat (length l) - 1) by lia.
Qed.

Lemma index_last {A} (l : list A) :
  l <> [] -> Py.index l (-1) = Py.index l (Py.len l - 1).
Proof.
  intros Hl. unfold Py.index, Py.len.
  assert (0 < Z.of_nat (length l)) by (destruct l; [done|simpl; lia]).
  change (-1 <? 0) with true. cbv iota.
  destruct (Z.ltb_spec (Z.of_nat (length l) - 1) 0) as [?|_]; [lia|].
  by replace (-1 + Z.of_nat (length l)) with (Z.of_nat (length l) - 1) by lia.
Qed.

Section Room.

Variables (n m : Z).
Hypothesis Hn : 0 < n.
Hypothesis Hm : 0 < m.

Lemma set_cell_last_column (g : grid) (y : Z) (c : ascii) :
  dims g = replicate (Z.to_nat n) (Z.to_nat m) -> 0 <= y < n ->
  set_cell g (-1) y c = set_cell g (m - 1) y c.
Proof.
  intros Hd Hy. unfold set_cell. rewrite index_nonneg by lia.
  destruct (g !! Z.to_nat y) as [row|] eqn:Hrow; [|done]. cbn [mbind result_bind].
  assert (length row = Z.to_nat m) as Hlen.
  { assert (dims g !! Z.to_nat y = Some (length row)) as Hl
      by (unfold dims; by rewrite list_lookup_fmap, Hrow).
    rewrite Hd in Hl. by apply lookup_replicate in Hl as [-> _]. }
  rewrite setitem_last by (intros ->; simpl in Hlen; lia).
  unfold Py.len. rewrite Hlen. by replace (Z.of_nat (Z.to_nat m) - 1) with (m - 1) by lia.
Qed.

Lemma set_cell_last_row (g : grid) (x : Z) (c : ascii) :
  dims g = replicate (Z.to_nat n) (Z.to_nat m) ->
  set_cell g x (-1) c = set_cell g x (n - 1) c.
Proof.
  intros Hd. unfold set_cell.
  assert (length g = Z.to_nat n) as Hlen.
  { apply (f_equal length) in Hd. unfold dims in Hd.
    by rewrite length_fmap, length_replicate in Hd. }
  assert (g <> []) as Hg by (intros ->; simpl in Hlen; lia).
  rewrite index_last by done. unfold Py.len. rewrite Hlen.
  replace (Z.of_nat (Z.to_nat n) - 1) with (n - 1) by lia.
  destruct (Py.index g (n - 1)) as [row| |]; cbn [mbind result_bind]; try done.
  destruct (Py.setitem row x c) as [row'| |]; cbn [mbind result_bind]; try done.
  rewrite setitem_last by done. unfold Py.len. rewrite Hlen.
  by replace (Z.of_nat (Z.to_nat n) - 1) with (n - 1) by lia.
Qed.

(** Writing a wall on a cell of the box. *)
Lemma set_wall (g : grid) (x y : Z) :
  dims g = replicate (Z.to_nat n) (Z.to_nat m) -> 0 <= x < m -> 0 <= y < n ->
  exists g', set_cell g x y WALL = Ok g' /\
    dims g' = replicate (Z.to_nat n) (Z.to_nat m) /\
    forall q, cell g' q = if decide (q = (x, y)) then Some WALL else cell g q.
Proof.
  intros Hd Hx Hy. destruct (cell_in_dims n m g x y Hd Hx Hy) as [c0 Hc0].
  destruct (set_cell_total g x y c0 WALL Hc0) as [g' Hg']. exists g'. split; [done|].
  apply set_cell_written in Hg' as [Hd' Hc']; [|lia..]. split; [congruence|done].
Qed.

(** [for i in range(n): grid[i][0] = grid[i][-1] = '#'] *)
Lemma wall_rows_spec (l : list Z) (g : grid) :
  dims g = replicate (Z.to_nat n) (Z.to_nat m) -> (forall i, i ∈ l -> 0 <= i < n) ->
  exists g',
    for_range (fun i g => g ← set_cell g 0 i WALL; set_cell g (-1) i WALL) l g = Ok g' /\
    dims g' = replicate (Z.to_nat n) (Z.to_nat m) /\
    forall q, cell g' q =
      if decide (q.2 ∈ l /\ (q.1 = 0 \/ q.1 = m - 1)) then Some WALL else cell g q.
Proof.
  revert g. induction l as [|i l IH]; intros g Hd Hl.
  { exists g. split; [done|]. split; [done|]. intros q.
    rewrite decide_False; [done|]. intros [Hq _]. by apply elem_of_nil in Hq. }
  pose proof (Hl i (list_elem_of_here _ _)) as Hi.
  destruct (set_wall g 0 i Hd ltac:(lia) Hi) as (g1 & Hg1 & Hd1 & Hc1).
  destruct (set_wall g1 (m - 1) i Hd1 ltac:(lia) Hi) as (g2 & Hg2 & Hd2 & Hc2).
  destruct (IH g2 Hd2) as (g' & Hrun & Hd' & Hc').
  { intros j Hj. by apply Hl, list_elem_of_further. }
  exists g'. split.
  { cbn [for_range]. rewrite Hg1. cbn [mbind result_bind].
    rewrite set_cell_last_column by done. rewrite Hg2. cbn [mbind result_bind]. done. }
  split; [done|]. intros [qx qy]. rewrite Hc', Hc2, Hc1. simpl.
  destruct (decide (qy ∈ l /\ (qx = 0 \/ qx = m - 1))) as [[Hq1 Hq2]|Hq].
  { rewrite decide_True; [done|]. split; [by apply list_elem_of_further|done]. }
  destruct (decide ((qx, qy) = (m - 1, i))) as [[= -> ->]|Hne2].
  { rewrite decide_True; [done|]. split; [apply list_elem_of_here|by right]. }
  destruct (decide ((qx, qy) = (0, i))) as [[= -> ->]|Hne1].
  { rewrite decide_True; [done|]. split; [apply list_elem_of_here|by left]. }
  rewrite decide_False; [done|]. intros [Hq1 Hq2]. apply elem_of_cons in Hq1 as [->|Hq1].
  - destruct Hq2 as [-> | ->]; congruence.
  - by destruct Hq.
Qed.

(** [for j in range(m): grid[0][j] = grid[-1][j] = '#'] *)
Lemma wall_columns_spec (l : list Z) (g : grid) :
  dims g = replicate (Z.to_nat n) (Z.to_nat m) -> (forall j, j ∈ l -> 0 <= j < m) ->
  exists g',
    for_range (fun j g => g ← set_cell g j 0 WALL; set_cell g j (-1) WALL) l g = Ok g' /\
    dims g' = replicate (Z.to_nat n) (Z.to_nat m) /\
    forall q, cell g' q =
      if decide (q.1 ∈ l /\ (q.2 = 0 \/ q.2 = n - 1)) then Some WALL else cell g q.
Proof.
  revert g. induction l as [|j l IH]; intros g Hd Hl.
  { exists g. split; [done|]. split; [done|]. intros q.
    rewrite decide_False; [done|]. intros [Hq _]. by apply elem_of_nil in Hq. }
  pose proof (Hl j (list_elem_of_here _ _)) as Hj.
  destruct (set_wall g j 0 Hd Hj ltac:(lia)) as (g1 & Hg1 & Hd1 & Hc1).
  destruct (set_wall g1 j (n - 1) Hd1 Hj ltac:(lia)) as (g2 & Hg2 & Hd2 & Hc2).
  destruct (IH g2 Hd2) as (g' & Hrun & Hd' & Hc').
  { intros k Hk. by apply Hl, list_elem_of_further. }
  exists g'. split.
  { cbn [for_range]. rewrite Hg1. cbn [mbind result_bind].
    rewrite set_cell_last_row by done. rewrite Hg2. cbn [mbind result_bind]. done. }
  split; [done|]. intros [qx qy]. rewrite Hc', Hc2, Hc1. simpl.
  destruct (decide (qx ∈ l /\ (qy = 0 \/ qy = n - 1))) as [[Hq1 Hq2]|Hq].
  { rewrite decide_True; [done|]. split; [by apply list_elem_of_further|done]. }
  destruct (decide ((qx, qy) = (j, n - 1))) as [[= -> ->]|Hne2].
  { rewrite decide_True; [done|]. split; [apply list_elem_of_here|by right]. }
  destruct (decide ((qx, qy) = (j, 0))) as [[= -> ->]|Hne1].
  { rewrite decide_True; [done|]. split; [apply list_elem_of_here|by left]. }
  rewrite decide_False; [done|]. intros [Hq1 Hq2]. apply elem_of_cons in Hq1 as [->|Hq1].
  - destruct Hq2 as [-> | ->]; congruence.
  - by destruct Hq.
Qed.

(** The room before the players are placed. *)
Lemma walled_room :
  exists g0 g,
    for_range (fun i g => g ← set_cell g 0 i WALL; set_cell g (-1) i WALL)
      (range 0 n 1) (replicate (Z.to_nat n) (replicate (Z.to_nat m) OPEN)) = Ok g0 /\
    for_range (fun j g => g ← set_cell g j 0 WALL; set_cell g j (-1) WALL)
      (range 0 m 1) g0 = Ok g /\
    dims g = replicate (Z.to_nat n) (Z.to_nat m) /\
    forall q, 0 <= q.1 < m -> 0 <= q.2 < n ->
      cell g q = Some (if decide ((0 < q.1 < m - 1) /\ (0 < q.2 < n - 1)) then OPEN
                       else WALL).
Proof.
  set (g0 := replicate (Z.to_nat n) (replicate (Z.to_nat m) OPEN)).
  assert (dims g0 = replicate (Z.to_nat n) (Z.to_nat m)) as Hd0.
  { unfold dims, g0. rewrite fmap_replicate. by rewrite length_replicate. }
  assert (forall q, 0 <= q.1 < m -> 0 <= q.2 < n -> cell g0 q = Some OPEN) as Hc0.
  { intros q Hq1 Hq2. unfold cell, g0. rewrite decide_True by lia.
    rewrite lookup_replicate_2 by lia. simpl. by rewrite lookup_replicate_2 by lia. }
  destruct (wall_rows_spec (range 0 n 1) g0 Hd0) as (g1 & Hg1 & Hd1 & Hc1).
  { intros i. apply elem_of_range_0. }
  destruct (wall_columns_spec (range 0 m 1) g1 Hd1) as (g2 & Hg2 & Hd2 & Hc2).
  { intros j. apply elem_of_range_0. }
  exists g1, g2. split; [done|]. split; [done|]. split; [done|]. intros q Hq1 Hq2.
  rewrite Hc2, Hc1, Hc0 by done.
  destruct (decide ((0 < q.1 < m - 1) /\ (0 < q.2 < n - 1))) as [Hi|Hb].
  - rewrite decide_False by (intros [_ ?]; lia).
    rewrite decide_False by (intros [_ ?]; lia). done.
  - destruct (decide (q.1 ∈ range 0 m 1 /\ (q.2 = 0 \/ q.2 = n - 1))) as [?|Hc]; [done|].
    rewrite decide_True; [done|]. split; [by apply elem_of_range_0|].
    destruct (decide (q.2 = 0 \/ q.2 = n - 1)) as [Hq|?]; [|lia].
    destruct Hc. split; [by apply elem_of_range_0|done].
Qed.

End Room.

Lemma randint_spec (a b : Z) (r : rng) :
  a <= b ->
  randint a b r =
    Ok (a + Z.of_nat (draws r (cursor r) mod Z.to_nat (b + 1 - a)),
        Rng (draws r) (S (cursor r))) /\
  a <= a + Z.of_nat (draws r (cursor r) mod Z.to_nat (b + 1 - a)) <= b.
Proof.
  intros Hab. unfold randint, randbelow. cbv zeta.
  destruct (Z.ltb_spec 0 (b + 1 - a)) as [_|?]; [|lia]. split; [done|].
  pose proof (Nat.mod_upper_bound (draws r (cursor r)) (Z.to_nat (b + 1 - a))). lia.
Qed.

Lemma randint_empty (a b : Z) (r : rng) : b < a -> randint a b r = Raise empty_range.
Proof.
  intros Hab. unfold randint. cbv zeta.
  by destruct (Z.ltb_spec 0 (b + 1 - a)) as [?|_]; [lia|].
Qed.

(** The loop that draws the opponent's cell, from any state. *)
Lemma place_opponent_spec (fuel : nat) (n m px py ox oy : Z) (r : rng) :
  3 <= n -> 3 <= m ->
  ((ox, oy) = (px, py) /\
   (forall i, (i < fuel)%nat ->
      1 + Z.of_nat (draws r (cursor r + 2 * i) mod Z.to_nat (m - 2)) = px /\
      1 + Z.of_nat (draws r (cursor r + 1 + 2 * i) mod Z.to_nat (n - 2)) = py) /\
   place_opponent fuel n m px py ox oy r = OutOfFuel) \/
  (exists ox' oy' r',
     place_opponent fuel n m px py ox oy r = Ok (ox', oy', r') /\ (ox', oy') <> (px, py) /\
     ((ox', oy') = (ox, oy) \/
      (1 <= ox' <= m - 2) /\ (1 <= oy' <= n - 2) /\
      exists i, (i < fuel)%nat /\
        (1 + Z.of_nat (draws r (cursor r + 2 * i) mod Z.to_nat (m - 2)) <> px \/
         1 + Z.of_nat (draws r (cursor r + 1 + 2 * i) mod Z.to_nat (n - 2)) <> py))).
Proof.
  intros Hn Hm. revert ox oy r. induction fuel as [|fuel IH]; intros ox oy r.
  - cbn [place_opponent].
    destruct (Z.eqb_spec ox px) as [->|Hx], (Z.eqb_spec oy py) as [->|Hy]; cbn [andb].
    + left. split; [done|]. split; [lia|done].
    + right. exists px, oy, r. split; [done|]. split; [congruence|by left].
    + right. exists ox, py, r. split; [done|]. split; [congruence|by left].
    + right. exists ox, oy, r. split; [done|]. split; [congruence|by left].
  - cbn [place_opponent].
    assert (forall b : bool, b = (ox =? px) && (oy =? py) ->
              b = false -> (ox, oy) <> (px, py)) as Hneq.
    { intros b -> Hb [= -> ->]. by rewrite !Z.eqb_refl in Hb. }
    destruct ((ox =? px) && (oy =? py)) eqn:Hcond.
    2:{ right. exists ox, oy, r. split; [done|]. split; [by apply (Hneq false)|by left]. }
    clear Hneq. apply andb_prop in Hcond as [->%Z.eqb_eq ->%Z.eqb_eq].
    destruct (randint_spec 1 (m - 2) r ltac:(lia)) as [-> Hx].
    cbn [mbind result_bind].
    destruct (randint_spec 1 (n - 2) (Rng (draws r) (S (cursor r))) ltac:(lia)) as [-> Hy].
    cbn [mbind result_bind cursor draws] in *.
    replace (m - 2 + 1 - 1) with (m - 2) in * by lia.
    replace (n - 2 + 1 - 1) with (n - 2) in * by lia.
    set (x := 1 + Z.of_nat (draws r (cursor r) mod Z.to_nat (m - 2))) in *.
    set (y := 1 + Z.of_nat (draws r (S (cursor r)) mod Z.to_nat (n - 2))) in *.
    destruct (IH x y (Rng (draws r) (S (S (cursor r)))))
      as [(Heq & Hall & Hrun)|(ox' & oy' & r' & Hrun & Hne & Hfrom)].
    + left. split; [done|]. split; [|done]. injection Heq as Hx' Hy'.
      intros [|i] Hi.
      * rewrite Nat.mul_0_r, !Nat.add_0_r, Nat.add_1_r. done.
      * specialize (Hall i ltac:(lia)). cbn [cursor draws] in Hall.
        replace (cursor r + 2 * S i)%nat with (S (S (cursor r)) + 2 * i)%nat by lia.
        replace (cursor r + 1 + 2 * S i)%nat with (S (S (cursor r)) + 1 + 2 * i)%nat by lia.
        done.
    + right. exists ox', oy', r'. split; [done|]. split; [done|]. right.
      destruct Hfrom as [[= -> ->]|(Hx' & Hy' & i & Hi & Hd)].
      * split; [done|]. split; [done|]. exists O. split; [lia|].
        rewrite Nat.mul_0_r, !Nat.add_0_r, Nat.add_1_r. fold x y.
        destruct (decide (x = px)) as [->|?]; [|by left].
        right. intros ->. done.
      * split; [done|]. split; [done|]. exists (S i). split; [lia|].
        cbn [cursor draws] in Hd.
        replace (cursor r + 2 * S i)%nat with (S (S (cursor r)) + 2 * i)%nat by lia.
        replace (cursor r + 1 + 2 * S i)%nat with (S (S (cursor r)) + 1 + 2 * i)%nat by lia.
        done.
Qed.

(** The two outcomes of [generate_grid_with_characters] on dimensions that
    leave room for a player. *)
Lemma generate_grid_with_characters_spec (fuel : nat) (n m : Z) (r : rng) :
  3 <= n -> 3 <= m ->
  (opponent_stuck fuel n m r /\ generate_grid_with_characters fuel n m r = OutOfFuel) \/
  (~ opponent_stuck fuel n m r /\
   exists g p o, generate_grid_with_characters fuel n m r = Ok (grid_to_string g) /\
     interior n m p /\ interior n m o /\ p <> o /\ room_with_players n m g p o).
Proof.
  intros Hn Hm. unfold generate_grid_with_characters.
  destruct (Z.ltb_spec n 2) as [?|_]; [lia|]. destruct (Z.ltb_spec m 2) as [?|_]; [lia|].
  cbn [orb]. cbv zeta.
  destruct (walled_room n m ltac:(lia) ltac:(lia)) as (g0 & g & -> & Hg & Hd & Hc).
  cbn [mbind result_bind]. rewrite Hg. cbn [mbind result_bind].
  destruct (randint_spec 1 (m - 2) r ltac:(lia)) as [-> Hx]. cbn [mbind result_bind].
  destruct (randint_spec 1 (n - 2) (Rng (draws r) (S (cursor r))) ltac:(lia)) as [-> Hy].
  cbn [mbind result_bind cursor draws] in *.
  replace (m - 2 + 1 - 1) with (m - 2) in * by lia.
  replace (n - 2 + 1 - 1) with (n - 2) in * by lia.
  set (px := 1 + Z.of_nat (draws r (cursor r) mod Z.to_nat (m - 2))) in *.
  set (py := 1 + Z.of_nat (draws r (S (cursor r)) mod Z.to_nat (n - 2))) in *.
  destruct (place_opponent_spec fuel n m px py px py (Rng (draws r) (S (S (cursor r)))) Hn Hm)
    as [(_ & Hall & ->)|(ox & oy & r' & -> & Hne & Hfrom)]; cbn [mbind result_bind].
  - left. split; [|done]. intros i Hi. destruct (Hall i Hi) as [H1 H2].
    cbn [cursor draws] in H1, H2. unfold px in H1. unfold py in H2.
    replace (cursor r + 2 + 2 * i)%nat with (S (S (cursor r)) + 2 * i)%nat by lia.
    replace (cursor r + 3 + 2 * i)%nat with (S (S (cursor r)) + 1 + 2 * i)%nat by lia.
    replace (cursor r + 1)%nat with (S (cursor r)) by lia. lia.
  - right. destruct Hfrom as [Heq|(Hox & Hoy & i & Hi & Hd')]; [done|]. split.
    { intros Hstuck. destruct (Hstuck i Hi) as [H1 H2]. cbn [cursor draws] in Hd'.
      unfold px, py in Hd'.
      replace (cursor r + 2 + 2 * i)%nat with (S (S (cursor r)) + 2 * i)%nat in H1 by lia.
      replace (cursor r + 3 + 2 * i)%nat with (S (S (cursor r)) + 1 + 2 * i)%nat in H2 by lia.
      replace (cursor r + 1)%nat with (S (cursor r)) in H2 by lia. lia. }
    destruct (cell_in_dims n m g px py Hd ltac:(lia) ltac:(lia)) as [c1 Hc1].
    destruct (set_cell_total g px py c1 "P" Hc1) as [g1 Hg1]. rewrite Hg1.
    cbn [mbind result_bind].
    apply set_cell_written in Hg1 as [Hd1 Hw1]; [|lia..].
    destruct (cell_in_dims n m g1 ox oy ltac:(congruence) ltac:(lia) ltac:(lia)) as [c2 Hc2].
    destruct (set_cell_total g1 ox oy c2 "O" Hc2) as [g2 Hg2]. rewrite Hg2.
    cbn [mbind result_bind].
    apply set_cell_written in Hg2 as [Hd2 Hw2]; [|lia..].
    exists g2, (px, py), (ox, oy). split; [done|].
    split; [split; simpl; lia|]. split; [split; simpl; lia|]. split; [congruence|].
    split; [congruence|]. intros q Hq1 Hq2. rewrite Hw2, Hw1, (Hc q Hq1 Hq2).
    destruct (decide (q = (ox, oy))); [done|]. by destruct (decide (q = (px, py))).
Qed.

(** X19.  When [generate_grid_with_characters] does not return.  It raises
    the [ValueError] for small dimensions exactly when [n < 2] or [m < 2]; it
    raises the [ValueError] of [random.randint], for an empty range, exactly
    when [n] or [m] is 2 and neither is smaller; it raises nothing else; and it
    runs on exactly when [n] and [m] are at least 3 and every cell drawn for the
    opponent is the cell of the player. *)
Theorem generate_grid_with_characters_fails (fuel : nat) (n m : Z) (r : rng) :
  (forall e, generate_grid_with_characters fuel n m r = Raise e <->
     (e = grid_too_small /\ (n < 2 \/ m < 2)) \/
     (e = empty_range /\ 2 <= n /\ 2 <= m /\ (n = 2 \/ m = 2))) /\
  (generate_grid_with_characters fuel n m r = OutOfFuel <->
     3 <= n /\ 3 <= m /\ opponent_stuck fuel n m r).
Proof.
  destruct (decide (n < 2 \/ m < 2)) as [Hsmall|Hbig].
  { assert (generate_grid_with_characters fuel n m r = Raise grid_too_small) as ->.
    { unfold generate_grid_with_characters.
      destruct (Z.ltb_spec n 2), (Z.ltb_spec m 2); try done. lia. }
    split; [|split; [done|lia]]. intros e. split.
    - intros [= <-]. by left.
    - intros [[-> _]|(_ & ? & ? & _)]; [done|lia]. }
  destruct (decide (n = 2 \/ m = 2)) as [Htwo|Hthree].
  { assert (generate_grid_with_characters fuel n m r = Raise empty_range) as ->.
    { unfold generate_grid_with_characters.
      destruct (Z.ltb_spec n 2) as [?|_]; [lia|]. destruct (Z.ltb_spec m 2) as [?|_]; [lia|].
      cbn [orb]. cbv zeta.
      destruct (walled_room n m ltac:(lia) ltac:(lia)) as (g0 & g & -> & Hg & _).
      cbn [mbind result_bind]. rewrite Hg. cbn [mbind result_bind].
      destruct (decide (m = 2)) as [->|Hm]; [by rewrite randint_empty by lia|].
      destruct (randint_spec 1 (m - 2) r ltac:(lia)) as [-> _]. cbn [mbind result_bind].
      by rewrite randint_empty by lia. }
    split; [|split; [done|lia]]. intros e. split.
    - intros [= <-]. right. split; [done|]. lia.
    - intros [[_ ?]|[-> _]]; [lia|done]. }
  destruct (generate_grid_with_characters_spec fuel n m r ltac:(lia) ltac:(lia))
    as [[Hstuck ->]|(Hfree & g & p & o & -> & _)].
  - split.
    + intros e. split; [done|]. intros [[_ ?]|(_ & _ & _ & ?)]; tauto.
    + split; [|done]. intros _. split; [lia|]. split; [lia|done].
  - split.
    + intros e. split; [done|]. intros [[_ ?]|(_ & _ & _ & ?)]; tauto.
    + split; [done|]. by intros (_ & _ & ?).
Qed.

(** X20.  [generate_grid_with_characters(3, 3)] never returns: the room has
    one inner cell, the player takes it, and every cell drawn for the opponent
    is that cell again.  Whatever the draws and the bound on the loop, the
    bound is exhausted. *)
Theorem generate_grid_3_3_never_returns (fuel : nat) (r : rng) :
  generate_grid_with_characters fuel 3 3 r = OutOfFuel.
Proof.
  destruct (generate_grid_with_characters_spec fuel 3 3 r ltac:(lia) ltac:(lia))
    as [[_ ?]|[Hfree _]]; [done|].
  destruct Hfree. intros i _. change (Z.to_nat (3 - 2)) with 1%nat.
  by rewrite !Nat.mod_1_r.
Qed.

(** X21.  For [n] and [m] at least 3, and unless every cell drawn for the
    opponent is the cell of the player, [generate_grid_with_characters]
    returns the rendering of an [n] by [m] room: ['#'] on every border cell,
    ['P'] and ['O'] on two different cells strictly inside, [' '] on every
    other cell. *)
Theorem generate_grid_with_characters_room (fuel : nat) (n m : Z) (r : rng) :
  3 <= n -> 3 <= m -> ~ opponent_stuck fuel n m r ->
  exists g p o, generate_grid_with_characters fuel n m r = Ok (grid_to_string g) /\
    interior n m p /\ interior n m o /\ p <> o /\ room_with_players n m g p o.
Proof.
  intros Hn Hm Hfree.
  destruct (generate_grid_with_characters_spec fuel n m r Hn Hm) as [[Hstuck _]|[_ Hok]];
    [done|done].
Qed.

Lemma generate_grid_with_characters_room_witness :
  exists g p o,
    generate_grid_with_characters 1 4 5 (Rng (fun i => i) O) = Ok (grid_to_string g) /\
    interior 4 5 p /\ interior 4 5 o /\ p <> o /\ room_with_players 4 5 g p o.
Proof.
  apply (generate_grid_with_characters_room 1 4 5 (Rng (fun i => i) O)); [lia|lia|].
  intros H. destruct (H O ltac:(lia)) as [H1 _]. vm_compute in H1. discriminate.
Defined.

(** ** Generated grids as inputs of the agents *)

Lemma in_bounds_replicate (n m : Z) (g : grid) (q : Z * Z) :
  dims g = replicate (Z.to_nat n) (Z.to_nat m) -> 0 < n ->
  (in_bounds g q <-> (0 <= q.1 < m) /\ (0 <= q.2 < n)).
Proof.
  intros Hd Hn. unfold in_bounds, Py.len.
  assert (length g = Z.to_nat n) as ->.
  { apply (f_equal length) in Hd. unfold dims in Hd.
    by rewrite length_fmap, length_replicate in Hd. }
  assert (length (default [] (head g)) = Z.to_nat m) as ->; [|lia].
  destruct g as [|row g]; simpl in *.
  - destruct (Z.to_nat n) eqn:?; [lia|done].
  - destruct (Z.to_nat n) eqn:?; [done|]. simpl in Hd. by injection Hd.
Qed.

Lemma rectangular_replicate (n m : Z) (g : grid) :
  dims g = replicate (Z.to_nat n) (Z.to_nat m) -> rectangular g.
Proof.
  intros Hd row Hrow.
  assert (forall r, r ∈ g -> length r = Z.to_nat m) as Hall.
  { intros r Hr. apply list_elem_of_lookup in Hr as [j Hj].
    assert (dims g !! j = Some (length r)) as Hl
      by (unfold dims; by rewrite list_lookup_fmap, Hj).
    rewrite Hd in Hl. by apply lookup_replicate in Hl as [-> _]. }
  rewrite (Hall row Hrow). destruct g as [|r0 g]; [by apply elem_of_nil in Hrow|].
  simpl. symmetry. apply Hall, list_elem_of_here.
Qed.

Lemma count_row_absent (c : ascii) (row : list ascii) :
  (forall i, row !! i <> Some c) -> count_row c row = O.
Proof.
  unfold count_row. induction row as [|a row IH]; intros H; [done|].
  rewrite filter_cons_False by (intros ->; by apply (H O)).
  apply IH. intros i. apply (H (S i)).
Qed.

Lemma count_row_unique (c : ascii) (row : list ascii) (i : nat) :
  row !! i = Some c -> (forall j, row !! j = Some c -> j = i) -> count_row c row = 1%nat.
Proof.
  revert i. induction row as [|a row IH]; intros i Hi Hone; [done|].
  destruct (decide (a = c)) as [->|Hne].
  - assert (i = O) as -> by (symmetry; by apply Hone).
    unfold count_row. rewrite filter_cons_True by done. simpl. f_equal.
    apply count_row_absent. intros j Hj. by specialize (Hone (S j) Hj).
  - destruct i as [|i]; simpl in Hi; [congruence|].
    unfold count_row. rewrite filter_cons_False by done. apply (IH i Hi).
    intros j Hj. specialize (Hone (S j) Hj). lia.
Qed.

Lemma count_cells_unique (c : ascii) (g : grid) (p : Z * Z) :
  (forall q, cell g q = Some c <-> q = p) -> count_cells c g = 1%nat.
Proof.
  intros Hone. assert (cell g p = Some c) as Hp by (by apply Hone).
  destruct (cell_nonneg _ _ _ Hp) as [Hp1 Hp2].
  assert (forall (j i : nat) (row : list ascii),
            g !! j = Some row -> row !! i = Some c ->
            j = Z.to_nat p.2 /\ i = Z.to_nat p.1) as Hnat.
  { intros j i row Hj Hi.
    assert ((Z.of_nat i, Z.of_nat j) = p) as <-.
    { apply Hone. unfold cell. simpl. rewrite decide_True by lia.
      rewrite !Nat2Z.id, Hj. done. }
    simpl. lia. }
  unfold cell in Hp. rewrite decide_True in Hp by done.
  destruct (g !! Z.to_nat p.2) as [row0|] eqn:Hrow0; [|done]. simpl in Hp.
  clear Hone Hp1 Hp2.
  remember (Z.to_nat p.2) as j0 eqn:Hj0. remember (Z.to_nat p.1) as i0 eqn:Hi0.
  clear Hj0 Hi0. unfold count_cells. revert j0 Hrow0 Hnat.
  induction g as [|r g IH]; intros j0 Hrow0 Hnat; [done|]. simpl.
  destruct j0 as [|j0]; simpl in Hrow0.
  - injection Hrow0 as ->. rewrite (count_row_unique c row0 i0 Hp).
    2:{ intros j Hj. by destruct (Hnat O j row0 eq_refl Hj). }
    f_equal. clear IH. assert (forall j i row, g !! j = Some row -> row !! i <> Some c) as Hno.
    { intros j i row Hj Hi. by destruct (Hnat (S j) i row Hj Hi). }
    clear Hnat. induction g as [|r g IH]; [done|]. simpl.
    rewrite count_row_absent by (intros i; apply (Hno O i r eq_refl)).
    apply IH. intros j i row Hj. apply (Hno (S j) i row Hj).
  - rewrite count_row_absent.
    2:{ intros i Hi. by destruct (Hnat O i r eq_refl Hi). }
    apply (IH j0 Hrow0). intros j i row Hj Hi.
    destruct (Hnat (S j) i row Hj Hi) as [? ?]. split; lia.
Qed.

(** The rendering of a grid of glyphs with walls in its first and last
    cell parses back to the grid. *)
Lemma rendered_parses (n m : Z) (g : grid) :
  dims g = replicate (Z.to_nat n) (Z.to_nat m) -> 0 < n -> 0 < m ->
  (forall p c, cell g p = Some c -> glyph c) ->
  cell g (0, 0) = Some WALL -> cell g (m - 1, n - 1) = Some WALL ->
  parse_grid (grid_to_string g) = g.
Proof.
  intros Hd Hn Hm Hglyph Hfirst Hlast.
  assert (Forall (Forall glyph) g) as Hg.
  { apply Forall_lookup. intros j row Hj. apply Forall_lookup. intros i c Hi.
    apply (Hglyph (Z.of_nat i, Z.of_nat j)). unfold cell. simpl.
    rewrite decide_True by lia. by rewrite !Nat2Z.id, Hj. }
  apply parse_grid_lines; [| done | | done].
  2:{ intros ->. unfold cell in Hfirst. simpl in Hfirst. done. }
  unfold Py.strip.
  assert (Py.lstrip (grid_to_string g) = grid_to_string g) as ->.
  { unfold cell in Hfirst. simpl in Hfirst.
    destruct g as [|[|c r] rest]; try done. simpl in Hfirst. injection Hfirst as ->.
    unfold grid_to_string. destruct rest; simpl; done. }
  unfold cell in Hlast. simpl in Hlast. rewrite decide_True in Hlast by lia.
  destruct (g !! Z.to_nat (n - 1)) as [row|] eqn:Hrow; [|done]. simpl in Hlast.
  assert (length g = Z.to_nat n) as Hlen.
  { apply (f_equal length) in Hd. unfold dims in Hd.
    by rewrite length_fmap, length_replicate in Hd. }
  assert (length row = Z.to_nat m) as Hlenr.
  { assert (dims g !! Z.to_nat (n - 1) = Some (length row)) as Hl
      by (unfold dims; by rewrite list_lookup_fmap, Hrow).
    rewrite Hd in Hl. by apply lookup_replicate in Hl as [-> _]. }
  assert (last g = Some row) as Hlg.
  { rewrite last_lookup, Hlen. rewrite <- Hrow. f_equal. lia. }
  assert (last row = Some WALL) as Hlr.
  { rewrite last_lookup, Hlenr. rewrite <- Hlast. f_equal. lia. }
  apply last_Some in Hlr as [r ->]. apply last_Some in Hlg as [g' ->].
  destruct (join_ends (String NEWLINE EmptyString)
              (string_of_list_ascii <$> (g' ++ [r ++ [WALL]]))
              (string_of_list_ascii r) WALL) as [s Hs].
  { rewrite fmap_last, last_snoc. simpl. by rewrite string_of_list_ascii_snoc. }
  unfold grid_to_string. rewrite Hs. by apply rstrip_snoc.
Qed.

(** A simple path through the cells [P] gives a path of the search. *)
Lemma spath_open_path (g : grid) (P : Z * Z -> Prop) (a b : Z * Z) (l : list (Z * Z)) :
  spath P a b l -> a <> b ->
  (forall x, x ∈ l -> x <> a -> x <> b -> is_open g x) ->
  exists w k, open_path g a w k /\ adjacent w b.
Proof.
  induction 1 as [a Ha|a c b l Ha Hadj Hp IH Hnin]; intros Hne Hopen; [done|].
  destruct (decide (c = b)) as [->|Hcb].
  { exists a, 0. split; [constructor|done]. }
  destruct (IH Hcb) as (w & k & Hw & Hwb).
  { intros x Hx _ Hxb. apply Hopen; [by apply list_elem_of_further| |done].
    intros ->. done. }
  exists w, (k + 1). split; [|done].
  apply (open_path_cons g a c w k Hw Hadj). apply Hopen.
  - apply list_elem_of_further. by apply (spath_first P c b).
  - intros ->. apply Hnin. by apply (spath_first P a b).
  - done.
Qed.

(** A grid with one player, one opponent and a path between them: the
    search finds a distance, and it is at least one. *)
Lemma players_pursuit (n m : Z) (g : grid) (p o w : Z * Z) (k : Z) :
  dims g = replicate (Z.to_nat n) (Z.to_nat m) -> 0 < n ->
  (forall q, cell g q = Some "P"%char <-> q = p) ->
  (forall q, cell g q = Some "O"%char <-> q = o) ->
  p <> o -> open_path g p w k -> adjacent w o ->
  rectangular g /\ count_cells "P" g = 1%nat /\ count_cells "O" g = 1%nat /\
  get_character_coordinates g "P" = Some p /\ get_character_coordinates g "O" = Some o /\
  exists d, calculate_path_distance g "P" "O" = Ok d /\ 1 <= d <= k + 1 /\
            shortest g p o d.
Proof.
  intros Hd Hn HP HO Hne Hw Hwo.
  pose proof (rectangular_replicate n m g Hd) as Hrect.
  pose proof (coordinates_unique g "P" p HP) as Hcp.
  pose proof (coordinates_unique g "O" o HO) as Hco.
  split; [done|]. split; [by apply (count_cells_unique _ g p)|].
  split; [by apply (count_cells_unique _ g o)|]. split; [done|]. split; [done|].
  destruct (calculate_path_distance_shortest g "P" "O" p o Hrect Hcp Hco)
    as (d & Hrun & Hshort).
  exists d. split; [done|]. split; [|done].
  assert (path_between g p o (k + 1)) as Hpath.
  { right. exists w. replace (k + 1 - 1) with k by lia. split; [done|]. split; [done|].
    by apply (coordinates_in_bounds g "O"). }
  destruct Hshort as [[_ Hno]|[Hp Hmin]]; [by destruct (Hno (k + 1))|].
  split; [|by apply Hmin].
  destruct Hp as [[? _]|(w' & Hw' & _)]; [done|]. apply open_path_nonneg in Hw'. lia.
Qed.

(** In a room the straight way to the opponent is open. *)
Lemma room_path (n m : Z) (g : grid) (p o : Z * Z) :
  0 < n -> room_with_players n m g p o -> interior n m o ->
  forall (k : nat) (a : Z * Z),
    interior n m a -> Z.abs (a.1 - o.1) + Z.abs (a.2 - o.2) = Z.of_nat k + 1 ->
    (forall q, Z.abs (q.1 - o.1) + Z.abs (q.2 - o.2) <= Z.of_nat k -> q <> p) ->
    exists w, open_path g a w (Z.of_nat k) /\ adjacent w o.
Proof.
  intros Hn [Hd Hc] [Ho1 Ho2]. induction k as [|k IH]; intros [ax ay] [Ha1 Ha2] Hdist Hfar;
    simpl in *.
  { exists (ax, ay). split; [constructor|]. unfold adjacent. simpl. lia. }
  assert (exists a', adjacent (ax, ay) a' /\ interior n m a' /\
            Z.abs (a'.1 - o.1) + Z.abs (a'.2 - o.2) = Z.of_nat k + 1) as (a' & Hadj & Hi & Hd').
  { assert (ax < o.1 \/ o.1 < ax \/ (ax = o.1 /\ ay < o.2) \/ (ax = o.1 /\ o.2 < ay))
      as [?|[?|[[? ?]|[? ?]]]] by lia.
    - exists (ax + 1, ay). unfold adjacent, interior. simpl. lia.
    - exists (ax - 1, ay). unfold adjacent, interior. simpl. lia.
    - exists (ax, ay + 1). unfold adjacent, interior. simpl. lia.
    - exists (ax, ay - 1). unfold adjacent, interior. simpl. lia. }
  destruct (IH a' Hi Hd') as (w & Hw & Hwo).
  { intros q Hq. apply Hfar. lia. }
  exists w. split; [|done].
  replace (Z.of_nat (S k)) with (Z.of_nat k + 1) by lia.
  apply (open_path_cons g (ax, ay) a' w (Z.of_nat k) Hw Hadj).
  destruct Hi as [Hi1 Hi2]. split.
  - apply (in_bounds_replicate n m g a' Hd Hn). lia.
  - rewrite Hc by lia.
    rewrite decide_False by (intros ->; lia).
    rewrite decide_False by (apply Hfar; lia). by rewrite decide_True.
Qed.

(** A maze with its players, as the agents see it. *)
Lemma placed_maze_facts (n m : Z) (mz g : grid) (p o : Z * Z) :
  0 < n -> 0 < m ->
  dims mz = replicate (Z.to_nat n) (Z.to_nat m) -> two_glyphs mz ->
  connected (opens mz) ->
  cell mz (0, 0) = Some WALL -> cell mz (m - 1, n - 1) = Some WALL ->
  opens mz p -> opens mz o -> p <> o -> players_placed mz g p o ->
  parse_grid (grid_to_string g) = g /\
  rectangular g /\ count_cells "P" g = 1%nat /\ count_cells "O" g = 1%nat /\
  get_character_coordinates g "P" = Some p /\ get_character_coordinates g "O" = Some o /\
  exists d, calculate_path_distance g "P" "O" = Ok d /\ 1 <= d.
Proof.
  intros Hn Hm Hd Hglyphs Hconn Hfirst Hlast Hp Ho Hne [Hd' Hc].
  assert (forall q c, c <> WALL -> c <> OPEN -> cell g q = Some c <->
            (c = "O"%char /\ q = o) \/ (c = "P"%char /\ q = p)) as Hplayers.
  { intros q c Hc1 Hc2. rewrite Hc. destruct (decide (q = o)) as [->|?].
    - split; [intros [= <-]; by left|]. intros [[-> _]|[-> ?]]; [done|congruence].
    - destruct (decide (q = p)) as [->|?].
      + split; [intros [= <-]; by right|]. intros [[-> ?]|[-> _]]; [congruence|done].
      + split; [|intros [[_ ?]|[_ ?]]; congruence].
        intros Hq. by destruct (Hglyphs _ _ Hq) as [->| ->]. }
  assert (forall q, cell g q = Some "P"%char <-> q = p) as HP.
  { intros q. rewrite Hplayers by done. split; [by intros [[? _]|[_ ?]]|]. intros ->. by right. }
  assert (forall q, cell g q = Some "O"%char <-> q = o) as HO.
  { intros q. rewrite Hplayers by done. split; [by intros [[_ ?]|[? _]]|]. intros ->. by left. }
  destruct (Hconn p o Hp Ho) as [l Hl].
  destruct (spath_open_path g (opens mz) p o l Hl Hne) as (w & k & Hw & Hwo).
  { intros x Hx Hxp Hxo. pose proof (spath_all _ _ _ _ Hl x Hx) as Hopen. split.
    - apply (in_bounds_replicate n m g x ltac:(congruence) ltac:(lia)).
      by apply (cell_dims_inv n m mz x OPEN).
    - rewrite Hc. by rewrite !decide_False. }
  destruct (players_pursuit n m g p o w k ltac:(congruence) ltac:(lia) HP HO Hne Hw Hwo)
    as (Hrect & HcP & HcO & Hcp & Hco & d & Hdist & [Hd1 _] & _).
  split; [|do 5 (split; [done|]); by exists d].
  assert (forall q, cell mz q = Some WALL -> cell g q = Some WALL) as Hwall.
  { intros q Hq. rewrite Hc.
    destruct (decide (q = o)) as [->|?].
    { unfold opens in Ho. rewrite Hq in Ho. discriminate. }
    destruct (decide (q = p)) as [->|?]; [|done].
    unfold opens in Hp. rewrite Hq in Hp. discriminate. }
  apply (rendered_parses n m); [congruence|lia|lia| |by apply Hwall..].
  intros q c. rewrite Hc. destruct (decide (q = o)); [intros [= <-]; unfold glyph; auto|].
  destruct (decide (q = p)); [intros [= <-]; unfold glyph; auto|].
  intros Hq. destruct (Hglyphs _ _ Hq) as [->| ->]; unfold glyph; auto.
Qed.

(** The first cell of a carved maze is a wall, and its open cells are
    connected. *)
Lemma carved_maze_facts (n m : Z) (r : rng) (st : carver) :
  5 <= n -> 5 <= m -> carve_maze n m r = Ok st ->
  cell (maze st) (0, 0) = Some WALL /\ connected (opens (maze st)).
Proof.
  intros Hn Hm Hrun.
  destruct (carve_maze_carved n m r Hn Hm)
    as (st' & S & sx' & sy' & Hrun' & Hcv & _ & _ & _ & Hsx & Hsy & Hint).
  rewrite Hrun in Hrun'. injection Hrun' as <-. split.
  - destruct (cell_in_dims n m (maze st) 0 0 (cv_dims _ _ _ _ Hcv)) as [c Hc0]; [lia..|].
    destruct (cv_cells _ _ _ _ Hcv _ _ Hc0) as [->| ->]; [done|].
    apply (cv_open _ _ _ _ Hcv) in Hc0.
    destruct (Hint _ Hc0) as [[= ? ?]|[[? _] _]]; simpl in *; lia.
  - by destruct (carved_perfect n m _ S Hcv).
Qed.

(** X22.  A maze with its players is an input of the agents on which the
    target is reachable: when [generate_maze_with_players] returns (the maze
    has two open cells and the sampling ends), the text it returns parses to a
    rectangular grid with one ['P'] and one ['O'], and
    [calculate_path_distance] finds a path from ['P'] to ['O'] on it: its
    result is at least 1, never -1. *)
Theorem generated_maze_pursuit (fuel : nat) (n m : Z) (r : rng) (st : carver) :
  5 <= n -> 5 <= m -> carve_maze n m r = Ok st ->
  (2 <= count_cells OPEN (maze st))%nat ->
  ~ sample_stuck fuel (count_cells OPEN (maze st)) (gen st) ->
  exists s g d,
    generate_maze_with_players fuel n m r = Ok s /\ parse_grid s = g /\
    rectangular g /\ count_cells "P" g = 1%nat /\ count_cells "O" g = 1%nat /\
    calculate_path_distance g "P" "O" = Ok d /\ 1 <= d.
Proof.
  intros Hn Hm Hrun Hge Hfree.
  destruct (generate_maze_with_players_spec fuel n m r Hn Hm)
    as (st' & sx & sy & r1 & r2 & _ & _ & Hrun' & Hd & Hglyphs & Hcase).
  rewrite Hrun in Hrun'. injection Hrun' as <-.
  destruct Hcase as [(_ & _ & _ & _ & ? & _)|(_ & _ & Hlast & Hcase)]; [lia|].
  destruct Hcase as [[? _]|(_ & g & p & o & Hs & Hp & Ho & Hne & Hplaced)]; [done|].
  destruct (carved_maze_facts n m r st Hn Hm Hrun) as [Hfirst Hconn].
  destruct (placed_maze_facts n m (maze st) g p o ltac:(lia) ltac:(lia) Hd Hglyphs Hconn
              Hfirst Hlast Hp Ho Hne Hplaced)
    as (Hparse & Hrect & HcP & HcO & _ & _ & d & Hdist & Hd1).
  by exists (grid_to_string g), g, d.
Qed.

Lemma generated_maze_pursuit_witness :
  exists st, carve_maze 5 5 (Rng (fun i => i) O) = Ok st /\
    exists s g d,
      generate_maze_with_players 0 5 5 (Rng (fun i => i) O) = Ok s /\ parse_grid s = g /\
      rectangular g /\ count_cells "P" g = 1%nat /\ count_cells "O" g = 1%nat /\
      calculate_path_distance g "P" "O" = Ok d /\ 1 <= d.
Proof.
  eexists. split; [vm_compute; reflexivity|].
  eapply (generated_maze_pursuit 0 5 5 (Rng (fun i => i) O)).
  - lia.
  - lia.
  - vm_compute. reflexivity.
  - vm_compute. lia.
  - intros [H _]. vm_compute in H. lia.
Defined.

(** X23.  A room with its players is an input of the agents on which the
    two distances agree: when [generate_grid_with_characters] returns, the
    text it returns parses to a rectangular grid with one ['P'] and one ['O'],
    and on it [calculate_path_distance] and [calculate_distance] return the
    same number, at least 1. *)
Theorem generated_room_pursuit (fuel : nat) (n m : Z) (r : rng) :
  3 <= n -> 3 <= m -> ~ opponent_stuck fuel n m r ->
  exists s g d,
    generate_grid_with_characters fuel n m r = Ok s /\ parse_grid s = g /\
    rectangular g /\ count_cells "P" g = 1%nat /\ count_cells "O" g = 1%nat /\
    calculate_distance g "P" "O" = Ok d /\
    calculate_path_distance g "P" "O" = Ok d /\ 1 <= d.
Proof.
  intros Hn Hm Hfree.
  destruct (generate_grid_with_characters_spec fuel n m r Hn Hm)
    as [[? _]|(_ & g & p & o & Hs & Hpi & Hoi & Hne & Hroom)]; [done|].
  pose proof Hroom as [Hd Hc].
  assert (forall q c, c <> WALL -> c <> OPEN -> cell g q = Some c <->
            (c = "O"%char /\ q = o) \/ (c = "P"%char /\ q = p)) as Hplayers.
  { intros q c Hc1 Hc2. split.
    - intros Hq. destruct (cell_dims_inv n m g q c Hd Hq) as [Hq1 Hq2].
      rewrite Hc in Hq by done. destruct (decide (q = o)) as [->|?].
      { injection Hq as <-. by left. }
      destruct (decide (q = p)) as [->|?]; [injection Hq as <-; by right|].
      destruct (decide _); congruence.
    - destruct Hpi as [? ?], Hoi as [? ?].
      intros [[-> ->]|[-> ->]]; rewrite Hc by lia.
      + by rewrite decide_True.
      + rewrite decide_False by done. by rewrite decide_True. }
  assert (forall q, cell g q = Some "P"%char <-> q = p) as HP.
  { intros q. rewrite Hplayers by done. split; [by intros [[? _]|[_ ?]]|]. intros ->. by right. }
  assert (forall q, cell g q = Some "O"%char <-> q = o) as HO.
  { intros q. rewrite Hplayers by done. split; [by intros [[_ ?]|[? _]]|]. intros ->. by left. }
  set (M := Z.abs (p.1 - o.1) + Z.abs (p.2 - o.2)).
  assert (1 <= M) as HM.
  { unfold M. destruct p as [px py], o as [ox oy]. simpl.
    destruct (decide (px = ox)) as [->|?]; [|lia].
    destruct (decide (py = oy)) as [->|?]; [done|lia]. }
  destruct (room_path n m g p o ltac:(lia) Hroom Hoi (Z.to_nat (M - 1)) p Hpi)
    as (w & Hw & Hwo).
  { fold M. lia. }
  { intros q Hq ->. fold M in Hq. lia. }
  destruct (players_pursuit n m g p o w _ Hd ltac:(lia) HP HO Hne Hw Hwo)
    as (Hrect & HcP & HcO & Hcp & Hco & d & Hdist & [Hd1 Hd2] & Hshort).
  assert (d = M) as ->.
  { destruct Hshort as [[-> _]|[Hp _]]; [lia|].
    destruct Hp as [[? _]|(w' & Hw' & Hadj' & _)]; [done|].
    apply open_path_manhattan in Hw'. unfold adjacent in Hadj'. unfold M. lia. }
  exists (grid_to_string g), g, M. split; [done|]. split.
  { destruct Hpi as [? ?], Hoi as [? ?].
    apply (rendered_parses n m); [done|lia|lia| | |].
    - intros q c Hq. destruct (cell_dims_inv n m g q c Hd Hq) as [Hq1 Hq2].
      rewrite Hc in Hq by done. injection Hq as <-. unfold glyph.
      repeat destruct (decide _); auto.
    - rewrite Hc by (simpl; lia). rewrite decide_False by (intros <-; simpl in *; lia).
      rewrite decide_False by (intros <-; simpl in *; lia).
      by rewrite decide_False by (simpl; lia).
    - rewrite Hc by (simpl; lia). rewrite decide_False by (intros <-; simpl in *; lia).
      rewrite decide_False by (intros <-; simpl in *; lia).
      by rewrite decide_False by (simpl; lia). }
  do 3 (split; [done|]). split; [|by split].
  unfold calculate_distance. rewrite Hcp, Hco. by destruct p, o.
Qed.

Lemma generated_room_pursuit_witness :
  exists s g d,
    generate_grid_with_characters 1 4 5 (Rng (fun i => i) O) = Ok s /\ parse_grid s = g /\
    rectangular g /\ count_cells "P" g = 1%nat /\ count_cells "O" g = 1%nat /\
    calculate_distance g "P" "O" = Ok d /\
    calculate_path_distance g "P" "O" = Ok d /\ 1 <= d.
Proof.
  apply (generated_room_pursuit 1 4 5 (Rng (fun i => i) O)); [lia|lia|].
  intros H. destruct (H O ltac:(lia)) as [H1 _]. vm_compute in H1. discriminate.
Defined.

(** ** Next to the target *)

(** X24.  The path-finding agent never steps onto the target: on a
    rectangular grid whose mover occurs once, stands next to the target (path
    distance 1) and has an open neighbour, [make_smart_move] moves the mover
    away, onto an open adjacent cell, and the path distance of the grid it
    returns is 2. *)
Theorem make_smart_move_steps_away (s : string) (c1 c2 : ascii) (q0 : Z * Z) :
  rectangular (parse_grid s) ->
  count_cells c1 (parse_grid s) = 1%nat ->
  c1 <> c2 -> c1 <> OPEN -> c2 <> OPEN ->
  calculate_path_distance (parse_grid s) c1 c2 = Ok 1 ->
  (exists from, get_character_coordinates (parse_grid s) c1 = Some from /\
                adjacent from q0 /\ is_open (parse_grid s) q0) ->
  exists best from p,
    make_smart_move s c1 c2 = Ok (grid_to_string best) /\
    get_character_coordinates (parse_grid s) c1 = Some from /\
    adjacent from p /\ is_open (parse_grid s) p /\
    moved (parse_grid s) best c1 from p /\
    calculate_path_distance best c1 c2 = Ok 2.
Proof.
  intros Hrect Hone H12 H1 H2 Hd (from & Hfrom & Hadj0 & Hopen0).
  unfold make_smart_move. cbv zeta. revert Hrect Hone Hd Hfrom Hopen0.
  generalize (parse_grid s). intros g Hrect Hone Hd Hc1 Hopen0. destruct from as [x y].
  destruct (get_character_coordinates g c2) as [t|] eqn:Hc2.
  2:{ unfold calculate_path_distance in Hd. by rewrite Hc1, Hc2 in Hd. }
  destruct (calculate_path_distance_shortest g c1 c2 _ _ Hrect Hc1 Hc2) as (d0 & Hd0 & Hshort).
  rewrite Hd in Hd0. injection Hd0 as <-.
  destruct Hshort as [[? _]|[Hpath _]]; [lia|].
  destruct Hpath as [[_ ?]|(w & Hw & Hwt & Hbt)]; [lia|].
  apply open_path_zero in Hw as ->.
  pose proof (coordinates_cell _ _ _ Hc1) as Hcfrom.
  pose proof (coordinates_cell _ _ _ Hc2) as Hcto.
  pose proof (coordinates_in_bounds _ _ _ Hrect Hc1) as Hs0.
  destruct (candidates_spec g c1 x y Hrect Hc1) as (moves & l & Hmoves & Hl & _ & _).
  assert (generate_possible_moves g c1 = Ok l) as Hgen.
  { unfold generate_possible_moves. rewrite Hc1, Hmoves. done. }
  destruct (candidates_complete g c1 x y l q0 Hrect Hc1 Hgen Hadj0 Hopen0) as (c0 & Hc0 & _).
  assert (forall c, c ∈ l -> exists p,
            adjacent (x, y) p /\ is_open g p /\ moved g c c1 (x, y) p /\
            calculate_path_distance c c1 c2 = Ok 2) as Hscore.
  { intros c Hc.
    destruct (candidate_score g c1 c2 x y t l c) as (p & Hadj & Hop & Hmoved & Hr & Hp1 & Hp2);
      try done.
    exists p. do 3 (split; [done|]).
    destruct (calculate_path_distance_shortest c c1 c2 p t Hr Hp1 Hp2) as (dc & Hdc & Hsh).
    rewrite Hdc. f_equal.
    assert (p <> t) as Hpt.
    { intros ->. destruct Hop as [_ Hop]. rewrite Hcto in Hop. by injection Hop. }
    assert ((x, y) <> p) as Hne.
    { intros <-. destruct Hop as [_ Hop]. rewrite Hcfrom in Hop. by injection Hop. }
    assert (path_between c p t 2) as Hp2steps.
    { destruct Hmoved as [Hdims Hcell]. right. exists (x, y). split; [|split].
      - apply (open_on c p p (x, y) 0); [constructor|by apply adjacent_sym|]. split.
        + by apply (in_bounds_dims g).
        + rewrite Hcell. rewrite decide_False by done. by rewrite decide_True.
      - done.
      - by apply (in_bounds_dims g). }
    destruct Hsh as [[_ Hno]|[Hp Hleast]]; [by destruct (Hno 2)|].
    specialize (Hleast 2 Hp2steps).
    destruct Hp as [[? _]|(w & Hw & Hwt' & _)]; [done|].
    apply open_path_manhattan in Hw. unfold adjacent in Hadj, Hwt, Hwt'.
    destruct p as [p1 p2], t as [t1 t2], w as [w1 w2]. simpl in *.
    assert (p1 <> t1 \/ p2 <> t2) by (destruct (decide (p1 = t1)); [right|left]; congruence).
    lia. }
  rewrite Hgen. cbn [mbind result_bind].
  destruct l as [|first rest]; [by apply elem_of_nil in Hc0|].
  assert (find_best_move (calculate_path_distances (first :: rest) c1 c2) = Ok (Some first))
    as ->.
  { apply (find_best_move_first first rest (fun c => calculate_path_distance c c1 c2) 2).
    intros c Hc. by destruct (Hscore c Hc) as (? & _ & _ & _ & ?). }
  cbn [mbind result_bind grid_to_string_of].
  destruct (Hscore first (list_elem_of_here _ _)) as (p & Hadj & Hop & Hmoved & Hdist).
  exists first, (x, y), p. done.
Qed.

Lemma make_smart_move_steps_away_witness :
  exists best from p,
    make_smart_move side_by_side "P" "O" = Ok (grid_to_string best) /\
    get_character_coordinates (parse_grid side_by_side) "P" = Some from /\
    adjacent from p /\ is_open (parse_grid side_by_side) p /\
    moved (parse_grid side_by_side) best "P" from p /\
    calculate_path_distance best "P" "O" = Ok 2.
Proof.
  apply (make_smart_move_steps_away side_by_side "P" "O" (1, 2)).
  - intros row H. vm_compute in H.
    repeat (apply elem_of_cons in H as [->|H]); try reflexivity.
    by apply elem_of_nil in H.
  - vm_compute. reflexivity.
  - discriminate.
  - discriminate.
  - discriminate.
  - vm_compute. reflexivity.
  - exists (1, 1). split; [vm_compute; reflexivity|]. split; [vm_compute; reflexivity|].
    split; [|vm_compute; reflexivity]. unfold in_bounds. vm_compute.
    repeat split; discriminate.
Defined.

(** ** The module's run *)

(** [make_move] on a well-formed grid: the mover steps onto an open
    neighbour, or has none and [min] raises. *)
Lemma make_move_outcome (s : string) (c1 c2 : ascii) (x y : Z) (t : Z * Z) :
  rectangular (parse_grid s) -> count_cells c1 (parse_grid s) = 1%nat ->
  c1 <> c2 -> c1 <> OPEN -> c2 <> OPEN ->
  get_character_coordinates (parse_grid s) c1 = Some (x, y) ->
  get_character_coordinates (parse_grid s) c2 = Some t ->
  ((forall q, adjacent (x, y) q -> ~ is_open (parse_grid s) q) /\
   make_move s c1 c2 = Raise min_of_nothing) \/
  (exists best p, adjacent (x, y) p /\ is_open (parse_grid s) p /\
     moved (parse_grid s) best c1 (x, y) p /\
     make_move s c1 c2 = Ok (grid_to_string best)).
Proof.
  unfold make_move. cbv zeta. generalize (parse_grid s).
  intros g Hrect Hone H12 H1 H2 Hc1 Hc2.
  destruct (candidates_spec g c1 x y Hrect Hc1) as (moves & l & Hmoves & Hl & _ & _).
  assert (generate_possible_moves g c1 = Ok l) as Hgen.
  { unfold generate_possible_moves. rewrite Hc1, Hmoves. done. }
  rewrite Hgen. cbn [mbind result_bind]. destruct l as [|first rest].
  - left. split; [|done]. intros q Hq Ho.
    destruct (candidates_complete g c1 x y [] q Hrect Hc1 Hgen Hq Ho) as (c & Hc & _).
    by apply elem_of_nil in Hc.
  - right.
    assert (forall c, c ∈ first :: rest -> exists p,
              adjacent (x, y) p /\ is_open g p /\ moved g c c1 (x, y) p /\
              exists d, calculate_distance c c1 c2 = Ok d) as Hscore.
    { intros c Hc.
      destruct (candidate_score g c1 c2 x y t (first :: rest) c)
        as (p & Hadj & Hop & Hmoved & _ & Hp1 & Hp2); try done.
      exists p. do 3 (split; [done|]).
      unfold calculate_distance. rewrite Hp1, Hp2. destruct p, t. by eexists. }
    destruct (find_best_move_least (first :: rest) first rest
                (fun c => calculate_distance c c1 c2) eq_refl)
      as (best & d & Hbest & Hin & _).
    { intros c Hc. by destruct (Hscore c Hc) as (? & _ & _ & _ & ?). }
    unfold calculate_distances. rewrite Hbest. cbn [mbind result_bind grid_to_string_of].
    destruct (Hscore best Hin) as (p & Hadj & Hop & Hmoved & _). by exists best, p.
Qed.

(** X25.  The module's run, for all draws.  The 10 by 10 maze is carved;
    then the run ends in [ValueError] because the maze has one open cell, or
    the sampling of the two spots runs on, or the maze with its players is
    printed and [play] is called: it raises the [ValueError] of [min] when
    ['P'] has no open neighbour, and otherwise moves ['P'] onto an open
    adjacent cell, stores the new text in [grid] and prints it. *)
Theorem run_module_outcomes (fuel : nat) (r : rng) :
  exists st, carve_maze 10 10 r = Ok st /\
    (((count_cells OPEN (maze st) < 2)%nat /\ run_module fuel r = Raise too_few_spots) \/
     (sample_stuck fuel (count_cells OPEN (maze st)) (gen st) /\
      run_module fuel r = OutOfFuel) \/
     (exists s from, generate_maze_with_players fuel 10 10 r = Ok s /\
        get_character_coordinates (parse_grid s) "P" = Some from /\
        (((forall q, adjacent from q -> ~ is_open (parse_grid s) q) /\
          run_module fuel r = Raise min_of_nothing) \/
         (exists best p, adjacent from p /\ is_open (parse_grid s) p /\
            moved (parse_grid s) best "P" from p /\
            run_module fuel r =
              Ok (World (grid_to_string best)
                    ["Generated Grid:"%string; s;
                     String NEWLINE "Grid After One Move:"; grid_to_string best]))))).
Proof.
  destruct (generate_maze_with_players_spec fuel 10 10 r ltac:(lia) ltac:(lia))
    as (st & sx & sy & r1 & r2 & _ & _ & Hrun & Hd & Hglyphs & Hcase).
  exists st. split; [done|]. unfold run_module.
  destruct Hcase as [(_ & _ & _ & _ & Hlt & ->)|(_ & Hge & Hlast & Hcase)]; [by left|].
  right. destruct Hcase as [[Hstuck ->]|(_ & g & p & o & -> & Hp & Ho & Hne & Hplaced)];
    [by left|].
  right. cbn [mbind result_bind].
  destruct (carved_maze_facts 10 10 r st ltac:(lia) ltac:(lia) Hrun) as [Hfirst Hconn].
  destruct (placed_maze_facts 10 10 (maze st) g p o ltac:(lia) ltac:(lia) Hd Hglyphs Hconn
              Hfirst Hlast Hp Ho Hne Hplaced)
    as (Hparse & Hrect & HcP & _ & Hcp & Hco & _).
  exists (grid_to_string g), p. split; [done|]. rewrite Hparse. split; [done|].
  unfold play. cbn [grid_text printed].
  destruct p as [x y].
  destruct (make_move_outcome (grid_to_string g) "P" "O" x y o)
    as [[Hnone ->]|(best & q & Hq & Hoq & Hmoved & ->)];
    rewrite ?Hparse; try done.
  - left. split; [|done]. intros q. rewrite Hparse in Hnone. apply Hnone.
  - right. rewrite Hparse in Hoq, Hmoved. by exists best, q.
Qed.

(** X26.  Each way the module's run can fail is met by some draws: draws
    for which the maze has one open cell, and draws for which ['P'] is placed
    in a dead end next to ['O'] and [play] finds no move. *)
Theorem run_module_can_fail :
  run_module 0 (Rng (fun _ => 4%nat) O) = Raise too_few_spots /\
  run_module 0 (Rng (fun i => (i + 13)%nat) O) = Raise min_of_nothing.
Proof. split; vm_compute; reflexivity. Qed.

(** ** The pursuit *)

Lemma arena_intro (n m : Z) (g : grid) (p o : Z * Z) :
  0 < n -> 0 < m -> dims g = replicate (Z.to_nat n) (Z.to_nat m) ->
  Forall (Forall glyph) g ->
  cell g (0, 0) = Some WALL -> cell g (m - 1, n - 1) = Some WALL ->
  count_cells "P" g = 1%nat -> cell g p = Some "P"%char ->
  count_cells "O" g = 1%nat -> cell g o = Some "O"%char ->
  arena n m g p o.
Proof.
  intros Hn Hm Hd Hg Hfirst Hlast HcP Hp HcO Ho. do 3 (split; [done|]).
  split; [|split; [done|split; [done|split]]].
  - intros q c. unfold cell. destruct (decide _); [|done].
    destruct (g !! Z.to_nat q.2) as [row|] eqn:Hrow; [|done]. simpl. intros Hc.
    pose proof (proj1 (Forall_lookup _ _) Hg _ _ Hrow) as Hr.
    apply (proj1 (Forall_lookup _ _) Hr _ _ Hc).
  - intros q. split; [|by intros ->]. intros Hq. by apply (count_cells_one "P" g).
  - intros q. split; [|by intros ->]. intros Hq. by apply (count_cells_one "O" g).
Qed.

Lemma arena_facts (n m : Z) (g : grid) (p o : Z * Z) :
  arena n m g p o ->
  parse_grid (grid_to_string g) = g /\ rectangular g /\
  count_cells "P" g = 1%nat /\ get_character_coordinates g "P" = Some p.
Proof.
  intros (Hn & Hm & Hd & Hg & Hfirst & Hlast & HP & HO).
  split; [by apply (rendered_parses n m)|]. split; [by apply (rectangular_replicate n m)|].
  split; [by apply (count_cells_unique _ g p)|by apply coordinates_unique].
Qed.

Lemma arena_moved (n m : Z) (g g' : grid) (p p' o : Z * Z) :
  arena n m g p o -> is_open g p' -> moved g g' "P" p p' -> arena n m g' p' o.
Proof.
  intros (Hn & Hm & Hd & Hg & Hfirst & Hlast & HP & HO) [_ Hopen] [Hd' Hc].
  assert (cell g p = Some "P"%char) as Hp by (by apply HP).
  assert (cell g o = Some "O"%char) as Ho by (by apply HO).
  assert (forall q, cell g q = Some WALL -> cell g' q = Some WALL) as Hwall.
  { intros q Hq. rewrite Hc.
    destruct (decide (q = p')) as [->|?]; [rewrite Hq in Hopen; discriminate|].
    destruct (decide (q = p)) as [->|?]; [rewrite Hq in Hp; discriminate|done]. }
  do 2 (split; [done|]). split; [congruence|]. split; [|split; [|split; [|split]]].
  - intros q c. rewrite Hc. destruct (decide (q = p')); [intros [= <-]; unfold glyph; auto|].
    destruct (decide (q = p)); [intros [= <-]; unfold glyph; auto|apply Hg].
  - by apply Hwall.
  - by apply Hwall.
  - intros q. rewrite Hc. destruct (decide (q = p')) as [->|Hne]; [done|].
    destruct (decide (q = p)) as [->|Hne']; [split; [discriminate|done]|].
    rewrite HP. split; [done|]. by intros ->.
  - intros q. rewrite Hc. destruct (decide (q = p')) as [->|Hne].
    { split; [discriminate|]. intros ->. rewrite Ho in Hopen. discriminate. }
    destruct (decide (q = p)) as [->|Hne'].
    { split; [discriminate|]. intros ->. rewrite Ho in Hp. discriminate. }
    apply HO.
Qed.

(** X27.  The pursuit: in an arena where ['P'] is at path distance [d] of
    ['O'], [k <= d - 1] calls of [smart_play] all return, each prints two
    lines, and they leave in [grid] the text of an arena where ['P'] is at
    path distance [d - k] of the same ['O']. *)
Theorem smart_play_pursuit (n m : Z) (k : nat) :
  forall (g : grid) (p o : Z * Z) (d : Z) (out : list string),
    arena n m g p o -> calculate_path_distance g "P" "O" = Ok d ->
    Z.of_nat k <= d - 1 ->
    exists g' p' log,
      smart_plays k (World (grid_to_string g) out)
        = Ok (World (grid_to_string g') (out ++ log)) /\
      length log = (2 * k)%nat /\
      arena n m g' p' o /\
      calculate_path_distance g' "P" "O" = Ok (d - Z.of_nat k).
Proof.
  induction k as [|k IH]; intros g p o d out Ha Hd Hk.
  { exists g, p, []. rewrite app_nil_r. split; [done|]. split; [done|]. split; [done|].
    by replace (d - Z.of_nat 0) with d by lia. }
  destruct (arena_facts n m g p o Ha) as (Hparse & Hrect & HcP & Hcp).
  destruct (smart_step g "P" "O" d Hrect HcP ltac:(done) ltac:(done) ltac:(done) Hd
              ltac:(lia))
    as (l & best & from & p' & Hgen & Hbest & Hfrom & Hadj & Hop & Hmoved & Hdist).
  rewrite Hcp in Hfrom. injection Hfrom as <-.
  pose proof (arena_moved n m g best p p' o Ha Hop Hmoved) as Ha'.
  destruct (IH best p' o (d - 1)
              (out ++ [String NEWLINE "Grid After One Move:"; grid_to_string best])
              Ha' Hdist ltac:(lia))
    as (g' & p'' & log & Hrun & Hlen & Ha'' & Hd').
  exists g', p'', ([String NEWLINE "Grid After One Move:"; grid_to_string best] ++ log).
  split; [|split; [simpl; lia|split; [done|]]].
  - cbn [smart_plays]. unfold smart_play, make_smart_move. cbn [grid_text printed].
    cbv zeta. rewrite Hparse, Hgen. cbn [mbind result_bind]. rewrite Hbest.
    cbn [mbind result_bind grid_to_string_of]. rewrite Hrun. by rewrite <- app_assoc.
  - rewrite Hd'. f_equal. lia.
Qed.

Lemma smart_play_pursuit_witness :
  exists g' p' log,
    smart_plays 3 (World (grid_to_string (parse_grid open_room)) [])
      = Ok (World (grid_to_string g') ([] ++ log)) /\
    length log = (2 * 3)%nat /\
    arena 5 5 g' p' (3, 3) /\
    calculate_path_distance g' "P" "O" = Ok (4 - Z.of_nat 3).
Proof.
  apply (smart_play_pursuit 5 5 3 (parse_grid open_room) (1, 1) (3, 3) 4 []).
  - apply arena_intro; try lia; try (vm_compute; reflexivity).
    let g := eval vm_compute in (parse_grid open_room) in
    change (parse_grid open_room) with g.
    repeat first [apply Forall_nil_2 | apply Forall_cons_2]; unfold glyph; auto.
  - vm_compute. reflexivity.
  - lia.
Defined.

(** ** Ragged grids *)

(** The test of one move, on any grid that has a row: inside the
    [len(grid)] by [len(grid[0])] box the cell is read, and a row shorter than
    the first one makes the read raise. *)
Lemma is_valid_move_cases (g : grid) (p : Z * Z) :
  g <> [] ->
  is_valid_move g p =
    if decide (in_bounds g p)
    then match cell g p with
         | Some c => Ok (bool_decide (c = OPEN))
         | None => Raise IndexError
         end
    else Ok false.
Proof.
  intros Hg. rewrite is_valid_move_unfold by done.
  destruct (decide (in_bounds g p)) as [Hb|Hb].
  - rewrite bool_decide_eq_true_2 by done. destruct Hb as [[Hy Hy'] [Hx _]].
    unfold get_cell, cell. rewrite decide_True by done. rewrite index_nonneg by done.
    destruct (g !! Z.to_nat p.2) as [row|] eqn:Hrow; cbn [mbind result_bind option_bind].
    + rewrite index_nonneg by done. by destruct (row !! Z.to_nat p.1).
    + apply lookup_ge_None in Hrow. unfold Py.len in Hy'. lia.
  - by rewrite bool_decide_eq_false_2.
Qed.

Lemma filter_r_outcome {A} (f : A -> result bool) (l : list A) :
  (forall a, a ∈ l -> f a = Raise IndexError \/ exists b, f a = Ok b) ->
  (filter_r f l = Raise IndexError /\ exists a, a ∈ l /\ f a = Raise IndexError) \/
  (exists l', filter_r f l = Ok l' /\ (forall a, a ∈ l -> exists b, f a = Ok b) /\
     forall a, a ∈ l' <-> a ∈ l /\ f a = Ok true).
Proof.
  induction l as [|a l IH]; intros Hall.
  { right. exists []. split; [done|]. split; [by intros a ?%elem_of_nil|].
    intros a. split; [by intros ?%elem_of_nil|]. by intros [?%elem_of_nil _]. }
  destruct (Hall a (list_elem_of_here _ _)) as [Ha|[b Ha]].
  { left. simpl. rewrite Ha. split; [done|]. exists a. split; [apply list_elem_of_here|done]. }
  destruct IH as [[Hrun (a' & Ha' & Hf)]|(l' & Hrun & Hok & Hin)].
  { intros a' Ha'. by apply Hall, list_elem_of_further. }
  - left. simpl. rewrite Ha, Hrun. split; [done|].
    exists a'. split; [by apply list_elem_of_further|done].
  - right. destruct (filter_r_total f (a :: l)) as (l2 & Hl2 & Hin2).
    { intros a' Ha'. apply elem_of_cons in Ha' as [->|Ha']; [by exists b|by apply Hok]. }
    exists l2. split; [done|]. split; [|done].
    intros a' Ha'. apply elem_of_cons in Ha' as [->|Ha']; [by exists b|by apply Hok].
Qed.

(** X28.  When [generate_possible_moves] raises, on any grid.  It raises
    the "not found" [ValueError] exactly when no cell holds the character, and
    [IndexError] exactly when the character is found and one of the four cells
    around it lies inside the [len(grid)] by [len(grid[0])] box but beyond the
    end of its own row; it raises nothing else. *)
Theorem generate_possible_moves_raises (g : grid) (char : ascii) (e : exn) :
  generate_possible_moves g char = Raise e <->
  (e = not_found /\ get_character_coordinates g char = None) \/
  (e = IndexError /\
   exists x y p, get_character_coordinates g char = Some (x, y) /\
     p ∈ possible_moves x y /\ in_bounds g p /\ cell g p = None).
Proof.
  unfold generate_possible_moves, valid_moves.
  destruct (get_character_coordinates g char) as [[x y]|] eqn:Hc.
  2:{ split; [intros [= <-]; by left|]. intros [[-> _]|(_ & ? & ? & ? & ? & _)]; done. }
  pose proof (coordinates_nonempty _ _ _ Hc) as Hg.
  pose proof (coordinates_cell _ _ _ Hc) as Hcell.
  destruct (cell_nonneg _ _ _ Hcell) as [Hx Hy]. simpl in Hx, Hy.
  destruct (filter_r_outcome (is_valid_move g) (possible_moves x y))
    as [[-> (p & Hp & Hraise)]|(moves & -> & Hok & Hin)]; cbn [mbind result_bind].
  { intros p _. rewrite is_valid_move_cases by done.
    destruct (decide (in_bounds g p)); [|right; by eexists].
    destruct (cell g p); [right; by eexists|by left]. }
  - split.
    + intros [= <-]. right. split; [done|]. exists x, y, p. split; [done|]. split; [done|].
      rewrite is_valid_move_cases in Hraise by done.
      destruct (decide (in_bounds g p)); [|done]. by destruct (cell g p).
    + intros [[_ ?]|[-> _]]; done.
  - destruct (map_r_total (moved_grid g char x y) moves) as (l & -> & _).
    { intros p Hp. apply Hin in Hp as [_ Hv]. rewrite is_valid_move_cases in Hv by done.
      destruct (decide (in_bounds g p)); [|done].
      destruct (cell g p) as [c|] eqn:Hcp; [|done].
      apply (moved_grid_total g char char x y p); [done| |done|done]. by rewrite Hcp. }
    split; [done|]. intros [[_ ?]|(_ & x' & y' & p & [= <- <-] & Hp & Hb & Hnone)]; [done|].
    destruct (Hok p Hp) as [b Hv]. rewrite is_valid_move_cases in Hv by done.
    rewrite decide_True in Hv by done. by rewrite Hnone in Hv.
Qed.
